(** * SalesPulse: the [aggregate] routine of [src/App.tsx]

    A shallow embedding of the data-cleaning and rollup function of the
    dashboard, over IEEE 754 binary64 numbers (Rocq's primitive floats, the
    arithmetic of JavaScript's Number), and the properties of its outputs. *)

From Stdlib Require Import ZArith List String Ascii Floats Uint63 Lia Bool.
From stdpp Require Import base option list sorting gmap strings.

Local Open Scope string_scope.
Local Open Scope list_scope.
Local Open Scope Z_scope.

(** ** JavaScript numbers *)

Module Num.

Abbreviation num := PrimFloat.float.

Definition zero : num := 0%float.
Definition one : num := 1%float.
Definition hundred : num := 100%float.
Definition NaN : num := PrimFloat.nan.
Definition Infinity : num := PrimFloat.infinity.

Definition add : num -> num -> num := PrimFloat.add.
Definition sub : num -> num -> num := PrimFloat.sub.
Definition mul : num -> num -> num := PrimFloat.mul.
Definition div : num -> num -> num := PrimFloat.div.

  (** [x === y] on numbers: IEEE equality, false on NaN, true on [0] and [-0]. *)
Definition eqb : num -> num -> bool := PrimFloat.eqb.
Definition ltb : num -> num -> bool := PrimFloat.ltb.
Definition leb : num -> num -> bool := PrimFloat.leb.

  (** [Number.isNaN] (and the global [isNaN] after [Number(...)]). *)
Definition isNaN (x : num) : bool := negb (PrimFloat.eqb x x).

Definition isFinite (x : num) : bool :=
    match Prim2SF x with
    | S754_zero _ | S754_finite _ _ _ => true
    | _ => false
    end.

  (** ToBoolean on a number: [0], [-0] and [NaN] are falsy. *)
Definition truthy (x : num) : bool := negb (eqb x zero) && negb (isNaN x).

  (** [x || d] on numbers. *)
Definition or_else (x d : num) : num := if truthy x then x else d.

  (** An integer as a Number; exact for the integers below 2^53 in
      magnitude, which is all this development converts. *)
Definition of_Z (z : Z) : num :=
    match z with
    | Z0 => zero
    | Zpos _ => PrimFloat.of_uint63 (Uint63.of_Z z)
    | Zneg p => PrimFloat.opp (PrimFloat.of_uint63 (Uint63.of_Z (Zpos p)))
    end.

Definition of_nat (n : nat) : num := of_Z (Z.of_nat n).

  (** The integer part of a finite number, rounding toward zero
      (ToIntegerOrInfinity); [None] on NaN and the infinities. *)
Definition trunc (x : num) : option Z :=
    match Prim2SF x with
    | S754_zero _ => Some 0
    | S754_finite s m e =>
        let a := match e with
                 | Zneg k => Z.shiftr (Zpos m) (Zpos k)
                 | _ => Z.shiftl (Zpos m) e
                 end in
        Some (if s then - a else a)
    | _ => None
    end.

  (** Left-to-right sum from [0]: [xs.reduce((s, v) => s + v, 0)]. *)
Definition sum (xs : list num) : num := fold_left add xs zero.

End Num.

Abbreviation num := Num.num.

(** ** Values of a parsed record

    The CSV parser runs with dynamic typing: a cell is [null] (empty), a
    boolean, a number, a [Date] object (ISO date-times) or a string; a
    missing column reads as [undefined].  A [Date] object carries its
    identity, which is what a [Map] compares, and its time value: an
    integral number of milliseconds, or NaN ([None]) for an invalid date. *)

Inductive value :=
| VUndefined
| VNull
| VBool (b : bool)
| VNum (x : num)
| VStr (s : string)
| VDate (oid : nat) (t : option Z).

(** A record: property name to value; an absent property reads [undefined]. *)
Abbreviation record := (gmap string value).

Definition prop (r : record) (k : string) : value := default VUndefined (r !! k).

(** [a ?? b] *)
Definition nullish (a b : value) : value :=
  match a with
  | VUndefined | VNull => b
  | _ => a
  end.
Infix "??" := nullish (at level 62, left associativity).

(** [a == null] *)
Definition is_nullish (a : value) : bool :=
  match a with
  | VUndefined | VNull => true
  | _ => false
  end.

(** [a === ""] *)
Definition is_empty_string (a : value) : bool :=
  match a with
  | VStr s => String.eqb s ""
  | _ => false
  end.

(** SameValueZero, the key equality of [Map]. *)
Definition SameValueZero (a b : value) : bool :=
  match a, b with
  | VUndefined, VUndefined | VNull, VNull => true
  | VBool x, VBool y => Bool.eqb x y
  | VNum x, VNum y => Num.eqb x y || (Num.isNaN x && Num.isNaN y)
  | VStr s, VStr t => String.eqb s t
  | VDate i _, VDate j _ => Nat.eqb i j
  | _, _ => false
  end.

(** ** The host

    What the JavaScript engine supplies and the program does not define:
    the numeric reading of a string (StringToNumber), [Date.parse] (a time
    value or NaN), and the offset of local time from UTC in milliseconds at
    a given UTC time (LocalTZA). *)

Class Host := {
  StringToNumber : string -> num;
  Date_parse : string -> num;
  LocalTZA : Z -> Z
}.

(** ** Dates (ECMAScript time values) *)

Module Time.

Definition msPerDay : Z := 86400000.
Definition maxTime : num := 8.64e15%float.

  (** TimeClip: a finite number of magnitude at most 8.64e15, truncated. *)
Definition TimeClip (x : num) : option Z :=
    if Num.ltb maxTime (PrimFloat.abs x) then None else Num.trunc x.

Definition Day (t : Z) : Z := t / msPerDay.

Definition DaysInYear (y : Z) : Z :=
    if negb (y mod 4 =? 0) then 365
    else if negb (y mod 100 =? 0) then 366
    else if negb (y mod 400 =? 0) then 365
    else 366.

Definition DayFromYear (y : Z) : Z :=
    365 * (y - 1970) + (y - 1969) / 4 - (y - 1901) / 100 + (y - 1601) / 400.

  (** The largest year [y'], at most [y], that starts on or before day [d]. *)
Fixpoint year_down (fuel : nat) (y d : Z) : Z :=
    match fuel with
    | O => y
    | S fuel' => if DayFromYear y <=? d then y else year_down fuel' (y - 1) d
    end.

  (** YearFromTime: the largest [y] with [TimeFromYear y <= t].  A year has
      365 or 366 days, which bounds the year of day [d] from above; the
      search below that bound is short for every time value. *)
Definition YearFromTime (t : Z) : Z :=
    let d := Day t in
    year_down 1024 (1970 + Z.max (d / 365) (d / 366)) d.

Definition InLeapYear (t : Z) : Z :=
    if DaysInYear (YearFromTime t) =? 366 then 1 else 0.

Definition DayWithinYear (t : Z) : Z := Day t - DayFromYear (YearFromTime t).

Definition MonthFromTime (t : Z) : Z :=
    let d := DayWithinYear t in
    let leap := InLeapYear t in
    if d <? 31 then 0
    else if d <? 59 + leap then 1
    else if d <? 90 + leap then 2
    else if d <? 120 + leap then 3
    else if d <? 151 + leap then 4
    else if d <? 181 + leap then 5
    else if d <? 212 + leap then 6
    else if d <? 243 + leap then 7
    else if d <? 273 + leap then 8
    else if d <? 304 + leap then 9
    else if d <? 334 + leap then 10
    else 11.

Section Local.
Context `{Host}.

Definition LocalTime (t : Z) : Z := t + LocalTZA t.

    (** [dt.getFullYear()] and [dt.getMonth()] of a valid date. *)
Definition getFullYear (t : Z) : Z := YearFromTime (LocalTime t).
Definition getMonth (t : Z) : Z := MonthFromTime (LocalTime t).
End Local.

End Time.

(** ** Strings of integers *)

Definition digit_char (d : Z) : ascii := ascii_of_N (48 + Z.to_N d).

Fixpoint digits_go (fuel : nat) (n : Z) (acc : string) : string :=
  match fuel with
  | O => acc
  | S fuel' =>
      let acc' := String (digit_char (n mod 10)) acc in
      if n <? 10 then acc' else digits_go fuel' (n / 10) acc'
  end.

(** ToString of an integral number (here a year or a month: far below the
    magnitudes that print in exponent notation). *)
Definition Z_to_string (z : Z) : string :=
  let ds n := digits_go (S (Z.to_nat (Z.log2 n))) n "" in
  if z <? 0 then String "-" (ds (- z)) else ds z.

Fixpoint repeat_char (n : nat) (c : ascii) : string :=
  match n with
  | O => ""
  | S n' => String c (repeat_char n' c)
  end.

(** [s.padStart(n, c)] with a one-character filler. *)
Definition padStart (n : nat) (c : ascii) (s : string) : string :=
  repeat_char (n - String.length s) c +:+ s.

(** ** Built-in conversions *)

Section Conversions.
Context `{Host}.

  (** [Number(v)] *)
Definition Number (v : value) : num :=
    match v with
    | VUndefined => Num.NaN
    | VNull => Num.zero
    | VBool b => if b then Num.one else Num.zero
    | VNum x => x
    | VStr s => StringToNumber s
    | VDate _ (Some t) => Num.of_Z t
    | VDate _ None => Num.NaN
    end.

  (** The time value of [new Date(v)]: a copy for a [Date], the parse of a
      string, the clipped number otherwise. *)
Definition new_Date (v : value) : option Z :=
    match v with
    | VDate _ t => t
    | VStr s => Time.TimeClip (Date_parse s)
    | _ => Time.TimeClip (Number v)
    end.

  (** [toDate]: [null] for an invalid date, the date otherwise. *)
Definition toDate (d : value) : option Z := new_Date d.

  (** [monthKey] *)
Definition monthKey (dt : Z) : string :=
    Z_to_string (Time.getFullYear dt) +:+ "-" +:+
    padStart 2 "0" (Z_to_string (Time.getMonth dt + 1)).

End Conversions.

(** ** [Array.prototype.sort]

    The sort is stable, and the comparator's result counts as [+0] when it
    is NaN; [gt a b] says that the comparator is positive on [(a, b)].
    For a comparator that orders its inputs consistently the result is the
    one stable sorted arrangement, which insertion computes. *)

Section Sort.
Context {A : Type} (gt : A -> A -> bool).

Fixpoint insert_sorted (x : A) (l : list A) : list A :=
    match l with
    | [] => [x]
    | y :: l' => if gt x y then y :: insert_sorted x l' else x :: l
    end.

Fixpoint sort (l : list A) : list A :=
    match l with
    | [] => []
    | x :: l' => insert_sorted x (sort l')
    end.
End Sort.

(** ** [Map], in insertion order *)

Section JsMap.
Context {K V : Type} (same : K -> K -> bool).

Fixpoint map_get (k : K) (m : list (K * V)) : option V :=
    match m with
    | [] => None
    | (k', v) :: m' => if same k' k then Some v else map_get k m'
    end.

Fixpoint map_set (k : K) (v : V) (m : list (K * V)) : list (K * V) :=
    match m with
    | [] => [(k, v)]
    | (k', v') :: m' => if same k' k then (k', v) :: m' else (k', v') :: map_set k v m'
    end.
End JsMap.

(** ** The types of the source *)

Record Row := {
  date : Z;
  product : value;
  units : num;
  unit_price : num;
  sales : num
}.

Record MonthlyRow := {
  key : string;
  m_sales : num;
  transactions : Z;
  pct_change : option num
}.

Record ProductTotal := {
  p_product : value;
  total_sales : num;
  percent : num
}.

Record Output := {
  rows : list Row;
  productTotalsArr : list ProductTotal;
  monthly : list MonthlyRow;
  naive : num;
  ma : num
}.

(** [a.localeCompare(b)]: the keys compared are made of digits and hyphens,
    which every collation orders as their code units are. *)
Definition localeCompare (a b : string) : Z :=
  match String.compare a b with
  | Lt => -1
  | Eq => 0
  | Gt => 1
  end.

(** ** [aggregate] *)

Section Aggregate.
Context `{Host}.

Definition dateRaw (r : record) : value :=
    prop r "date" ?? prop r "order_date" ?? prop r "tarih".

Definition productOf (r : record) : value :=
    prop r "product" ?? prop r "ürün" ?? prop r "Product" ?? VStr "Unknown".

Definition unitsVal (r : record) : value :=
    prop r "units" ?? prop r "quantity" ?? prop r "adet" ?? prop r "Units" ?? prop r "Quantity".

Definition unitPriceVal (r : record) : value :=
    prop r "unit_price" ?? prop r "price" ?? prop r "Unit_Price" ?? prop r "Price".

Definition rawSales (r : record) : value :=
    prop r "sales" ?? prop r "revenue" ?? prop r "ciro" ?? prop r "Sales" ?? prop r "Revenue".

Definition numericSales (r : record) : num :=
    let rawSales := rawSales r in
    if is_nullish rawSales || is_empty_string rawSales || Num.isNaN (Number rawSales)
    then Num.mul (Number (unitsVal r)) (Number (unitPriceVal r))
    else Number rawSales.

  (** The callback of [data.map]: a [Row], or [null]. *)
Definition toRow (r : record) : option Row :=
    let date := toDate (dateRaw r) in
    let product := productOf r in
    let units := Number (unitsVal r) in
    let unit_price := Number (unitPriceVal r) in
    let numericSales := numericSales r in
    match date with
    | None => None
    | Some date =>
        if Num.isNaN units || Num.isNaN unit_price || Num.isNaN numericSales
        then None
        else Some {| date := date; product := product; units := units;
                     unit_price := unit_price; sales := numericSales |}
    end.

  (** [data.map(...).filter(x => x !== null)] *)
Definition rowsUnsorted (data : list record) : list Row := omap toRow data.

  (** [(a, b) => a.date.getTime() - b.date.getTime()] is positive exactly
      when [a] is the later: time values are integers below 2^53 in
      magnitude, and the difference of two such numbers keeps its sign. *)
Definition later (a b : Row) : bool := 0 <? date a - date b.

Definition sortRows (l : list Row) : list Row := sort later l.

  (** The key a [Map] stores: [-0] is stored as [0]. *)
Definition map_key (k : value) : value :=
    match k with
    | VNum x => if Num.eqb x Num.zero then VNum Num.zero else k
    | _ => k
    end.

  (** [productTotals.set(r.product, (productTotals.get(r.product) || 0) + r.sales)] *)
Definition addProduct (m : list (value * num)) (r : Row) : list (value * num) :=
    let cur := match map_get SameValueZero (product r) m with
               | Some t => Num.or_else t Num.zero
               | None => Num.zero
               end in
    map_set SameValueZero (map_key (product r)) (Num.add cur (sales r)) m.

Definition productTotals (rows : list Row) : list (value * num) :=
    fold_left addProduct rows [].

  (** [(a, b) => b.total_sales - a.total_sales] is positive. *)
Definition smaller_total (a b : value * num) : bool :=
    Num.ltb Num.zero (Num.sub (snd b) (snd a)).

Definition sortedTotals (rows : list Row) : list (value * num) :=
    sort smaller_total (productTotals rows).

Definition totalAll (ts : list (value * num)) : num := Num.sum (map snd ts).

Definition percentOf (totalAll total_sales : num) : num :=
    if Num.truthy totalAll
    then Num.mul (Num.div total_sales totalAll) Num.hundred
    else Num.zero.

Definition withPercent (ts : list (value * num)) : list ProductTotal :=
    map (fun x => {| p_product := fst x; total_sales := snd x;
                     percent := percentOf (totalAll ts) (snd x) |}) ts.

  (** One turn of the monthly loop. *)
Definition addMonth (m : list (string * MonthlyRow)) (r : Row) : list (string * MonthlyRow) :=
    let k := monthKey (date r) in
    let cur := match map_get String.eqb k m with
               | Some cur => cur
               | None => {| key := k; m_sales := Num.zero; transactions := 0;
                            pct_change := None |}
               end in
    map_set String.eqb k
      {| key := cur.(key); m_sales := Num.add cur.(m_sales) (sales r);
         transactions := cur.(transactions) + 1; pct_change := cur.(pct_change) |} m.

Definition monthlyMap (rows : list Row) : list (string * MonthlyRow) :=
    fold_left addMonth rows [].

Definition key_after (a b : MonthlyRow) : bool := 0 <? localeCompare a.(key) b.(key).

Definition monthlySorted (rows : list Row) : list MonthlyRow :=
    sort key_after (map snd (monthlyMap rows)).

  (** The body of the percentage loop, for the bucket after one of sales
      [prev_sales]. *)
Definition pctChange (prev_sales cur_sales : num) : num :=
    let prev := Num.or_else prev_sales Num.zero in
    if Num.truthy prev
    then Num.mul (Num.div (Num.sub cur_sales prev) prev) Num.hundred
    else Num.zero.

Fixpoint pctLoop (prev_sales : num) (l : list MonthlyRow) : list MonthlyRow :=
    match l with
    | [] => []
    | m :: l' =>
        {| key := m.(key); m_sales := m.(m_sales); transactions := m.(transactions);
           pct_change := Some (pctChange prev_sales m.(m_sales)) |}
        :: pctLoop m.(m_sales) l'
    end.

  (** [for (let i = 1; i < monthly.length; i++) ...] *)
Definition withPctChange (l : list MonthlyRow) : list MonthlyRow :=
    match l with
    | [] => []
    | m :: l' => m :: pctLoop m.(m_sales) l'
    end.

  (** [y.slice(-k)] for [0 < k <= y.length] *)
Definition slice_last {A} (k : nat) (y : list A) : list A :=
    drop (length y - k) y.

Definition naiveOf (y : list num) : num :=
    match last y with
    | Some v => v
    | None => Num.zero
    end.

Definition maOf (y : list num) : num :=
    let k := Nat.min 3 (length y) in
    match k with
    | O => Num.zero
    | _ => Num.div (Num.sum (slice_last k y)) (Num.of_nat k)
    end.

Definition aggregate (data : list record) : Output :=
    let rows := sortRows (rowsUnsorted data) in
    let productTotalsArr := withPercent (sortedTotals rows) in
    let monthly := withPctChange (monthlySorted rows) in
    let y := map m_sales monthly in
    {| rows := rows; productTotalsArr := productTotalsArr; monthly := monthly;
       naive := naiveOf y; ma := maOf y |}.

End Aggregate.

(** A host in the UTC time zone that reads unsigned decimal integers and
    nothing else. *)
Fixpoint decimal_value (s : string) (acc : Z) : option Z :=
  match s with
  | EmptyString => Some acc
  | String c s' =>
      let n := Z.of_N (N_of_ascii c) in
      if (48 <=? n) && (n <=? 57) then decimal_value s' (10 * acc + (n - 48)) else None
  end.

Definition utc_host : Host := {|
  StringToNumber := fun s =>
    match s with
    | EmptyString => Num.zero
    | _ => match decimal_value s 0 with
           | Some z => if z <? 2 ^ 53 then Num.of_Z z else Num.NaN
           | None => Num.NaN
           end
    end;
  Date_parse := fun _ => Num.NaN;
  LocalTZA := fun _ => 0
|}.

(** * Properties *)

(** ** The sort *)

Section SortFacts.
Context {A : Type} (gt : A -> A -> bool).

Lemma insert_sorted_perm (x : A) (l : list A) : insert_sorted gt x l ≡ₚ x :: l.
Proof.
    induction l as [|y l IH]; simpl; [done|].
    destruct (gt x y); [|done].
    rewrite IH. apply Permutation_swap.
Qed.

Lemma sort_perm (l : list A) : sort gt l ≡ₚ l.
Proof.
    induction l as [|x l IH]; simpl; [done|].
    by rewrite insert_sorted_perm, IH.
Qed.

Lemma sort_length (l : list A) : length (sort gt l) = length l.
Proof. by rewrite (sort_perm l). Qed.

  (** Elements that the comparator never puts after one another keep
      their order. *)
Lemma insert_sorted_filter (P : A -> Prop) `{!forall x, Decision (P x)} (x : A) (l : list A) :
    (forall y, P x -> P y -> gt x y = false) ->
    filter P (insert_sorted gt x l) = filter P (x :: l).
Proof.
    intros Hxy. induction l as [|y l IH]; simpl; [done|].
    destruct (gt x y) eqn:Hgt; [|done].
    rewrite filter_cons, IH, !filter_cons.
    destruct (decide (P y)) as [Hy|Hy], (decide (P x)) as [Hx|Hx]; try done.
    rewrite (Hxy y Hx Hy) in Hgt. done.
Qed.

Lemma sort_stable (P : A -> Prop) `{!forall x, Decision (P x)} (l : list A) :
    (forall x y, P x -> P y -> gt x y = false) ->
    filter P (sort gt l) = filter P l.
Proof.
    intros Hxy. induction l as [|x l IH]; simpl; [done|].
    rewrite insert_sorted_filter by auto.
    by rewrite !filter_cons, IH.
Qed.

  (** [a] may stand before [b]. *)
Definition in_order (a b : A) : Prop := gt a b = false.

Section Sorted.
Context (Q : A -> Prop).
Hypothesis gt_asym : forall x y, Q x -> Q y -> gt x y = true -> gt y x = false.
Hypothesis in_order_trans :
      forall x y z, Q x -> Q y -> Q z -> in_order x y -> in_order y z -> in_order x z.

Lemma insert_sorted_sorted (x : A) (l : list A) :
      Q x -> Forall Q l -> StronglySorted in_order l ->
      StronglySorted in_order (insert_sorted gt x l).
Proof.
      intros Hx HQ Hs. induction Hs as [|y l Hs IH Hy]; simpl.
      { repeat constructor. }
      apply Forall_cons in HQ as [HQy HQ].
      destruct (gt x y) eqn:Hgt.
      - constructor; [by apply IH|].
        rewrite (insert_sorted_perm x l). constructor; [|done].
        by apply gt_asym.
      - constructor; [by constructor|].
        constructor; [done|].
        rewrite Forall_forall in Hy, HQ. apply Forall_forall. intros z Hz.
        apply (in_order_trans x y z); auto.
Qed.

Lemma sort_sorted (l : list A) :
      Forall Q l -> StronglySorted in_order (sort gt l).
Proof.
      induction l as [|x l IH]; simpl; intros HQ; [constructor|].
      apply Forall_cons in HQ as [Hx HQ].
      apply insert_sorted_sorted; auto.
      by rewrite (sort_perm l).
Qed.
End Sorted.
End SortFacts.

(** ** The insertion-ordered map *)

Section JsMapFacts.
Context {K V : Type} (same : K -> K -> bool).

  (** A key that is present is updated in place. *)
Lemma map_set_present (k : K) (v v' : V) (m : list (K * V)) :
    map_get same k m = Some v ->
    exists i k', m !! i = Some (k', v) /\ same k' k = true /\
                 map_set same k v' m = <[i := (k', v')]> m.
Proof.
    induction m as [|[k0 v0] m IH]; simpl; [done|].
    destruct (same k0 k) eqn:Hs.
    - intros [= ->]. by exists 0%nat, k0.
    - intros Hg. destruct (IH Hg) as (i & k' & Hi & Hk & ->).
      by exists (S i), k'.
Qed.

  (** A key that is absent is appended. *)
Lemma map_set_absent (k : K) (v' : V) (m : list (K * V)) :
    map_get same k m = None -> map_set same k v' m = m ++ [(k, v')].
Proof.
    induction m as [|[k0 v0] m IH]; simpl; [done|].
    destruct (same k0 k); [done|]. intros Hg. by rewrite IH.
Qed.

Lemma map_get_absent (k : K) (m : list (K * V)) :
    map_get same k m = None -> Forall (fun e => same (fst e) k = false) m.
Proof.
    induction m as [|[k0 v0] m IH]; simpl; [constructor|].
    destruct (same k0 k) eqn:Hs; [done|]. intros Hg. constructor; auto.
Qed.

Lemma map_get_ext (k1 k2 : K) (m : list (K * V)) :
    (forall k', same k' k1 = same k' k2) -> map_get same k1 m = map_get same k2 m.
Proof.
    intros Hk. induction m as [|[k0 v0] m IH]; simpl; [done|].
    by rewrite Hk, IH.
Qed.
End JsMapFacts.

(** ** Row validation *)

Section Validation.
Context `{Host}.

Definition valid_date (r : record) : Prop := is_Some (toDate (dateRaw r)).

  (** The test of the code: none of the three numbers is NaN. *)
Definition numbers_not_NaN (r : record) : Prop :=
    Num.isNaN (Number (unitsVal r)) = false /\
    Num.isNaN (Number (unitPriceVal r)) = false /\
    Num.isNaN (numericSales r) = false.

  (** The test of the specification: the three numbers are finite. *)
Definition numbers_finite (r : record) : Prop :=
    Num.isFinite (Number (unitsVal r)) = true /\
    Num.isFinite (Number (unitPriceVal r)) = true /\
    Num.isFinite (numericSales r) = true.

  (** The row a record gives, when it gives one. *)
Definition row_of (r : record) (t : Z) : Row :=
    {| date := t; product := productOf r; units := Number (unitsVal r);
       unit_price := Number (unitPriceVal r); sales := numericSales r |}.

Lemma toRow_Some (r : record) (row : Row) :
    toRow r = Some row <->
    exists t, toDate (dateRaw r) = Some t /\ numbers_not_NaN r /\ row = row_of r t.
Proof.
    unfold toRow, numbers_not_NaN, row_of.
    destruct (toDate (dateRaw r)) as [t|]; [|split; [done|by intros (? & ? & _)]].
    destruct (Num.isNaN (Number (unitsVal r))),
             (Num.isNaN (Number (unitPriceVal r))),
             (Num.isNaN (numericSales r)); simpl;
      (split; [intros [= <-]; try (by eexists) | intros (t' & [= <-] & Hn & ->); try done;
               destruct Hn as (? & ? & ?); done]).
Qed.

Lemma toRow_is_Some (r : record) :
    is_Some (toRow r) <-> valid_date r /\ numbers_not_NaN r.
Proof.
    split.
    - intros [row (t & Ht & Hn & _)%toRow_Some]. split; [by exists t|done].
    - intros [[t Ht] Hn]. exists (row_of r t). apply toRow_Some. by exists t.
Qed.

Lemma rows_perm (data : list record) :
    rows (aggregate data) ≡ₚ omap toRow data.
Proof. apply sort_perm. Qed.

End Validation.

(** ** Facts of binary64 arithmetic *)

Module NumFacts.

Local Open Scope Z_scope.


(** *** Comparison *)

(** The place of a number in the order: negative infinity, the negative
    numbers, the zeros, the positive numbers, positive infinity. *)
Definition rank (x : spec_float) : Z * Z * Z :=
  match x with
  | S754_nan => (0, 0, 0)
  | S754_zero _ => (0, 0, 0)
  | S754_infinity s => (if s then -2 else 2, 0, 0)
  | S754_finite s m e => if s then (-1, - e, Zneg m) else (1, e, Zpos m)
  end.

Definition lex_compare (a b : Z * Z * Z) : comparison :=
  match a, b with
  | (a1, a2, a3), (b1, b2, b3) =>
      match a1 ?= b1 with
      | Eq => match a2 ?= b2 with
              | Eq => a3 ?= b3
              | c => c
              end
      | c => c
      end
  end.

Definition not_nan (x : spec_float) : Prop := x <> S754_nan.

Lemma SFcompare_rank (x y : spec_float) :
  not_nan x -> not_nan y -> SFcompare x y = Some (lex_compare (rank x) (rank y)).
Proof.
  unfold not_nan.
  destruct x as [sx|sx| |sx mx ex], y as [sy|sy| |sy my ey]; try done; intros _ _;
    try (by destruct sx, sy).
  destruct sx, sy; simpl; try done.
  rewrite Z.compare_opp, (Z.compare_antisym ex ey).
  by destruct (ex ?= ey).
Qed.

Lemma SFcompare_None (x y : spec_float) :
  SFcompare x y = None <-> x = S754_nan \/ y = S754_nan.
Proof.
  destruct x as [sx|sx| |sx mx ex], y as [sy|sy| |sy my ey]; simpl;
    try (split; [done|intros [?|?]; done]); try (split; auto; done).
Qed.

Lemma lex_compare_Lt (a b : Z * Z * Z) :
  lex_compare a b = Lt <->
  a.1.1 < b.1.1 \/ (a.1.1 = b.1.1 /\ (a.1.2 < b.1.2 \/ (a.1.2 = b.1.2 /\ a.2 < b.2))).
Proof.
  destruct a as [[a1 a2] a3], b as [[b1 b2] b3]; simpl.
  destruct (Z.compare_spec a1 b1), (Z.compare_spec a2 b2), (Z.compare_spec a3 b3);
    split; try done; try lia.
Qed.

Lemma lex_compare_Gt (a b : Z * Z * Z) :
  lex_compare a b = Gt <->
  b.1.1 < a.1.1 \/ (a.1.1 = b.1.1 /\ (b.1.2 < a.1.2 \/ (a.1.2 = b.1.2 /\ b.2 < a.2))).
Proof.
  destruct a as [[a1 a2] a3], b as [[b1 b2] b3]; simpl.
  destruct (Z.compare_spec a1 b1), (Z.compare_spec a2 b2), (Z.compare_spec a3 b3);
    split; try done; try lia.
Qed.


Lemma lex_compare_antisym (a b : Z * Z * Z) :
  lex_compare b a = CompOpp (lex_compare a b).
Proof.
  destruct a as [[a1 a2] a3], b as [[b1 b2] b3]; simpl.
  rewrite (Z.compare_antisym a1 b1), (Z.compare_antisym a2 b2), (Z.compare_antisym a3 b3).
  by destruct (a1 ?= b1), (a2 ?= b2), (a3 ?= b3).
Qed.

Lemma lex_compare_refl (a : Z * Z * Z) : lex_compare a a = Eq.
Proof. destruct a as [[a1 a2] a3]; simpl. by rewrite !Z.compare_refl. Qed.

Lemma lex_compare_le_trans (a b c : Z * Z * Z) :
  lex_compare a b <> Gt -> lex_compare b c <> Gt -> lex_compare a c <> Gt.
Proof.
  rewrite !lex_compare_Gt.
  destruct a as [[a1 a2] a3], b as [[b1 b2] b3], c as [[c1 c2] c3]; simpl. lia.
Qed.

Lemma Prim2SF_inj (x y : num) : Prim2SF x = Prim2SF y -> x = y.
Proof. intros Hxy. by rewrite <- (SF2Prim_Prim2SF x), <- (SF2Prim_Prim2SF y), Hxy. Qed.

Lemma Prim2SF_zero : Prim2SF Num.zero = S754_zero false.
Proof. reflexivity. Qed.

Lemma isNaN_true (x : num) : Num.isNaN x = true <-> Prim2SF x = S754_nan.
Proof.
  unfold Num.isNaN. rewrite FloatAxioms.eqb_spec, negb_true_iff. unfold SFeqb.
  destruct (Prim2SF x) as [s|s| |s m e] eqn:Hx; try (by destruct s); [done|].
  rewrite (SFcompare_rank (S754_finite s m e) (S754_finite s m e)) by done.
  by rewrite lex_compare_refl.
Qed.

Lemma isNaN_false (x : num) : Num.isNaN x = false <-> not_nan (Prim2SF x).
Proof.
  unfold not_nan. rewrite <- isNaN_true. by destruct (Num.isNaN x).
Qed.

Lemma isFinite_not_NaN (x : num) : Num.isFinite x = true -> Num.isNaN x = false.
Proof.
  unfold Num.isFinite. intros Hf. apply isNaN_false. unfold not_nan.
  by destruct (Prim2SF x).
Qed.

Lemma eqb_zero_inv (x : num) :
  Num.eqb x Num.zero = true -> exists s, Prim2SF x = S754_zero s.
Proof.
  unfold Num.eqb. rewrite FloatAxioms.eqb_spec, Prim2SF_zero. unfold SFeqb.
  destruct (Prim2SF x) as [s|s| |s m e]; simpl; try done; try (by destruct s).
  by exists s.
Qed.

Lemma eqb_zero_same (x y : num) :
  Num.eqb x Num.zero = true -> Num.eqb y x = Num.eqb y Num.zero /\ Num.isNaN x = false.
Proof.
  intros [s Hx]%eqb_zero_inv. split.
  - unfold Num.eqb. rewrite !FloatAxioms.eqb_spec, Hx, Prim2SF_zero. unfold SFeqb.
    by destruct (Prim2SF y) as [sy|sy| |sy my ey].
  - apply isNaN_false. by rewrite Hx.
Qed.

Lemma ltb_not_leb (x y : num) :
  Num.isNaN x = false -> Num.isNaN y = false -> Num.ltb x y = negb (Num.leb y x).
Proof.
  intros Hx%isNaN_false Hy%isNaN_false. unfold Num.ltb, Num.leb.
  rewrite FloatAxioms.ltb_spec, FloatAxioms.leb_spec. unfold SFltb, SFleb.
  rewrite !SFcompare_rank by done.
  rewrite (lex_compare_antisym (rank (Prim2SF x)) (rank (Prim2SF y))).
  by destruct (lex_compare (rank (Prim2SF x)) (rank (Prim2SF y))).
Qed.

Lemma ltb_leb (x y : num) : Num.ltb x y = true -> Num.leb x y = true.
Proof.
  unfold Num.ltb, Num.leb. rewrite FloatAxioms.ltb_spec, FloatAxioms.leb_spec. unfold SFltb, SFleb.
  by destruct (SFcompare (Prim2SF x) (Prim2SF y)) as [[]|].
Qed.

Lemma leb_not_nan (x y : num) :
  Num.leb x y = true -> not_nan (Prim2SF x) /\ not_nan (Prim2SF y).
Proof.
  unfold Num.leb. rewrite FloatAxioms.leb_spec. unfold SFleb, not_nan.
  destruct (SFcompare (Prim2SF x) (Prim2SF y)) eqn:Hc; [|done]. intros _.
  split; intros Hn; rewrite Hn in Hc; simpl in Hc; [done|].
  by destruct (Prim2SF x).
Qed.

Lemma leb_rank (x y : num) :
  not_nan (Prim2SF x) -> not_nan (Prim2SF y) ->
  Num.leb x y = true <-> lex_compare (rank (Prim2SF x)) (rank (Prim2SF y)) <> Gt.
Proof.
  intros Hx Hy. unfold Num.leb. rewrite FloatAxioms.leb_spec. unfold SFleb.
  rewrite SFcompare_rank by done.
  by destruct (lex_compare (rank (Prim2SF x)) (rank (Prim2SF y))).
Qed.

Lemma leb_trans (x y z : num) :
  Num.leb x y = true -> Num.leb y z = true -> Num.leb x z = true.
Proof.
  intros Hxy Hyz.
  destruct (leb_not_nan _ _ Hxy) as [Hx Hy], (leb_not_nan _ _ Hyz) as [_ Hz].
  apply leb_rank in Hxy, Hyz; try done. apply leb_rank; try done.
  by apply (lex_compare_le_trans _ (rank (Prim2SF y))).
Qed.



(** *** Digits and shifts *)

Lemma digits2_bounds (p : positive) :
  2 ^ (Zpos (digits2_pos p) - 1) <= Zpos p < 2 ^ Zpos (digits2_pos p).
Proof.
  induction p as [p IH|p IH|]; simpl digits2_pos; [| |simpl; lia].
  - rewrite Pos2Z.inj_succ. replace (Z.succ (Zpos (digits2_pos p)) - 1) with
      (Z.succ (Zpos (digits2_pos p) - 1)) by lia.
    rewrite !Z.pow_succ_r by lia. lia.
  - rewrite Pos2Z.inj_succ. replace (Z.succ (Zpos (digits2_pos p)) - 1) with
      (Z.succ (Zpos (digits2_pos p) - 1)) by lia.
    rewrite !Z.pow_succ_r by lia. lia.
Qed.

Lemma digits2_unique (p : positive) (d : Z) :
  2 ^ (d - 1) <= Zpos p < 2 ^ d -> Zpos (digits2_pos p) = d.
Proof.
  intros [Hlo Hhi]. pose proof (digits2_bounds p) as [Hlo' Hhi'].
  assert (0 < d).
  { destruct (Z.lt_ge_cases 0 d); [done|].
    assert (2 ^ d <= 2 ^ 0) by (apply Z.pow_le_mono_r; lia). simpl in *. lia. }
  destruct (Z.lt_trichotomy (Zpos (digits2_pos p)) d) as [Hlt|[Heq|Hgt]]; [|done|].
  - assert (2 ^ Zpos (digits2_pos p) <= 2 ^ (d - 1)) by (apply Z.pow_le_mono_r; lia). lia.
  - assert (2 ^ d <= 2 ^ (Zpos (digits2_pos p) - 1)) by (apply Z.pow_le_mono_r; lia). lia.
Qed.

Lemma digits2_mul_pow2 (p q : positive) (k : Z) :
  0 <= k -> Zpos q = Zpos p * 2 ^ k ->
  Zpos (digits2_pos q) = Zpos (digits2_pos p) + k.
Proof.
  intros Hk Hq. apply digits2_unique. rewrite Hq.
  pose proof (digits2_bounds p) as [Hlo Hhi].
  replace (Zpos (digits2_pos p) + k - 1) with (Zpos (digits2_pos p) - 1 + k) by lia.
  rewrite !Z.pow_add_r by lia.
  assert (0 < 2 ^ k) by (apply Z.pow_pos_nonneg; lia). nia.
Qed.

Lemma iter_xO (m d : positive) : Zpos (Pos.iter xO m d) = Zpos m * 2 ^ Zpos d.
Proof.
  induction d as [|d IH] using Pos.peano_ind.
  - simpl. lia.
  - rewrite Pos.iter_succ, Pos2Z.inj_succ, Z.pow_succ_r by lia.
    rewrite Pos2Z.inj_xO, IH. lia.
Qed.

(** Aligning to a smaller exponent keeps the value. *)
Lemma shl_align_spec (m : positive) (e e' : Z) :
  e' <= e ->
  snd (shl_align m e e') = e' /\
  Zpos (fst (shl_align m e e')) = Zpos m * 2 ^ (e - e').
Proof.
  intros He. unfold shl_align.
  destruct (e' - e) as [|d|d] eqn:Hd; simpl; try lia.
  - split; [lia|]. replace (e - e') with 0 by lia. simpl. lia.
  - split; [done|]. rewrite iter_xO. f_equal. f_equal. lia.
Qed.

Lemma shl_align_id (m : positive) (e e' : Z) :
  e <= e' -> shl_align m e e' = (m, e).
Proof.
  intros He. unfold shl_align. destruct (e' - e) as [|d|d] eqn:Hd; try done. lia.
Qed.

Lemma iter_pos_comm {A} (f : A -> A) (n : positive) (x : A) :
  SpecFloat.iter_pos f n (f x) = f (SpecFloat.iter_pos f n x).
Proof.
  revert x. induction n as [n IH|n IH|]; intros x; simpl; [|by rewrite !IH|done].
  by rewrite !IH.
Qed.

Lemma iter_pos_succ {A} (f : A -> A) (n : positive) (x : A) :
  SpecFloat.iter_pos f (Pos.succ n) x = f (SpecFloat.iter_pos f n x).
Proof.
  revert x. induction n as [n IH|n IH|]; intros x; simpl; [|by rewrite !iter_pos_comm|done].
  by rewrite !IH, !iter_pos_comm.
Qed.

Lemma shr_1_m (mrs : shr_record) :
  0 <= shr_m mrs -> shr_m (shr_1 mrs) = shr_m mrs / 2.
Proof.
  destruct mrs as [m r s]. simpl. intros Hm.
  destruct m as [|[p|p|]|p]; simpl; try done; try lia.
  - rewrite Pos2Z.inj_xI. apply (Z.div_unique _ _ _ 1); lia.
  - rewrite Pos2Z.inj_xO. apply (Z.div_unique _ _ _ 0); lia.
Qed.

Lemma iter_shr_1_m (n : positive) (mrs : shr_record) :
  0 <= shr_m mrs -> shr_m (SpecFloat.iter_pos shr_1 n mrs) = shr_m mrs / 2 ^ Zpos n.
Proof.
  intros Hm. induction n as [|n IH] using Pos.peano_ind.
  - simpl SpecFloat.iter_pos. by rewrite shr_1_m.
  - rewrite iter_pos_succ, shr_1_m.
    + rewrite IH, Pos2Z.inj_succ, Z.pow_succ_r by lia.
      rewrite Z.div_div by (try apply Z.pow_pos_nonneg; lia). f_equal. lia.
    + rewrite IH. apply Z.div_pos; [done|]. apply Z.pow_pos_nonneg; lia.
Qed.

(** Shifting out zeros is exact. *)
Lemma iter_shr_1_exact (n : positive) (m : Z) :
  0 <= m ->
  SpecFloat.iter_pos shr_1 n (Build_shr_record (m * 2 ^ Zpos n) false false)
  = Build_shr_record m false false.
Proof.
  intros Hm. revert m Hm. induction n as [|n IH] using Pos.peano_ind; intros m Hm.
  - simpl SpecFloat.iter_pos. replace (m * 2 ^ 1) with (2 * m) by lia.
    destruct m as [|p|p]; simpl; first [done|lia].
  - rewrite iter_pos_succ, Pos2Z.inj_succ, Z.pow_succ_r by lia.
    replace (m * (2 * 2 ^ Zpos n)) with ((2 * m) * 2 ^ Zpos n) by lia.
    rewrite IH by lia. destruct m as [|p|p]; simpl; first [done|lia].
Qed.


(** *** Rounding *)

Ltac unfold_format := unfold SpecFloat.fexp, SpecFloat.emin, prec, emax in *.

Lemma shr_record_of_loc_m (m : Z) (l : location) : shr_m (shr_record_of_loc m l) = m.
Proof. by destruct l as [|[]]. Qed.

Lemma round_nearest_even_ge (m : Z) (l : location) : m <= round_nearest_even m l.
Proof. destruct l as [|[]]; simpl; try lia. destruct (Z.even m); lia. Qed.

(** A nonzero mantissa at an exponent in range is not shifted to zero. *)
Lemma shr_fexp_pos (m e : Z) (l : location) :
  0 < m -> -1074 <= e ->
  0 < shr_m (fst (shr_fexp prec emax m e l)) /\ -1074 <= snd (shr_fexp prec emax m e l).
Proof.
  intros Hm He. unfold shr_fexp, shr.
  destruct m as [|p|p]; try lia. simpl Zdigits2.
  pose proof (digits2_bounds p) as [Hlo Hhi].
  destruct (fexp prec emax (Zpos (digits2_pos p) + e) - e) as [|q|q] eqn:Hq; simpl;
    rewrite ?shr_record_of_loc_m; try (split; lia).
  unfold_format.
  rewrite iter_shr_1_m by (rewrite shr_record_of_loc_m; lia).
  rewrite shr_record_of_loc_m. split; [|lia].
  apply Z.div_str_pos. split; [apply Z.pow_pos_nonneg; lia|].
  etrans; [|exact Hlo]. apply Z.pow_le_mono_r; lia.
Qed.

(** Rounding a nonzero number gives a nonzero number of the same sign. *)
Lemma binary_round_aux_sign (s : bool) (m e : Z) (l : location) :
  0 < m -> -1074 <= e ->
  match binary_round_aux prec emax s m e l with
  | S754_finite s' _ _ | S754_infinity s' => s' = s
  | _ => False
  end.
Proof.
  intros Hm He. unfold binary_round_aux.
  pose proof (shr_fexp_pos m e l Hm He) as [Hm1 He1].
  destruct (shr_fexp prec emax m e l) as [mrs1 e1]. simpl in Hm1, He1.
  pose proof (round_nearest_even_ge (shr_m mrs1) (loc_of_shr_record mrs1)) as Hr.
  pose proof (shr_fexp_pos (round_nearest_even (shr_m mrs1) (loc_of_shr_record mrs1)) e1
                loc_Exact ltac:(lia) He1) as [Hm2 He2].
  destruct (shr_fexp prec emax _ e1 loc_Exact) as [mrs2 e2]. simpl in Hm2, He2.
  destruct (shr_m mrs2) as [|p|p]; try lia.
  by destruct (e2 <=? emax - prec).
Qed.

Lemma binary_round_sign (s : bool) (m : positive) (e : Z) :
  -1074 <= e ->
  match binary_round prec emax s m e with
  | S754_finite s' _ _ | S754_infinity s' => s' = s
  | _ => False
  end.
Proof.
  intros He. unfold binary_round.
  destruct (shl_align m e (fexp prec emax (Zpos (digits2_pos m) + e))) as [mz ez] eqn:Hs.
  apply binary_round_aux_sign; [lia|].
  unfold shl_align in Hs.
  destruct (fexp prec emax (Zpos (digits2_pos m) + e) - e) as [|d|d] eqn:Hd;
    injection Hs as <- <-; try lia.
  unfold_format. lia.
Qed.

Lemma normalize_sign (M e : Z) :
  -1074 <= e ->
  SFltb (S754_zero false) (binary_normalize prec emax M e false) = (0 <? M).
Proof.
  intros He. unfold binary_normalize.
  destruct M as [|p|p]; [done| |].
  - pose proof (binary_round_sign false p e He) as Hs.
    destruct (binary_round prec emax false p e) as [s'|s'| |s' m' e']; try done; by subst.
  - pose proof (binary_round_sign true p e He) as Hs.
    destruct (binary_round prec emax true p e) as [s'|s'| |s' m' e']; try done; by subst.
Qed.

(** The mantissa of a valid number has at most 53 digits, and exactly 53
    above the least exponent. *)
Lemma valid_finite (s : bool) (m : positive) (e : Z) :
  valid_binary (S754_finite s m e) = true ->
  Zpos (digits2_pos m) <= 53 /\ -1074 <= e /\ (-1074 < e -> Zpos (digits2_pos m) = 53).
Proof.
  simpl. unfold bounded, canonical_mantissa.
  intros [Hc _]%andb_true_iff. apply Z.eqb_eq in Hc. unfold_format. lia.
Qed.

Lemma cond_Zopp_pos (s : bool) (m : Z) :
  0 < m -> (if s then cond_Zopp s m < 0 else 0 < cond_Zopp s m).
Proof. destruct s; simpl; lia. Qed.

(** Comparison is the comparison of the mantissas aligned on the smaller
    exponent. *)
Lemma SFcompare_aligned (sx sy : bool) (mx my : positive) (ex ey : Z) :
  valid_binary (S754_finite sx mx ex) = true ->
  valid_binary (S754_finite sy my ey) = true ->
  SFcompare (S754_finite sx mx ex) (S754_finite sy my ey)
  = Some (cond_Zopp sx (Zpos mx * 2 ^ (ex - Z.min ex ey))
          ?= cond_Zopp sy (Zpos my * 2 ^ (ey - Z.min ex ey))).
Proof.
  intros (Hdx & Hex & Hnx)%valid_finite (Hdy & Hey & Hny)%valid_finite.
  pose proof (digits2_bounds mx) as [Hlx Hhx].
  pose proof (digits2_bounds my) as [Hly Hhy].
  assert (Hx53 : Zpos mx < 2 ^ 53).
  { eapply Z.lt_le_trans; [exact Hhx|]. apply Z.pow_le_mono_r; lia. }
  assert (Hy53 : Zpos my < 2 ^ 53).
  { eapply Z.lt_le_trans; [exact Hhy|]. apply Z.pow_le_mono_r; lia. }
  assert (Hkey : forall (m1 m2 : positive) (e1 e2 : Z),
            Zpos m1 < 2 ^ 53 -> Zpos (digits2_pos m2) = 53 ->
            2 ^ (Zpos (digits2_pos m2) - 1) <= Zpos m2 ->
            e1 < e2 -> Zpos m1 < Zpos m2 * 2 ^ (e2 - e1)).
  { intros m1 m2 e1 e2 H1 H2 H3 H4. rewrite H2 in H3.
    assert (2 ^ 1 <= 2 ^ (e2 - e1)) by (apply Z.pow_le_mono_r; lia).
    change (2 ^ (53 - 1)) with 4503599627370496 in H3.
    change (2 ^ 53) with 9007199254740992 in H1. change (2 ^ 1) with 2 in *. nia. }
  simpl SFcompare.
  destruct (Z.compare_spec ex ey) as [->|Hlt|Hgt].
  - rewrite Z.min_id, Z.sub_diag. simpl (2 ^ 0). rewrite !Z.mul_1_r.
    by destruct sx, sy.
  - rewrite Z.min_l, Z.sub_diag by lia. simpl (2 ^ 0). rewrite Z.mul_1_r.
    specialize (Hkey mx my ex ey Hx53 (Hny ltac:(lia)) Hly Hlt).
    destruct sx, sy; cbv beta iota delta [cond_Zopp]; f_equal; symmetry;
      first [apply Z.compare_lt_iff; lia | apply Z.compare_gt_iff; lia].
  - rewrite Z.min_r, Z.sub_diag by lia. simpl (2 ^ 0). rewrite Z.mul_1_r.
    specialize (Hkey my mx ey ex Hy53 (Hnx ltac:(lia)) Hlx ltac:(lia)).
    destruct sx, sy; cbv beta iota delta [cond_Zopp]; f_equal; symmetry;
      first [apply Z.compare_lt_iff; lia | apply Z.compare_gt_iff; lia].
Qed.


(** The sign of a difference tells the order. *)
Lemma SFsub_sign (x y : spec_float) :
  valid_binary x = true -> valid_binary y = true -> not_nan x -> not_nan y ->
  SFltb (S754_zero false) (SFsub prec emax y x) = SFltb x y.
Proof.
  unfold not_nan.
  destruct x as [sx|sx| |sx mx ex], y as [sy|sy| |sy my ey]; try done; intros Hvx Hvy _ _;
    try (by destruct sx, sy).
  unfold SFsub.
  pose proof (valid_finite _ _ _ Hvx) as (_ & Hex & _).
  pose proof (valid_finite _ _ _ Hvy) as (_ & Hey & _).
  destruct (shl_align_spec my ey (Z.min ey ex) ltac:(lia)) as [_ ->].
  destruct (shl_align_spec mx ex (Z.min ey ex) ltac:(lia)) as [_ ->].
  rewrite normalize_sign by lia. rewrite (Z.min_comm ey ex).
  unfold SFltb. rewrite SFcompare_aligned by done.
  set (X := cond_Zopp sx (Zpos mx * 2 ^ (ex - Z.min ex ey))).
  set (Y := cond_Zopp sy (Zpos my * 2 ^ (ey - Z.min ex ey))).
  destruct (Z.compare_spec X Y); [apply Z.ltb_ge|apply Z.ltb_lt|apply Z.ltb_ge]; lia.
Qed.

Lemma sub_pos (x y : num) :
  Num.isNaN x = false -> Num.isNaN y = false ->
  Num.ltb Num.zero (Num.sub y x) = Num.ltb x y.
Proof.
  intros Hx%isNaN_false Hy%isNaN_false. unfold Num.ltb, Num.sub.
  rewrite !FloatAxioms.ltb_spec, FloatAxioms.sub_spec, Prim2SF_zero.
  apply SFsub_sign; auto using Prim2SF_valid.
Qed.


(** *** Integers *)

Definition small (z : Z) : Prop := Z.abs z < 2 ^ 53.

(** The binary64 form of a positive integer below 2^53: the mantissa is
    the integer shifted to 53 digits. *)
Definition norm_e (n : positive) : Z := Zpos (digits2_pos n) - 53.
Definition norm_m (n : positive) : positive := Z.to_pos (Zpos n * 2 ^ (- norm_e n)).

Definition SFZ (z : Z) : spec_float :=
  match z with
  | Z0 => S754_zero false
  | Zpos n => S754_finite false (norm_m n) (norm_e n)
  | Zneg n => S754_finite true (norm_m n) (norm_e n)
  end.

Lemma norm_e_range (n : positive) : Zpos n < 2 ^ 53 -> -52 <= norm_e n <= 0.
Proof.
  intros Hn. unfold norm_e. pose proof (digits2_bounds n) as [Hlo Hhi].
  assert (Zpos (digits2_pos n) - 1 < 53); [|lia].
  apply (Z.pow_lt_mono_r_iff 2); lia.
Qed.

Lemma norm_m_spec (n : positive) :
  Zpos n < 2 ^ 53 ->
  Zpos (norm_m n) = Zpos n * 2 ^ (- norm_e n) /\ Zpos (digits2_pos (norm_m n)) = 53.
Proof.
  intros Hn. pose proof (norm_e_range n Hn) as He.
  assert (Hm : Zpos (norm_m n) = Zpos n * 2 ^ (- norm_e n)).
  { unfold norm_m. rewrite Z2Pos.id; [done|].
    apply Z.mul_pos_pos; [lia|]. apply Z.pow_pos_nonneg; lia. }
  split; [done|].
  rewrite (digits2_mul_pow2 n (norm_m n) (- norm_e n)) by (done || lia).
  unfold norm_e. lia.
Qed.

(** A mantissa of 53 digits followed by [j] zeros rounds to itself. *)
Lemma binary_round_aux_exact (s : bool) (m1 : positive) (e0 j : Z) :
  Zpos (digits2_pos m1) = 53 -> -1074 <= e0 <= 971 -> 0 <= j ->
  binary_round_aux prec emax s (Zpos m1 * 2 ^ j) (e0 - j) loc_Exact = S754_finite s m1 e0.
Proof.
  intros Hd He Hj.
  assert (Hfirst : shr_fexp prec emax (Zpos m1 * 2 ^ j) (e0 - j) loc_Exact
                   = (Build_shr_record (Zpos m1) false false, e0)).
  { unfold shr_fexp.
    assert (Hpos : 0 < Zpos m1 * 2 ^ j).
    { apply Z.mul_pos_pos; [lia|]. apply Z.pow_pos_nonneg; lia. }
    destruct (Zpos m1 * 2 ^ j) as [|q|q] eqn:Hq; try lia.
    simpl Zdigits2. rewrite (digits2_mul_pow2 m1 q j) by (done || lia).
    rewrite Hd. unfold_format.
    replace (Z.max (53 + j + (e0 - j) - 53) (3 - 1024 - 53) - (e0 - j)) with j by lia.
    unfold shr. destruct j as [|p|p]; try lia.
    - simpl in Hq. simpl shr_record_of_loc. f_equal; [|lia]. f_equal. lia.
    - simpl shr_record_of_loc. rewrite <- Hq, iter_shr_1_exact by lia. f_equal. lia. }
  assert (Hsecond : shr_fexp prec emax (Zpos m1) e0 loc_Exact
                    = (Build_shr_record (Zpos m1) false false, e0)).
  { unfold shr_fexp. simpl Zdigits2. rewrite Hd. unfold_format.
    replace (Z.max (53 + e0 - 53) (3 - 1024 - 53) - e0) with 0 by lia. done. }
  unfold binary_round_aux. rewrite Hfirst. simpl round_nearest_even.
  rewrite Hsecond. simpl shr_m.
  unfold prec, emax. destruct (Z.leb_spec e0 (1024 - 53)); [done|lia].
Qed.

(** An integer below 2^53, written with [k] more zeros, rounds to its
    binary64 form. *)
Lemma binary_round_exact (s : bool) (m n : positive) (k : Z) :
  0 <= k -> Zpos m = Zpos n * 2 ^ k -> Zpos n < 2 ^ 53 ->
  binary_round prec emax s m (- k) = S754_finite s (norm_m n) (norm_e n).
Proof.
  intros Hk Hm Hn.
  pose proof (norm_e_range n Hn) as He.
  destruct (norm_m_spec n Hn) as [Hnm Hnd].
  unfold binary_round.
  rewrite (digits2_mul_pow2 n m k) by done. unfold_format.
  replace (Z.max (Zpos (digits2_pos n) + k + - k - 53) (3 - 1024 - 53)) with (norm_e n)
    by (unfold norm_e in *; lia).
  destruct (Z.lt_ge_cases (norm_e n) (- k)) as [Hlt|Hge].
  - destruct (shl_align_spec m (- k) (norm_e n) ltac:(lia)) as [Hs Hf].
    destruct (shl_align m (- k) (norm_e n)) as [mz ez]. simpl in Hs, Hf. subst ez.
    assert (Hmz : mz = norm_m n).
    { apply Pos2Z.inj. rewrite Hf, Hnm, Hm, <- Z.mul_assoc, <- Z.pow_add_r by lia.
      f_equal. f_equal. lia. }
    rewrite Hmz.
    pose proof (binary_round_aux_exact s (norm_m n) (norm_e n) 0 Hnd ltac:(lia) ltac:(lia)) as Hr.
    simpl (2 ^ 0) in Hr. rewrite Z.mul_1_r, Z.sub_0_r in Hr. exact Hr.
  - rewrite shl_align_id by lia.
    pose proof (binary_round_aux_exact s (norm_m n) (norm_e n) (norm_e n + k)
                  Hnd ltac:(lia) ltac:(lia)) as Hr.
    replace (norm_e n - (norm_e n + k)) with (- k) in Hr by lia.
    rewrite <- Hr. f_equal.
    rewrite Hm, Hnm, <- Z.mul_assoc, <- Z.pow_add_r by lia. f_equal. f_equal. lia.
Qed.

Lemma normalize_exact (z k : Z) :
  0 <= k -> small z -> binary_normalize prec emax (z * 2 ^ k) (- k) false = SFZ z.
Proof.
  unfold small. intros Hk Hz.
  assert (Hp : 0 < 2 ^ k) by (apply Z.pow_pos_nonneg; lia).
  destruct z as [|n|n]; [done| |].
  - assert (Hq : 0 < Zpos n * 2 ^ k) by (apply Z.mul_pos_pos; lia).
    destruct (Zpos n * 2 ^ k) as [|q|q] eqn:Hq'; try lia.
    simpl. apply (binary_round_exact false q n k); auto; lia.
  - assert (Hq : 0 < Zpos n * 2 ^ k) by (apply Z.mul_pos_pos; lia).
    replace (Zneg n * 2 ^ k) with (- (Zpos n * 2 ^ k)) by lia.
    destruct (Zpos n * 2 ^ k) as [|q|q] eqn:Hq'; try lia.
    simpl. apply (binary_round_exact true q n k); auto; lia.
Qed.


Lemma SFopp_SFZ (z : Z) : SFopp (SFZ z) = match z with Z0 => S754_zero true | _ => SFZ (- z) end.
Proof. by destruct z. Qed.

Lemma Prim2SF_of_Z (z : Z) : small z -> Prim2SF (Num.of_Z z) = SFZ z.
Proof.
  unfold small. intros Hz.
  assert (Hpos : forall p, Zpos p < 2 ^ 53 ->
            Prim2SF (PrimFloat.of_uint63 (Uint63.of_Z (Zpos p))) = SFZ (Zpos p)).
  { intros p Hp. rewrite FloatAxioms.of_uint63_spec, Uint63.of_Z_spec.
    rewrite Z.mod_small by (change wB with (2 ^ 63); split; [lia|];
      eapply Z.lt_trans; [exact Hp|]; reflexivity).
    pose proof (normalize_exact (Zpos p) 0 ltac:(lia) ltac:(unfold small; lia)) as Hn.
    simpl (2 ^ 0) in Hn. rewrite Z.mul_1_r in Hn. exact Hn. }
  destruct z as [|p|p]; cbv beta iota delta [Num.of_Z].
  - apply Prim2SF_zero.
  - apply Hpos. lia.
  - rewrite FloatAxioms.opp_spec, Hpos by lia. done.
Qed.

Lemma SFZ_valid_value (z : Z) (s : bool) (m : positive) (e : Z) :
  small z -> SFZ z = S754_finite s m e ->
  e <= 0 /\ cond_Zopp s (Zpos m) = z * 2 ^ (- e).
Proof.
  unfold small. intros Hz.
  destruct z as [|n|n]; simpl; [done| |]; intros [= <- <- <-];
    pose proof (norm_e_range n ltac:(lia)) as He;
    destruct (norm_m_spec n ltac:(lia)) as [-> _]; simpl; split; lia.
Qed.

(** Binary64 adds integers exactly as long as they stay below 2^53. *)
Lemma SFadd_SFZ (a b : Z) :
  small a -> small b -> small (a + b) ->
  SFadd prec emax (SFZ a) (SFZ b) = SFZ (a + b).
Proof.
  intros Ha Hb Hab.
  destruct (Z.eq_dec a 0) as [->|Hna]; [by destruct b|].
  destruct (Z.eq_dec b 0) as [->|Hnb]; [rewrite Z.add_0_r; by destruct a|].
  destruct (SFZ a) as [sa|sa| |sa ma ea] eqn:Hza; try (by destruct a).
  destruct (SFZ b) as [sb|sb| |sb mb eb] eqn:Hzb; try (by destruct b).
  destruct (SFZ_valid_value a sa ma ea Ha Hza) as [Hea Hva].
  destruct (SFZ_valid_value b sb mb eb Hb Hzb) as [Heb Hvb].
  unfold SFadd.
  set (ez := Z.min ea eb).
  destruct (shl_align_spec ma ea ez ltac:(lia)) as [_ Hma].
  destruct (shl_align_spec mb eb ez ltac:(lia)) as [_ Hmb].
  assert (Hsum : cond_Zopp sa (Zpos (fst (shl_align ma ea ez)))
                 + cond_Zopp sb (Zpos (fst (shl_align mb eb ez)))
                 = (a + b) * 2 ^ (- ez)).
  { rewrite Hma, Hmb.
    replace (cond_Zopp sa (Zpos ma * 2 ^ (ea - ez)))
      with (cond_Zopp sa (Zpos ma) * 2 ^ (ea - ez)) by (destruct sa; simpl; lia).
    replace (cond_Zopp sb (Zpos mb * 2 ^ (eb - ez)))
      with (cond_Zopp sb (Zpos mb) * 2 ^ (eb - ez)) by (destruct sb; simpl; lia).
    rewrite Hva, Hvb, <- !Z.mul_assoc, <- !Z.pow_add_r by lia.
    replace (- ea + (ea - ez)) with (- ez) by lia.
    replace (- eb + (eb - ez)) with (- ez) by lia. lia. }
  rewrite Hsum.
  replace ez with (- (- ez)) at 2 by lia.
  apply normalize_exact; [lia|done].
Qed.

Lemma add_of_Z (a b : Z) :
  small a -> small b -> small (a + b) ->
  Num.add (Num.of_Z a) (Num.of_Z b) = Num.of_Z (a + b).
Proof.
  intros Ha Hb Hab. apply Prim2SF_inj. unfold Num.add.
  rewrite FloatAxioms.add_spec, !Prim2SF_of_Z by done.
  by apply SFadd_SFZ.
Qed.

Lemma truthy_of_Z (z : Z) : small z -> Num.truthy (Num.of_Z z) = negb (z =? 0).
Proof.
  intros Hz. unfold Num.truthy, Num.isNaN, Num.eqb.
  rewrite !FloatAxioms.eqb_spec, Prim2SF_of_Z, Prim2SF_zero by done.
  destruct z as [|n|n]; simpl; try done.
  - unfold SFeqb. rewrite (SFcompare_rank _ _) by done. by rewrite lex_compare_refl.
  - unfold SFeqb. rewrite (SFcompare_rank _ _) by done. by rewrite lex_compare_refl.
Qed.

(** *** A quotient *)



End NumFacts.

(** ** The sales fallback *)

Section SalesFallback.
Context `{Host}.

(** The first of the cells that holds a value other than [null]; a column
    the file does not have is an absent cell. *)
Fixpoint first_given (cells : list (option value)) : option value :=
  match cells with
  | [] => None
  | None :: cells' | Some VUndefined :: cells' | Some VNull :: cells' => first_given cells'
  | Some v :: _ => Some v
  end.

(** The cell that stands for the sales of a record: the first given one
    among the aliases, in the order [sales], [revenue], [ciro], [Sales],
    [Revenue]. *)
Definition sales_cell (r : record) : option value :=
  first_given [r !! "sales"; r !! "revenue"; r !! "ciro"; r !! "Sales"; r !! "Revenue"].

(** The number that a given cell states, if it states one: a number other
    than NaN is itself, a string other than the empty one is what the host
    reads it as unless that is NaN, a boolean is 1 or 0, and a valid [Date]
    is its time value in milliseconds. *)
Definition explicit_sales (v : value) : option num :=
  match v with
  | VUndefined | VNull => None
  | VBool true => Some Num.one
  | VBool false => Some Num.zero
  | VNum x => if Num.isNaN x then None else Some x
  | VStr "" => None
  | VStr s => if Num.isNaN (StringToNumber s) then None else Some (StringToNumber s)
  | VDate _ (Some t) => Some (Num.of_Z t)
  | VDate _ None => None
  end.

(** A numeric cell in the plain sense of the word: a number other than NaN,
    or a string that reads as one. *)
Definition is_numeric (v : value) : bool :=
  match v with
  | VNum x => negb (Num.isNaN x)
  | VStr s => negb (Num.isNaN (StringToNumber s))
  | _ => false
  end.

(** The alias chain of the source reads the sales cell. *)
Lemma rawSales_cell (r : record) :
  match sales_cell r with
  | Some v => rawSales r = v /\ is_nullish v = false
  | None => is_nullish (rawSales r) = true
  end.
Proof.
  unfold rawSales, sales_cell, prop.
  destruct (r !! "sales") as [[]|]; simpl; try done;
    destruct (r !! "revenue") as [[]|]; simpl; try done;
    destruct (r !! "ciro") as [[]|]; simpl; try done;
    destruct (r !! "Sales") as [[]|]; simpl; try done;
    destruct (r !! "Revenue") as [[]|]; simpl; done.
Qed.

(** The time value of a [Date] is never NaN as a number. *)
Lemma of_Z_not_NaN (z : Z) : Num.isNaN (Num.of_Z z) = false.
Proof.
  apply NumFacts.isNaN_false. unfold NumFacts.not_nan, Num.of_Z.
  assert (Hn : forall n, Prim2SF (PrimFloat.of_uint63 n) <> S754_nan).
  { intros n. rewrite FloatAxioms.of_uint63_spec. unfold binary_normalize.
    destruct (Uint63.to_Z n) as [|p|p] eqn:Hp; [done| |].
    - pose proof (NumFacts.binary_round_sign false p 0 ltac:(lia)) as Hs.
      by destruct (binary_round prec emax false p 0).
    - pose proof (NumFacts.binary_round_sign true p 0 ltac:(lia)) as Hs.
      by destruct (binary_round prec emax true p 0). }
  destruct z as [|p|p]; [done|apply Hn|].
  rewrite FloatAxioms.opp_spec. specialize (Hn (Uint63.of_Z (Zpos p))).
  by destruct (Prim2SF (PrimFloat.of_uint63 (Uint63.of_Z (Z.pos p)))).
Qed.

(** What the test of the source decides on a given cell. *)
Lemma explicit_sales_test (v : value) :
  is_nullish v = false ->
  match explicit_sales v with
  | Some x => is_empty_string v || Num.isNaN (Number v) = false /\ Number v = x
  | None => is_empty_string v || Num.isNaN (Number v) = true
  end.
Proof.
  destruct v as [| |[]|x|s|oid [t|]]; try done; simpl.
  - by destruct (Num.isNaN x).
  - destruct s as [|c s]; [done|]. simpl.
    by destruct (Num.isNaN (StringToNumber (String c s))).
  - by rewrite of_Z_not_NaN.
Qed.

Lemma numericSales_cell (r : record) :
  numericSales r =
  let computed := Num.mul (Number (unitsVal r)) (Number (unitPriceVal r)) in
  match sales_cell r with
  | Some v => default computed (explicit_sales v)
  | None => computed
  end.
Proof.
  unfold numericSales. pose proof (rawSales_cell r) as Hc. simpl.
  destruct (sales_cell r) as [v|].
  - destruct Hc as [-> Hv]. rewrite Hv. simpl.
    pose proof (explicit_sales_test v Hv) as Ht.
    destruct (explicit_sales v) as [x|]; simpl.
    + destruct Ht as [-> ->]. done.
    + by rewrite Ht.
  - by rewrite Hc.
Qed.

End SalesFallback.

(** ** The monthly rollup *)

Section Monthly.
Context `{Host}.

(** The bucket of a month that no row has reached yet, and a bucket with
    one more row. *)
Definition fresh_month (k : string) : MonthlyRow :=
  {| key := k; m_sales := Num.zero; transactions := 0; pct_change := None |}.

Definition bump (cur : MonthlyRow) (r : Row) : MonthlyRow :=
  {| key := cur.(key); m_sales := Num.add cur.(m_sales) (sales r);
     transactions := cur.(transactions) + 1; pct_change := cur.(pct_change) |}.

Lemma addMonth_cases (m : list (string * MonthlyRow)) (r : Row) :
  let k := monthKey (date r) in
  (exists i cur, m !! i = Some (k, cur) /\ addMonth m r = <[i := (k, bump cur r)]> m) \/
  (Forall (fun e => fst e <> k) m /\ addMonth m r = m ++ [(k, bump (fresh_month k) r)]).
Proof.
  intros k. unfold addMonth. fold k.
  destruct (map_get String.eqb k m) as [cur|] eqn:Hg.
  - left. destruct (map_set_present String.eqb k cur (bump cur r) m Hg)
      as (i & k' & Hi & Hk & Hset).
    apply String.eqb_eq in Hk as ->. by exists i, cur.
  - right. split.
    + eapply Forall_impl; [by apply map_get_absent|].
      intros e He. by apply String.eqb_neq.
    + by apply map_set_absent.
Qed.

(** Every bucket of the map is filed under its own key, has seen a row,
    and has no percentage yet; no key occurs twice. *)
Definition month_entry_ok (e : string * MonthlyRow) : Prop :=
  key (snd e) = fst e /\ pct_change (snd e) = None /\ 1 <= transactions (snd e).

Definition months_ok (m : list (string * MonthlyRow)) : Prop :=
  NoDup (map fst m) /\ Forall month_entry_ok m.

Lemma addMonth_ok (m : list (string * MonthlyRow)) (r : Row) :
  months_ok m -> months_ok (addMonth m r).
Proof.
  intros [Hnd Hok].
  destruct (addMonth_cases m r) as [(i & cur & Hi & ->)|[Habs ->]].
  - split.
    + rewrite list_fmap_insert. simpl.
      rewrite list_insert_id; [done|]. by rewrite list_lookup_fmap, Hi.
    + apply Forall_insert; [done|].
      rewrite Forall_lookup in Hok. destruct (Hok i _ Hi) as (Hk & Hp & Ht).
      repeat split; simpl in *; auto. lia.
  - split.
    + rewrite map_app. simpl. apply NoDup_app. split; [done|]. split.
      * intros k Hin Hk. apply list_elem_of_singleton in Hk as ->.
        apply list_elem_of_fmap in Hin as (e & He & Hin).
        rewrite Forall_forall in Habs. by apply (Habs e).
      * apply NoDup_singleton.
    + apply Forall_app. split; [done|]. constructor; [|constructor].
      repeat split; simpl; auto. lia.
Qed.

Lemma fold_addMonth_ok (rs : list Row) (m : list (string * MonthlyRow)) :
  months_ok m -> months_ok (fold_left addMonth rs m).
Proof.
  revert m. induction rs as [|r rs IH]; simpl; intros m Hm; [done|].
  apply IH. by apply addMonth_ok.
Qed.

Lemma monthlyMap_ok (rs : list Row) : months_ok (monthlyMap rs).
Proof. apply fold_addMonth_ok. split; constructor. Qed.

(** Every key is the month of a row. *)
Lemma fold_addMonth_keys (rs : list Row) (m : list (string * MonthlyRow)) (P : string -> Prop) :
  Forall (fun e => P (fst e)) m ->
  Forall (fun r => P (monthKey (date r))) rs ->
  Forall (fun e => P (fst e)) (fold_left addMonth rs m).
Proof.
  revert m. induction rs as [|r rs IH]; simpl; intros m Hm Hrs; [done|].
  apply Forall_cons in Hrs as [Hr Hrs]. apply IH; [|done].
  destruct (addMonth_cases m r) as [(i & cur & Hi & ->)|[Habs ->]].
  - by apply Forall_insert.
  - apply Forall_app. split; [done|]. by repeat constructor.
Qed.

(** Every month of a row has a bucket. *)
Lemma addMonth_keys_mono (m : list (string * MonthlyRow)) (r : Row) (k : string) :
  k ∈ map fst m -> k ∈ map fst (addMonth m r).
Proof.
  intros Hk.
  destruct (addMonth_cases m r) as [(i & cur & Hi & ->)|[Habs ->]].
  - rewrite list_fmap_insert. simpl.
    rewrite list_insert_id; [done|]. by rewrite list_lookup_fmap, Hi.
  - rewrite map_app. apply elem_of_app. by left.
Qed.

Lemma addMonth_key_in (m : list (string * MonthlyRow)) (r : Row) :
  monthKey (date r) ∈ map fst (addMonth m r).
Proof.
  destruct (addMonth_cases m r) as [(i & cur & Hi & ->)|[Habs ->]].
  - rewrite list_fmap_insert. simpl.
    rewrite list_insert_id by (by rewrite list_lookup_fmap, Hi).
    apply list_elem_of_fmap. exists (monthKey (date r), cur). split; [done|].
    by eapply list_elem_of_lookup_2.
  - rewrite map_app. apply elem_of_app. right. simpl. apply list_elem_of_singleton. done.
Qed.

Lemma fold_addMonth_covers (rs : list Row) (m : list (string * MonthlyRow)) (r : Row) :
  r ∈ rs -> monthKey (date r) ∈ map fst (fold_left addMonth rs m).
Proof.
  revert m. induction rs as [|r0 rs IH]; simpl; intros m Hr.
  { by apply elem_of_nil in Hr. }
  apply elem_of_cons in Hr as [->|Hr]; [|by apply IH].
  assert (Hmono : forall rs' m' k, k ∈ map fst m' -> k ∈ map fst (fold_left addMonth rs' m')).
  { clear. induction rs' as [|r' rs' IH]; simpl; intros m' k Hk; [done|].
    apply IH. by apply addMonth_keys_mono. }
  apply Hmono. apply addMonth_key_in.
Qed.

Lemma monthlyMap_keys_of_rows (rs : list Row) :
  Forall (fun e => exists r, r ∈ rs /\ fst e = monthKey (date r)) (monthlyMap rs).
Proof.
  unfold monthlyMap.
  apply (fold_addMonth_keys rs [] (fun k => exists r, r ∈ rs /\ k = monthKey (date r)));
    [constructor|].
  apply Forall_forall. intros r Hr. by exists r.
Qed.

Lemma monthlyMap_covers (rs : list Row) (r : Row) :
  r ∈ rs -> monthKey (date r) ∈ map fst (monthlyMap rs).
Proof. apply fold_addMonth_covers. Qed.

(** The counts add up to the number of rows. *)
Definition count_sum (m : list (string * MonthlyRow)) : Z :=
  foldr (fun e acc => transactions (snd e) + acc) 0 m.

Lemma count_sum_app (m1 m2 : list (string * MonthlyRow)) :
  count_sum (m1 ++ m2) = count_sum m1 + count_sum m2.
Proof. induction m1 as [|e m1 IH]; simpl; [done|]. unfold count_sum in *. simpl. lia. Qed.

Lemma count_sum_insert (m : list (string * MonthlyRow)) (i : nat) (e e' : string * MonthlyRow) :
  m !! i = Some e ->
  count_sum (<[i := e']> m) = count_sum m - transactions (snd e) + transactions (snd e').
Proof.
  revert i. induction m as [|e0 m IH]; intros [|i]; simpl; try done.
  - intros [= ->]. unfold count_sum. simpl. lia.
  - intros Hi. unfold count_sum in *. simpl. rewrite (IH i Hi). lia.
Qed.

Lemma addMonth_count (m : list (string * MonthlyRow)) (r : Row) :
  count_sum (addMonth m r) = count_sum m + 1.
Proof.
  destruct (addMonth_cases m r) as [(i & cur & Hi & ->)|[Habs ->]].
  - rewrite (count_sum_insert m i _ _ Hi). simpl. lia.
  - rewrite count_sum_app. unfold count_sum. simpl. lia.
Qed.

Lemma fold_addMonth_count (rs : list Row) (m : list (string * MonthlyRow)) :
  count_sum (fold_left addMonth rs m) = count_sum m + Z.of_nat (length rs).
Proof.
  revert m. induction rs as [|r rs IH]; simpl length; intros m; simpl fold_left.
  - lia.
  - rewrite IH, addMonth_count. lia.
Qed.

End Monthly.

Lemma StronglySorted_weaken {A} (R R' : A -> A -> Prop) (l : list A) :
  (forall a b, R a b -> R' a b) -> StronglySorted R l -> StronglySorted R' l.
Proof.
  intros HR Hs. induction Hs as [|x l Hs IH Hx]; constructor; [done|].
  eapply Forall_impl; [exact Hx|]. auto.
Qed.

(** ** The sorted buckets and the percentage loop *)

Section MonthlyOutput.
Context `{Host}.

Lemma key_after_false (a b : MonthlyRow) :
  key_after a b = false <-> String.le a.(key) b.(key).
Proof.
  unfold key_after, localeCompare, String.le, String.leb.
  destruct (a.(key) ?= b.(key))%string; simpl; split; done.
Qed.

Lemma monthlySorted_perm (rs : list Row) :
  monthlySorted rs ≡ₚ map snd (monthlyMap rs).
Proof. apply sort_perm. Qed.

Lemma monthlyMap_keys (rs : list Row) :
  map key (map snd (monthlyMap rs)) = map fst (monthlyMap rs).
Proof.
  destruct (monthlyMap_ok rs) as [_ Hok].
  induction Hok as [|e m (Hk & _) _ IH]; simpl; [done|]. by rewrite Hk, IH.
Qed.

Lemma monthlySorted_keys_perm (rs : list Row) :
  map key (monthlySorted rs) ≡ₚ map fst (monthlyMap rs).
Proof. by rewrite <- monthlyMap_keys, (monthlySorted_perm rs). Qed.

Lemma monthlySorted_NoDup (rs : list Row) : NoDup (map key (monthlySorted rs)).
Proof.
  rewrite (monthlySorted_keys_perm rs). apply (monthlyMap_ok rs).
Qed.

Lemma monthlySorted_sorted (rs : list Row) :
  StronglySorted (fun a b => String.le a.(key) b.(key)) (monthlySorted rs).
Proof.
  pose proof (sort_sorted key_after (fun _ => True)) as Hs.
  eapply StronglySorted_weaken; [|apply Hs].
  - intros a b Hab. by apply key_after_false.
  - intros x y _ _. unfold key_after, localeCompare.
    rewrite (String.compare_antisym (key y) (key x)).
    by destruct (key x ?= key y)%string.
  - intros x y z _ _ _. unfold in_order. rewrite !key_after_false.
    intros. by etrans.
  - by apply Forall_forall.
Qed.

(** Strictly increasing keys: each key is below every later one. *)
Definition key_lt (s t : string) : Prop := String.ltb s t = true.

Lemma le_neq_key_lt (s t : string) : String.le s t -> s <> t -> key_lt s t.
Proof.
  unfold String.le, String.leb, key_lt, String.ltb.
  destruct (s ?= t)%string eqn:Hc; try done.
  intros _ Hne. by apply String.compare_eq_iff in Hc.
Qed.

Lemma StronglySorted_NoDup_strict {A} (R R' : A -> A -> Prop) (l : list A) :
  (forall a b, R a b -> a <> b -> R' a b) ->
  StronglySorted R l -> NoDup l -> StronglySorted R' l.
Proof.
  intros HR Hs. induction Hs as [|x l Hs IH Hx]; intros Hnd; [constructor|].
  apply NoDup_cons in Hnd as [Hnin Hnd]. constructor; [by apply IH|].
  rewrite Forall_forall in Hx. apply Forall_forall. intros y Hy.
  apply HR; [by apply Hx|]. by intros ->.
Qed.

Lemma monthlySorted_strict (rs : list Row) :
  StronglySorted key_lt (map key (monthlySorted rs)).
Proof.
  apply (StronglySorted_NoDup_strict String.le); [apply le_neq_key_lt| |apply monthlySorted_NoDup].
  eapply (StronglySorted_fmap key); [|apply monthlySorted_sorted]. done.
Qed.

(** The loop writes [pct_change] and nothing else. *)
Lemma pctLoop_fields (prev : num) (l : list MonthlyRow) :
  map key (pctLoop prev l) = map key l /\
  map m_sales (pctLoop prev l) = map m_sales l /\
  map transactions (pctLoop prev l) = map transactions l.
Proof.
  revert prev. induction l as [|m l IH]; intros prev; simpl; [done|].
  destruct (IH (m_sales m)) as (-> & -> & ->). done.
Qed.

Lemma withPctChange_fields (l : list MonthlyRow) :
  map key (withPctChange l) = map key l /\
  map m_sales (withPctChange l) = map m_sales l /\
  map transactions (withPctChange l) = map transactions l.
Proof.
  destruct l as [|m l]; simpl; [done|].
  destruct (pctLoop_fields (m_sales m) l) as (-> & -> & ->). done.
Qed.

Lemma pctLoop_head (prev : num) (l : list MonthlyRow) (b : MonthlyRow) :
  pctLoop prev l !! 0%nat = Some b ->
  pct_change b = Some (pctChange prev (m_sales b)).
Proof. destruct l as [|m l]; simpl; [done|]. by intros [= <-]. Qed.

Lemma pctLoop_next (prev : num) (l : list MonthlyRow) (i : nat) (a b : MonthlyRow) :
  pctLoop prev l !! i = Some a -> pctLoop prev l !! S i = Some b ->
  pct_change b = Some (pctChange (m_sales a) (m_sales b)).
Proof.
  revert prev i. induction l as [|m l IH]; intros prev i; simpl; [done|].
  destruct i as [|i]; simpl.
  - intros [= <-]. simpl. apply pctLoop_head.
  - apply IH.
Qed.

Lemma withPctChange_next (l : list MonthlyRow) (i : nat) (a b : MonthlyRow) :
  withPctChange l !! i = Some a -> withPctChange l !! S i = Some b ->
  pct_change b = Some (pctChange (m_sales a) (m_sales b)).
Proof.
  destruct l as [|m l]; simpl; [done|].
  destruct i as [|i]; simpl.
  - intros [= <-]. apply pctLoop_head.
  - apply pctLoop_next.
Qed.

Lemma pctChange_spec (prev cur : num) :
  pctChange prev cur =
  if Num.eqb prev Num.zero || Num.isNaN prev then Num.zero
  else Num.mul (Num.div (Num.sub cur prev) prev) Num.hundred.
Proof.
  unfold pctChange, Num.or_else.
  destruct (Num.truthy prev) eqn:Ht.
  - rewrite Ht. unfold Num.truthy in Ht.
    by destruct (Num.eqb prev Num.zero), (Num.isNaN prev).
  - replace (Num.truthy Num.zero) with false by (by vm_compute).
    unfold Num.truthy in Ht.
    by destruct (Num.eqb prev Num.zero), (Num.isNaN prev).
Qed.

Lemma monthly_first_no_pct (data : list record) (m : MonthlyRow) :
  monthly (aggregate data) !! 0%nat = Some m -> pct_change m = None.
Proof.
  unfold aggregate. simpl. set (rs := sortRows (rowsUnsorted data)).
  destruct (monthlySorted rs) as [|m0 l] eqn:Hl; simpl; [done|].
  intros [= <-].
  destruct (monthlyMap_ok rs) as [_ Hok].
  assert (Hin : m0 ∈ map snd (monthlyMap rs)).
  { rewrite <- (monthlySorted_perm rs), Hl. by left. }
  apply list_elem_of_fmap in Hin as (e & -> & He).
  rewrite Forall_forall in Hok. by destruct (Hok e He) as (_ & ? & _).
Qed.

End MonthlyOutput.

(** ** Sums of integers, which binary64 adds exactly below 2^53 *)

Section ExactSums.

Definition Zsum (zs : list Z) : Z := foldr Z.add 0 zs.
Definition Zabs_sum (zs : list Z) : Z := foldr (fun z acc => Z.abs z + acc) 0 zs.

Lemma Zabs_sum_nonneg (zs : list Z) : 0 <= Zabs_sum zs.
Proof. induction zs as [|z zs IH]; simpl; lia. Qed.

Lemma Zsum_abs (zs : list Z) : Z.abs (Zsum zs) <= Zabs_sum zs.
Proof. induction zs as [|z zs IH]; simpl; lia. Qed.

Lemma Zsum_app (l1 l2 : list Z) : Zsum (l1 ++ l2) = Zsum l1 + Zsum l2.
Proof. induction l1 as [|z l1 IH]; simpl; lia. Qed.

Lemma Zabs_sum_app (l1 l2 : list Z) : Zabs_sum (l1 ++ l2) = Zabs_sum l1 + Zabs_sum l2.
Proof. induction l1 as [|z l1 IH]; simpl; lia. Qed.

Lemma Zsum_perm (l1 l2 : list Z) : l1 ≡ₚ l2 -> Zsum l1 = Zsum l2.
Proof. induction 1; simpl; lia. Qed.

Lemma Zabs_sum_perm (l1 l2 : list Z) : l1 ≡ₚ l2 -> Zabs_sum l1 = Zabs_sum l2.
Proof. induction 1; simpl; lia. Qed.

Lemma Zsum_insert (l : list Z) (i : nat) (t t' : Z) :
  l !! i = Some t -> Zsum (<[i := t']> l) = Zsum l - t + t'.
Proof.
  revert i. induction l as [|z l IH]; intros [|i]; simpl; try done.
  - intros [= ->]. lia.
  - intros Hi. rewrite (IH i Hi). lia.
Qed.

Lemma Zabs_sum_insert (l : list Z) (i : nat) (t t' : Z) :
  l !! i = Some t -> Zabs_sum (<[i := t']> l) = Zabs_sum l - Z.abs t + Z.abs t'.
Proof.
  revert i. induction l as [|z l IH]; intros [|i]; simpl; try done.
  - intros [= ->]. lia.
  - intros Hi. rewrite (IH i Hi). lia.
Qed.

Lemma Zabs_sum_lookup (l : list Z) (i : nat) (t : Z) :
  l !! i = Some t -> Z.abs t <= Zabs_sum l.
Proof.
  revert i. induction l as [|z l IH]; intros [|i]; simpl; try done.
  - intros [= ->]. pose proof (Zabs_sum_nonneg l). lia.
  - intros Hi. specialize (IH i Hi). lia.
Qed.

(** The left-to-right sum of integers that stay below 2^53 is exact. *)
Lemma fold_add_of_Z (zs : list Z) (acc : Z) :
  Z.abs acc + Zabs_sum zs < 2 ^ 53 ->
  fold_left Num.add (map Num.of_Z zs) (Num.of_Z acc) = Num.of_Z (acc + Zsum zs).
Proof.
  revert acc. induction zs as [|z zs IH]; simpl; intros acc Hb.
  - f_equal. lia.
  - pose proof (Zabs_sum_nonneg zs).
    rewrite NumFacts.add_of_Z by (unfold NumFacts.small; lia).
    rewrite IH by lia. f_equal. lia.
Qed.

Lemma sum_of_Z (zs : list Z) :
  Zabs_sum zs < 2 ^ 53 -> Num.sum (map Num.of_Z zs) = Num.of_Z (Zsum zs).
Proof.
  intros Hb. unfold Num.sum. change Num.zero with (Num.of_Z 0).
  rewrite fold_add_of_Z; [done|]. simpl. lia.
Qed.

(** One turn of a rollup, seen on the list of running totals: the total of
    one group grows by [s] (after [c], the reading of the old total), or a
    new group starts from [0]. *)
Definition rollup_step (c : num -> num) (s : num) (l l' : list num) : Prop :=
  (exists i t, l !! i = Some t /\ l' = <[i := Num.add (c t) s]> l) \/
  l' = l ++ [Num.add Num.zero s].

Lemma rollup_step_exact (c : num -> num) (z : Z) (lz : list Z) (l' : list num) :
  (forall t, NumFacts.small t -> c (Num.of_Z t) = Num.of_Z t) ->
  Zabs_sum lz + Z.abs z < 2 ^ 53 ->
  rollup_step c (Num.of_Z z) (map Num.of_Z lz) l' ->
  exists lz', l' = map Num.of_Z lz' /\ Zsum lz' = Zsum lz + z /\
              Zabs_sum lz' <= Zabs_sum lz + Z.abs z.
Proof.
  intros Hc Hb [(i & t & Hi & ->)| ->]; pose proof (Zabs_sum_nonneg lz).
  - rewrite list_lookup_fmap in Hi.
    destruct (lz !! i) as [tz|] eqn:Hz; [|done]. injection Hi as <-.
    pose proof (Zabs_sum_lookup lz i tz Hz).
    exists (<[i := tz + z]> lz). split; [|split].
    + rewrite list_fmap_insert. f_equal.
      rewrite Hc by (unfold NumFacts.small; lia).
      apply NumFacts.add_of_Z; unfold NumFacts.small; lia.
    + rewrite (Zsum_insert lz i tz) by done. lia.
    + rewrite (Zabs_sum_insert lz i tz) by done. lia.
  - exists (lz ++ [z]). split; [|split].
    + rewrite map_app. simpl. do 2 f_equal. change Num.zero with (Num.of_Z 0).
      apply (NumFacts.add_of_Z 0 z); unfold NumFacts.small; simpl; lia.
    + rewrite Zsum_app. simpl. lia.
    + rewrite Zabs_sum_app. simpl. lia.
Qed.

(** A rollup over rows whose sales are integers, of absolute sum below
    2^53, holds the exact integer totals. *)
Lemma rollup_exact {M} (c : num -> num) (f : M -> Row -> M) (view : M -> list num)
    (rs : list Row) (zs : list Z) (m : M) (lz : list Z) :
  (forall t, NumFacts.small t -> c (Num.of_Z t) = Num.of_Z t) ->
  (forall m r, rollup_step c (sales r) (view m) (view (f m r))) ->
  map sales rs = map Num.of_Z zs ->
  view m = map Num.of_Z lz ->
  Zabs_sum lz + Zabs_sum zs < 2 ^ 53 ->
  exists lz', view (fold_left f rs m) = map Num.of_Z lz' /\
              Zsum lz' = Zsum lz + Zsum zs /\
              Zabs_sum lz' <= Zabs_sum lz + Zabs_sum zs.
Proof.
  intros Hc Hstep. revert zs m lz.
  induction rs as [|r rs IH]; intros [|z zs] m lz; simpl; try done.
  - intros _ Hv Hb. exists lz. split; [done|]. lia.
  - intros [= Hr Hrs] Hv Hb.
    pose proof (Zabs_sum_nonneg zs).
    pose proof (Hstep m r) as Hs. rewrite Hr, Hv in Hs.
    apply rollup_step_exact in Hs as (lz1 & Hv1 & Hsum1 & Habs1); [|done|lia].
    destruct (IH zs (f m r) lz1 Hrs Hv1) as (lz' & Hv' & Hsum' & Habs'); [lia|].
    exists lz'. split; [done|]. lia.
Qed.

End ExactSums.

(** ** The product totals *)

Section Products.
Context `{Host}.

Lemma SameValueZero_map_key (k' k : value) :
  SameValueZero k' (map_key k) = SameValueZero k' k.
Proof.
  destruct k as [| | |x| |]; simpl; try done.
  destruct (Num.eqb x Num.zero) eqn:Hx; [|done].
  destruct k' as [| | |y| |]; simpl; try done.
  destruct (NumFacts.eqb_zero_same x y Hx) as [-> ->].
  by replace (Num.isNaN Num.zero) with false by (by vm_compute).
Qed.

Lemma addProduct_cases (m : list (value * num)) (r : Row) :
  (exists i k t, m !! i = Some (k, t) /\
     addProduct m r = <[i := (k, Num.add (Num.or_else t Num.zero) (sales r))]> m) \/
  addProduct m r = m ++ [(map_key (product r), Num.add Num.zero (sales r))].
Proof.
  unfold addProduct.
  rewrite <- (map_get_ext SameValueZero (map_key (product r)) (product r))
    by (intros; apply SameValueZero_map_key).
  destruct (map_get SameValueZero (map_key (product r)) m) as [t|] eqn:Hg.
  - left. destruct (map_set_present SameValueZero _ t
      (Num.add (Num.or_else t Num.zero) (sales r)) m Hg) as (i & k' & Hi & _ & Hset).
    by exists i, k', t.
  - right. by apply map_set_absent.
Qed.

Lemma addProduct_step (m : list (value * num)) (r : Row) :
  rollup_step (fun t => Num.or_else t Num.zero) (sales r)
    (map snd m) (map snd (addProduct m r)).
Proof.
  destruct (addProduct_cases m r) as [(i & k & t & Hi & ->)| ->].
  - left. exists i, t. split.
    + by rewrite list_lookup_fmap, Hi.
    + by rewrite list_fmap_insert.
  - right. by rewrite map_app.
Qed.

Lemma or_else_of_Z (t : Z) :
  NumFacts.small t -> Num.or_else (Num.of_Z t) Num.zero = Num.of_Z t.
Proof.
  intros Ht. unfold Num.or_else. rewrite NumFacts.truthy_of_Z by done.
  destruct (Z.eqb_spec t 0) as [->|]; done.
Qed.

Lemma withPercent_totals (ts : list (value * num)) :
  map total_sales (withPercent ts) = map snd ts.
Proof. unfold withPercent. rewrite map_map. done. Qed.

Lemma productTotalsArr_totals (data : list record) :
  map total_sales (productTotalsArr (aggregate data))
  ≡ₚ map snd (productTotals (rows (aggregate data))).
Proof.
  unfold aggregate. simpl. rewrite withPercent_totals.
  unfold sortedTotals. by rewrite (sort_perm _ (productTotals _)).
Qed.

(** The totals and the row sales add up to the same integer. *)
Lemma productTotals_exact (rs : list Row) (zs : list Z) :
  map sales rs = map Num.of_Z zs -> Zabs_sum zs < 2 ^ 53 ->
  exists lz, map snd (productTotals rs) = map Num.of_Z lz /\
             Zsum lz = Zsum zs /\ Zabs_sum lz <= Zabs_sum zs.
Proof.
  intros Hrs Hb.
  destruct (rollup_exact (fun t => Num.or_else t Num.zero) addProduct (map snd)
              rs zs [] []) as (lz & Hv & Hs & Ha); auto using or_else_of_Z, addProduct_step.
  exists lz. split; [done|]. simpl in *. lia.
Qed.

Lemma monthlyMap_step (m : list (string * MonthlyRow)) (r : Row) :
  rollup_step (fun t => t) (sales r)
    (map (fun e => m_sales (snd e)) m) (map (fun e => m_sales (snd e)) (addMonth m r)).
Proof.
  destruct (addMonth_cases m r) as [(i & cur & Hi & ->)|[_ ->]].
  - left. exists i, (m_sales cur). split.
    + by rewrite list_lookup_fmap, Hi.
    + by rewrite list_fmap_insert.
  - right. by rewrite map_app.
Qed.

Lemma monthlyMap_exact (rs : list Row) (zs : list Z) :
  map sales rs = map Num.of_Z zs -> Zabs_sum zs < 2 ^ 53 ->
  exists lz, map (fun e => m_sales (snd e)) (monthlyMap rs) = map Num.of_Z lz /\
             Zsum lz = Zsum zs /\ Zabs_sum lz <= Zabs_sum zs.
Proof.
  intros Hrs Hb.
  destruct (rollup_exact (fun t => t) addMonth (map (fun e => m_sales (snd e)))
              rs zs [] []) as (lz & Hv & Hs & Ha); auto using monthlyMap_step.
  exists lz. split; [done|]. simpl in *. lia.
Qed.

(** A rearrangement of exact integer totals has the same exact sum. *)
Lemma sum_perm_exact (l : list num) (lz : list Z) :
  l ≡ₚ map Num.of_Z lz -> Zabs_sum lz < 2 ^ 53 -> Num.sum l = Num.of_Z (Zsum lz).
Proof.
  intros Hp Hb. apply Permutation_map_inv in Hp as (lz' & -> & Hp).
  rewrite sum_of_Z by (by rewrite <- (Zabs_sum_perm _ _ Hp)).
  by rewrite (Zsum_perm _ _ Hp).
Qed.

Lemma monthly_sales_perm (data : list record) :
  map m_sales (monthly (aggregate data))
  ≡ₚ map (fun e => m_sales (snd e)) (monthlyMap (rows (aggregate data))).
Proof.
  unfold aggregate. simpl.
  destruct (withPctChange_fields (monthlySorted (sortRows (rowsUnsorted data))))
    as (_ & -> & _).
  rewrite (monthlySorted_perm _). by rewrite map_map.
Qed.

End Products.

(** ** The rows *)

Section RowOrder.
Context `{Host}.

Lemma later_false (a b : Row) : later a b = false <-> date a <= date b.
Proof. unfold later. rewrite Z.ltb_ge. lia. Qed.

Lemma rows_sorted (data : list record) :
  StronglySorted (fun a b => date a <= date b) (rows (aggregate data)).
Proof.
  pose proof (sort_sorted later (fun _ => True)) as Hs.
  eapply StronglySorted_weaken; [|apply Hs].
  - intros a b Hab. by apply later_false.
  - intros x y _ _. unfold later. rewrite Z.ltb_lt, Z.ltb_ge. lia.
  - intros x y z _ _ _. unfold in_order. rewrite !later_false. lia.
  - by apply Forall_forall.
Qed.

Lemma rows_stable (data : list record) (t : Z) :
  filter (fun r => date r = t) (rows (aggregate data))
  = filter (fun r => date r = t) (rowsUnsorted data).
Proof.
  apply (sort_stable later (fun r => date r = t)).
  intros x y Hx Hy. apply later_false. lia.
Qed.

End RowOrder.

(** ** The order of the product totals *)

Section TotalsOrder.
Context `{Host}.

Lemma smaller_total_spec (a b : value * num) :
  Num.isNaN (snd a) = false -> Num.isNaN (snd b) = false ->
  smaller_total a b = Num.ltb (snd a) (snd b).
Proof. intros Ha Hb. unfold smaller_total. by apply NumFacts.sub_pos. Qed.

Lemma sortedTotals_sorted (rs : list Row) :
  Forall (fun e => Num.isNaN (snd e) = false) (productTotals rs) ->
  StronglySorted (fun a b => Num.leb (snd b) (snd a) = true) (sortedTotals rs).
Proof.
  intros Hnan.
  pose proof (sort_sorted smaller_total (fun e => Num.isNaN (snd e) = false)) as Hs.
  assert (Hq : Forall (fun e => Num.isNaN (snd e) = false) (sortedTotals rs)).
  { unfold sortedTotals. by rewrite (sort_perm _ (productTotals rs)). }
  assert (Hord : forall a b : value * num,
            Num.isNaN (snd a) = false -> Num.isNaN (snd b) = false ->
            in_order smaller_total a b <-> Num.leb (snd b) (snd a) = true).
  { intros a b Ha Hb. unfold in_order. rewrite smaller_total_spec by done.
    rewrite NumFacts.ltb_not_leb by done. by rewrite negb_false_iff. }
  assert (Hsorted : StronglySorted (in_order smaller_total) (sortedTotals rs)).
  { apply Hs; [| |done].
    - intros x y Hx Hy. rewrite !smaller_total_spec by done.
      intros Hlt. rewrite NumFacts.ltb_not_leb by done.
      by rewrite (NumFacts.ltb_leb _ _ Hlt).
    - intros x y z Hx Hy Hz. rewrite !Hord by done.
      intros Hyx Hzy. by apply (NumFacts.leb_trans _ (snd y)). }
  clear Hs. induction Hsorted as [|x l Hsl IH Hx]; [constructor|].
  apply Forall_cons in Hq as [Hqx Hq]. constructor; [by apply IH|].
  rewrite Forall_forall in Hx, Hq. apply Forall_forall. intros y Hy.
  apply Hord; auto.
Qed.

End TotalsOrder.

(** ** The baselines, as the specification words them *)






(** ** The format of a month key *)

Definition is_digit (c : ascii) : bool :=
  let n := N_of_ascii c in (48 <=? n)%N && (n <=? 57)%N.

(** Four digits, a hyphen, two digits. *)
Definition is_YYYY_MM (s : string) : bool :=
  match s with
  | String y1 (String y2 (String y3 (String y4 (String h (String m1 (String m2 EmptyString)))))) =>
      is_digit y1 && is_digit y2 && is_digit y3 && is_digit y4 &&
      Ascii.eqb h "-" && is_digit m1 && is_digit m2
  | _ => false
  end.

(** The key of month [mo] (from 0) of year [y]. *)
Definition format_month (y mo : Z) : string :=
  Z_to_string y +:+ "-" +:+ padStart 2 "0" (Z_to_string (mo + 1)).

Definition all_between (lo n : Z) (P : Z -> bool) : bool :=
  forallb (fun i => P (lo + Z.of_nat i)) (seq 0 (Z.to_nat n)).

Lemma all_between_spec (lo n : Z) (P : Z -> bool) (z : Z) :
  all_between lo n P = true -> lo <= z < lo + n -> P z = true.
Proof.
  unfold all_between. rewrite forallb_forall. intros Hall Hz.
  replace z with (lo + Z.of_nat (Z.to_nat (z - lo))) by lia.
  apply Hall. apply in_seq. lia.
Qed.

Lemma format_month_YYYY_MM (y mo : Z) :
  1000 <= y <= 9999 -> 0 <= mo <= 11 -> is_YYYY_MM (format_month y mo) = true.
Proof.
  intros Hy Hmo.
  assert (Hall : all_between 1000 9000 (fun y =>
            all_between 0 12 (fun mo => is_YYYY_MM (format_month y mo))) = true)
    by (vm_compute; reflexivity).
  apply (all_between_spec 0 12 (fun mo => is_YYYY_MM (format_month y mo))); [|lia].
  apply (all_between_spec 1000 9000
           (fun y => all_between 0 12 (fun mo => is_YYYY_MM (format_month y mo))));
    [done|lia].
Qed.

Lemma MonthFromTime_range (t : Z) : 0 <= Time.MonthFromTime t <= 11.
Proof.
  unfold Time.MonthFromTime.
  repeat (match goal with |- context [if ?b then _ else _] => destruct b end; [lia|]).
  lia.
Qed.

Lemma monthKey_format `{Host} (t : Z) :
  monthKey t = format_month (Time.YearFromTime (t + LocalTZA t))
                            (Time.MonthFromTime (t + LocalTZA t)).
Proof. reflexivity. Qed.


(** * The store: what [aggregate] allocates, reads and writes

    The functions above give the value [aggregate] returns.  Here the same
    program runs on a store of objects, with every allocation, every read
    of an object and every write to one where the source has it: the
    arrays of [map], [filter], [Array.from] and [slice], the sorts in
    place, the two [Map]s, the buckets updated through an alias, the
    [percent] and [pct_change] fields set afterwards. *)

Module Heap.

Abbreviation loc := nat.

(** A value in the store: a primitive, or a reference to an object. *)
Inductive hval :=
| HUndefined
| HNull
| HBool (b : bool)
| HNum (x : num)
| HStr (s : string)
| HRef (l : loc).

(** An object: a [Date] with its time value, a plain object with its
    properties in creation order, an array, a [Map] in insertion order. *)
Inductive obj :=
| ODate (t : option Z)
| OObject (props : list (string * hval))
| OArray (elems : list hval)
| OMap (entries : list (hval * hval)).

(** The store: the objects by location; a new object goes to the end. *)
Abbreviation store := (list obj).

(** A computation: the result and the store it leaves, or a TypeError. *)
Definition M (A : Type) : Type := store -> option (A * store).

Definition ret {A} (a : A) : M A := fun h => Some (a, h).

Definition bind {A B} (m : M A) (f : A -> M B) : M B :=
  fun h => match m h with
           | Some (a, h') => f a h'
           | None => None
           end.

Definition fail {A} : M A := fun _ => None.

Notation "'let*' x ':=' m 'in' k" := (bind m (fun x => k))
  (at level 10, x name, m at level 100, k at level 200, only parsing).
Notation "'do*' m 'in' k" := (bind m (fun _ => k))
  (at level 10, m at level 100, k at level 200, only parsing).

Definition alloc (o : obj) : M loc := fun h => Some (length h, h ++ [o]).

Definition write (l : loc) (o : obj) : M unit :=
  fun h => if decide (l < length h)%nat then Some (tt, <[l := o]> h) else None.

(** The store, to read from. *)
Definition get_store : M store := fun h => Some (h, h).

Fixpoint mapM_h {A B} (f : A -> M B) (l : list A) : M (list B) :=
  match l with
  | [] => ret []
  | x :: l' => let* y := f x in let* ys := mapM_h f l' in ret (y :: ys)
  end.

Fixpoint forM_h {A} (l : list A) (f : A -> M unit) : M unit :=
  match l with
  | [] => ret tt
  | x :: l' => do* f x in forM_h l' f
  end.

(** ** Reading *)

Definition props_of (h : store) (v : hval) : option (list (string * hval)) :=
  match v with
  | HRef l => match h !! l with
              | Some (OObject p) => Some p
              | _ => None
              end
  | _ => None
  end.

Definition elems_of (h : store) (v : hval) : option (list hval) :=
  match v with
  | HRef l => match h !! l with
              | Some (OArray es) => Some es
              | _ => None
              end
  | _ => None
  end.

Definition entries_of (h : store) (l : loc) : option (list (hval * hval)) :=
  match h !! l with
  | Some (OMap es) => Some es
  | _ => None
  end.

(** [d.getTime()] of a reference to a [Date]. *)
Definition time_of (h : store) (v : hval) : option Z :=
  match v with
  | HRef l => match h !! l with
              | Some (ODate t) => t
              | _ => None
              end
  | _ => None
  end.

(** [v.k] where it does not throw: [undefined] for a missing property. *)
Definition prop_of (h : store) (v : hval) (k : string) : hval :=
  match props_of h v with
  | Some p => default HUndefined (map_get String.eqb k p)
  | None => HUndefined
  end.

(** A field the program has stored a number in. *)
Definition num_of (v : hval) : num :=
  match v with
  | HNum x => x
  | _ => Num.NaN
  end.

Definition str_of (v : hval) : string :=
  match v with
  | HStr s => s
  | _ => ""
  end.

Definition is_null (v : hval) : bool :=
  match v with
  | HNull => true
  | _ => false
  end.

(** The value a store value stands for: a reference is a [Date], known by
    its location. *)
Definition snap_value (h : store) (v : hval) : value :=
  match v with
  | HUndefined => VUndefined
  | HNull => VNull
  | HBool b => VBool b
  | HNum x => VNum x
  | HStr s => VStr s
  | HRef l => match h !! l with
              | Some (ODate t) => VDate l t
              | _ => VUndefined
              end
  end.

Definition to_hval (v : value) : hval :=
  match v with
  | VUndefined => HUndefined
  | VNull => HNull
  | VBool b => HBool b
  | VNum x => HNum x
  | VStr s => HStr s
  | VDate l _ => HRef l
  end.

Definition snap_record (h : store) (p : list (string * hval)) : record :=
  list_to_map (map (fun e => (fst e, snap_value h (snd e))) p).

(** SameValueZero on store values: references by location. *)
Definition SameValueZero_h (a b : hval) : bool :=
  match a, b with
  | HUndefined, HUndefined | HNull, HNull => true
  | HBool x, HBool y => Bool.eqb x y
  | HNum x, HNum y => Num.eqb x y || (Num.isNaN x && Num.isNaN y)
  | HStr s, HStr t => String.eqb s t
  | HRef i, HRef j => Nat.eqb i j
  | _, _ => false
  end.

Definition map_key_h (k : hval) : hval :=
  match k with
  | HNum x => if Num.eqb x Num.zero then HNum Num.zero else k
  | _ => k
  end.

Definition load_array (v : hval) : M (list hval) :=
  fun h => match elems_of h v with
           | Some es => Some (es, h)
           | None => None
           end.

Definition load_map (l : loc) : M (list (hval * hval)) :=
  fun h => match entries_of h l with
           | Some es => Some (es, h)
           | None => None
           end.

(** [v.k = x] on a plain object. *)
Definition set_prop (v : hval) (k : string) (x : hval) : M unit :=
  fun h => match v with
           | HRef l => match props_of h v with
                       | Some p => write l (OObject (map_set String.eqb k x p)) h
                       | None => None
                       end
           | _ => None
           end.

(** [arr.sort(cmp)], in place; the comparator reads the store. *)
Definition array_sort (gt : store -> hval -> hval -> bool) (l : loc) : M unit :=
  let* es := load_array (HRef l) in
  let* h := get_store in
  write l (OArray (sort (gt h) es)).

Section Program.
Context `{Host}.

(** [toDate]: the [Date] is made, and given when it is valid. *)
Definition toDate_h (d : value) : M hval :=
  let* l := alloc (ODate (new_Date d)) in
  ret (match new_Date d with
       | Some _ => HRef l
       | None => HNull
       end).

(** The reads of a record by the callback of [data.map]. *)
Definition read_record (rv : hval) : M record :=
  fun h => match props_of h rv with
           | Some p => Some (snap_record h p, h)
           | None => None
           end.

Definition toRow_h (rv : hval) : M hval :=
  let* r := read_record rv in
  let* date := toDate_h (dateRaw r) in
  let product := productOf r in
  let units := Number (unitsVal r) in
  let unit_price := Number (unitPriceVal r) in
  let numericSales := numericSales r in
  if is_null date || Num.isNaN units || Num.isNaN unit_price || Num.isNaN numericSales
  then ret HNull
  else
    let* l := alloc (OObject [("date", date); ("product", to_hval product);
                              ("units", HNum units); ("unit_price", HNum unit_price);
                              ("sales", HNum numericSales)]) in
    ret (HRef l).

(** [(a, b) => a.date.getTime() - b.date.getTime()] is positive. *)
Definition later_h (h : store) (a b : hval) : bool :=
  match time_of h (prop_of h a "date"), time_of h (prop_of h b "date") with
  | Some ta, Some tb => 0 <? ta - tb
  | _, _ => false
  end.

Definition rows_h (data : hval) : M hval :=
  let* elems := load_array data in
  let* mapped := mapM_h toRow_h elems in
  do* alloc (OArray mapped) in
  let* rowsUnsorted := alloc (OArray (filter (fun x => is_null x = false) mapped)) in
  do* array_sort later_h rowsUnsorted in
  ret (HRef rowsUnsorted).

(** One turn of [for (const r of rows) productTotals.set(...)]. *)
Definition addProduct_h (pt : loc) (r : hval) : M unit :=
  let* h := get_store in
  let product := prop_of h r "product" in
  let s := num_of (prop_of h r "sales") in
  let* es := load_map pt in
  let cur := match map_get SameValueZero_h product es with
             | Some t => Num.or_else (num_of t) Num.zero
             | None => Num.zero
             end in
  write pt (OMap (map_set SameValueZero_h (map_key_h product) (HNum (Num.add cur s)) es)).

Definition smaller_total_h (h : store) (a b : hval) : bool :=
  Num.ltb Num.zero (Num.sub (num_of (prop_of h b "total_sales"))
                            (num_of (prop_of h a "total_sales"))).

(** [([product, total_sales]) => ({ product, total_sales })] *)
Definition newTotal_h (e : hval * hval) : M hval :=
  let* l := alloc (OObject [("product", fst e); ("total_sales", snd e)]) in
  ret (HRef l).

(** [(x) => (x.percent = ...)] *)
Definition setPercent_h (totalAll : num) (x : hval) : M unit :=
  let* h := get_store in
  set_prop x "percent" (HNum (percentOf totalAll (num_of (prop_of h x "total_sales")))).

Definition productTotals_h (rows : hval) : M hval :=
  let* productTotals := alloc (OMap []) in
  let* rs := load_array rows in
  do* forM_h rs (addProduct_h productTotals) in
  let* es := load_map productTotals in
  let* objs := mapM_h newTotal_h es in
  let* productTotalsArr := alloc (OArray objs) in
  do* array_sort smaller_total_h productTotalsArr in
  let* xs := load_array (HRef productTotalsArr) in
  let* h := get_store in
  let totalAll := fold_left (fun s x => Num.add s (num_of (prop_of h x "total_sales")))
                            xs Num.zero in
  do* forM_h xs (setPercent_h totalAll) in
  ret (HRef productTotalsArr).

(** [monthlyMap.get(key) || { key, sales: 0, transactions: 0 }] *)
Definition getMonth_h (k : string) (es : list (hval * hval)) : M hval :=
  match map_get SameValueZero_h (HStr k) es with
  | Some c => ret c
  | None =>
      let* l := alloc (OObject [("key", HStr k); ("sales", HNum Num.zero);
                                ("transactions", HNum Num.zero)]) in
      ret (HRef l)
  end.

(** One turn of the monthly loop: [cur] is the bucket of the map, or a new
    one; it is updated in place and put (back) under its key. *)
Definition addMonth_h (monthlyMap : loc) (r : hval) : M unit :=
  let* h := get_store in
  match time_of h (prop_of h r "date") with
  | None => fail
  | Some t =>
      let k := monthKey t in
      let* es := load_map monthlyMap in
      let* cur := getMonth_h k es in
      let* h1 := get_store in
      do* set_prop cur "sales"
            (HNum (Num.add (num_of (prop_of h1 cur "sales"))
                           (num_of (prop_of h1 r "sales")))) in
      let* h2 := get_store in
      do* set_prop cur "transactions"
            (HNum (Num.add (num_of (prop_of h2 cur "transactions")) Num.one)) in
      let* es' := load_map monthlyMap in
      write monthlyMap (OMap (map_set SameValueZero_h (HStr k) cur es'))
  end.

Definition key_after_h (h : store) (a b : hval) : bool :=
  0 <? localeCompare (str_of (prop_of h a "key")) (str_of (prop_of h b "key")).

(** The body of [for (let i = 1; i < monthly.length; i++)]. *)
Definition setPct_h (monthly : list hval) (i : nat) : M unit :=
  let* h := get_store in
  match monthly !! (i - 1)%nat, monthly !! i with
  | Some p, Some c =>
      set_prop c "pct_change"
        (HNum (pctChange (num_of (prop_of h p "sales")) (num_of (prop_of h c "sales"))))
  | _, _ => fail
  end.

Definition monthly_h (rows : hval) : M hval :=
  let* monthlyMap := alloc (OMap []) in
  let* rs := load_array rows in
  do* forM_h rs (addMonth_h monthlyMap) in
  let* es := load_map monthlyMap in
  let* monthly := alloc (OArray (map snd es)) in
  do* array_sort key_after_h monthly in
  let* ms := load_array (HRef monthly) in
  do* forM_h (seq 1 (length ms - 1)) (setPct_h ms) in
  ret (HRef monthly).

Definition baselines_h (monthly : hval) : M (num * num) :=
  let* ms := load_array monthly in
  let* h := get_store in
  let y := map (fun m => num_of (prop_of h m "sales")) ms in
  do* alloc (OArray (map HNum y)) in
  let naive := naiveOf y in
  let k := Nat.min 3 (length y) in
  match k with
  | O => ret (naive, Num.zero)
  | _ => do* alloc (OArray (map HNum (slice_last k y))) in
         ret (naive, Num.div (Num.sum (slice_last k y)) (Num.of_nat k))
  end.

Definition aggregate_h (data : hval) : M hval :=
  let* rows := rows_h data in
  let* productTotalsArr := productTotals_h rows in
  let* monthly := monthly_h rows in
  let* b := baselines_h monthly in
  let* res := alloc (OObject [("rows", rows); ("productTotalsArr", productTotalsArr);
                              ("monthly", monthly); ("naive", HNum (fst b));
                              ("ma", HNum (snd b))]) in
  ret (HRef res).

End Program.

(** ** Reading the result back *)

Definition get_num (p : list (string * hval)) (k : string) : option num :=
  match map_get String.eqb k p with
  | Some (HNum x) => Some x
  | _ => None
  end.

Definition snap_row (h : store) (v : hval) : option Row :=
  p ← props_of h v;
  t ← time_of h (default HUndefined (map_get String.eqb "date" p));
  pr ← map_get String.eqb "product" p;
  u ← get_num p "units";
  up ← get_num p "unit_price";
  s ← get_num p "sales";
  Some {| date := t; product := snap_value h pr; units := u; unit_price := up; sales := s |}.

Definition snap_total (h : store) (v : hval) : option ProductTotal :=
  p ← props_of h v;
  pr ← map_get String.eqb "product" p;
  t ← get_num p "total_sales";
  pc ← get_num p "percent";
  Some {| p_product := snap_value h pr; total_sales := t; percent := pc |}.

Definition snap_month (h : store) (v : hval) : option MonthlyRow :=
  p ← props_of h v;
  k ← map_get String.eqb "key" p;
  s ← get_num p "sales";
  n ← get_num p "transactions";
  c ← Num.trunc n;
  pc ← match map_get String.eqb "pct_change" p with
       | None => Some None
       | Some (HNum x) => Some (Some x)
       | Some _ => None
       end;
  Some {| key := str_of k; m_sales := s; transactions := c; pct_change := pc |}.

Definition snap_array {A} (f : store -> hval -> option A) (h : store) (v : hval) : option (list A) :=
  es ← elems_of h v; mapM (f h) es.

Definition snap_output (h : store) (v : hval) : option Output :=
  p ← props_of h v;
  rs ← snap_array snap_row h (default HUndefined (map_get String.eqb "rows" p));
  ts ← snap_array snap_total h (default HUndefined (map_get String.eqb "productTotalsArr" p));
  ms ← snap_array snap_month h (default HUndefined (map_get String.eqb "monthly" p));
  n ← get_num p "naive";
  a ← get_num p "ma";
  Some {| rows := rs; productTotalsArr := ts; monthly := ms; naive := n; ma := a |}.

(** The input: an array of records, each a plain object whose properties
    are primitives or [Date]s. *)
Definition wf_hval (h : store) (v : hval) : Prop :=
  match v with
  | HRef l => exists t, h !! l = Some (ODate t)
  | _ => True
  end.

Definition record_at (h : store) (v : hval) (r : record) : Prop :=
  exists p, props_of h v = Some p /\ Forall (fun e => wf_hval h (snd e)) p /\
            r = snap_record h p.

Definition input_at (h : store) (data : hval) (recs : list record) : Prop :=
  exists es, elems_of h data = Some es /\ Forall2 (record_at h) es recs /\
             Z.of_nat (length es) < 2 ^ 32.

(** ** Running a computation *)

Lemma bind_run {A B} (m : M A) (f : A -> M B) (h h' : store) (a : A) :
  m h = Some (a, h') -> bind m f h = f a h'.
Proof. unfold bind. by intros ->. Qed.

Lemma alloc_run (o : obj) (h : store) : alloc o h = Some (length h, h ++ [o]).
Proof. done. Qed.

Lemma write_run (l : loc) (o : obj) (h : store) :
  (l < length h)%nat -> write l o h = Some (tt, <[l := o]> h).
Proof. intros Hl. unfold write. by rewrite decide_True. Qed.

Lemma lookup_alloc (h : store) (o : obj) : (h ++ [o]) !! length h = Some o.
Proof. by rewrite lookup_app_r, Nat.sub_diag. Qed.

(** A write past a prefix leaves the prefix. *)
Lemma prefix_insert (h0 h : store) (l : loc) (o : obj) :
  h0 `prefix_of` h -> (length h0 <= l)%nat -> h0 `prefix_of` <[l := o]> h.
Proof.
  intros [s ->] Hl. exists (<[(l - length h0)%nat := o]> s).
  by rewrite insert_app_r_alt.
Qed.

Lemma prefix_snoc (h0 h : store) (o : obj) : h0 `prefix_of` h -> h0 `prefix_of` h ++ [o].
Proof. intros Hp. etrans; [exact Hp|]. by apply prefix_app_r. Qed.

(** ** What stays readable when the store grows *)

Section Monotone.
Context (h h' : store) (Hp : h `prefix_of` h').

Lemma lookup_mono (l : loc) (o : obj) : h !! l = Some o -> h' !! l = Some o.
Proof. intros Hl. by eapply prefix_lookup_Some. Qed.

Lemma props_of_mono (v : hval) (p : list (string * hval)) :
  props_of h v = Some p -> props_of h' v = Some p.
Proof.
  destruct v as [| | | | |l]; simpl; try done.
  destruct (h !! l) as [o|] eqn:Hl; [|done].
  rewrite (lookup_mono _ _ Hl). done.
Qed.

Lemma elems_of_mono (v : hval) (es : list hval) :
  elems_of h v = Some es -> elems_of h' v = Some es.
Proof.
  destruct v as [| | | | |l]; simpl; try done.
  destruct (h !! l) as [o|] eqn:Hl; [|done].
  rewrite (lookup_mono _ _ Hl). done.
Qed.

Lemma time_of_mono (v : hval) (t : Z) :
  time_of h v = Some t -> time_of h' v = Some t.
Proof.
  destruct v as [| | | | |l]; simpl; try done.
  destruct (h !! l) as [o|] eqn:Hl; [|done].
  rewrite (lookup_mono _ _ Hl). done.
Qed.

Lemma wf_hval_mono (v : hval) : wf_hval h v -> wf_hval h' v.
Proof.
  destruct v as [| | | | |l]; simpl; try done.
  intros [t Ht]. exists t. by apply lookup_mono.
Qed.

Lemma snap_value_mono (v : hval) : wf_hval h v -> snap_value h' v = snap_value h v.
Proof.
  destruct v as [| | | | |l]; simpl; try done.
  intros [t Ht]. by rewrite (lookup_mono _ _ Ht), Ht.
Qed.

Lemma snap_record_mono (p : list (string * hval)) :
  Forall (fun e => wf_hval h (snd e)) p -> snap_record h' p = snap_record h p.
Proof.
  intros Hwf. unfold snap_record. f_equal.
  induction Hwf as [|e p He _ IH]; simpl; [done|].
  by rewrite IH, snap_value_mono.
Qed.

Lemma record_at_mono (v : hval) (r : record) : record_at h v r -> record_at h' v r.
Proof.
  intros (p & Hp1 & Hwf & ->). exists p. split; [by apply props_of_mono|].
  split.
  - eapply Forall_impl; [exact Hwf|]. intros e. apply wf_hval_mono.
  - by rewrite snap_record_mono.
Qed.

Lemma input_at_mono (data : hval) (recs : list record) :
  input_at h data recs -> input_at h' data recs.
Proof.
  intros (es & Hes & Hrecs & Hlen). exists es. split; [by apply elems_of_mono|].
  split; [|done].
  eapply Forall2_impl; [exact Hrecs|]. intros v r. apply record_at_mono.
Qed.

End Monotone.


(** ** The rows in the store *)

(** A value read from a record stands in the store as itself. *)
Definition good (h : store) (x : value) : Prop :=
  wf_hval h (to_hval x) /\ snap_value h (to_hval x) = x.

Lemma good_snap (h : store) (v : hval) : wf_hval h v -> good h (snap_value h v).
Proof.
  destruct v as [| | | | |l]; simpl; try done.
  intros [t Ht]. rewrite Ht. split; simpl; [by exists t|by rewrite Ht].
Qed.

Lemma good_mono (h h' : store) (x : value) : h `prefix_of` h' -> good h x -> good h' x.
Proof.
  intros Hp [Hwf Hs]. split; [by eapply wf_hval_mono|].
  by rewrite (snap_value_mono h h' Hp).
Qed.

Lemma good_nullish (h : store) (a b : value) : good h a -> good h b -> good h (a ?? b).
Proof. by destruct a. Qed.

Lemma good_prop (h : store) (p : list (string * hval)) (k : string) :
  Forall (fun e => wf_hval h (snd e)) p -> good h (prop (snap_record h p) k).
Proof.
  intros Hwf. unfold prop, snap_record.
  induction Hwf as [|e p He _ IH]; simpl.
  - by rewrite lookup_empty.
  - destruct (decide (fst e = k)) as [->|Hne].
    + rewrite lookup_insert_eq. simpl. by apply good_snap.
    + by rewrite lookup_insert_ne.
Qed.

Section Rows.
Context `{Host}.

Lemma good_productOf (h : store) (p : list (string * hval)) :
  Forall (fun e => wf_hval h (snd e)) p -> good h (productOf (snap_record h p)).
Proof.
  intros Hwf. unfold productOf. repeat apply good_nullish; try by apply good_prop.
  done.
Qed.

Definition row_obj (dl : loc) (r : Row) : obj :=
  OObject [("date", HRef dl); ("product", to_hval (product r));
           ("units", HNum (units r)); ("unit_price", HNum (unit_price r));
           ("sales", HNum (sales r))].

(** [v] refers to the object of row [r]. *)
Definition row_at (h : store) (v : hval) (r : Row) : Prop :=
  exists l dl, v = HRef l /\ h !! l = Some (row_obj dl r) /\
               h !! dl = Some (ODate (Some (date r))) /\ good h (product r).

Definition rows_at (h : store) (v : hval) (rs : list Row) : Prop :=
  exists es, elems_of h v = Some es /\ Forall2 (row_at h) es rs.

Lemma row_at_mono (h h' : store) (v : hval) (r : Row) :
  h `prefix_of` h' -> row_at h v r -> row_at h' v r.
Proof.
  intros Hp (l & dl & -> & Hl & Hdl & Hg). exists l, dl.
  split; [done|]. split; [by eapply lookup_mono|].
  split; [by eapply lookup_mono|by eapply good_mono].
Qed.

Lemma rows_at_mono (h h' : store) (v : hval) (rs : list Row) :
  h `prefix_of` h' -> rows_at h v rs -> rows_at h' v rs.
Proof.
  intros Hp (es & Hes & Hrs). exists es. split; [by eapply elems_of_mono|].
  eapply Forall2_impl; [exact Hrs|]. intros v' r. by apply row_at_mono.
Qed.

Lemma row_at_sales (h : store) (v : hval) (r : Row) :
  row_at h v r -> prop_of h v "sales" = HNum (sales r).
Proof. intros (l & dl & -> & Hl & _). unfold prop_of. simpl. by rewrite Hl. Qed.

Lemma row_at_product (h : store) (v : hval) (r : Row) :
  row_at h v r -> prop_of h v "product" = to_hval (product r).
Proof. intros (l & dl & -> & Hl & _). unfold prop_of. simpl. by rewrite Hl. Qed.

Lemma row_at_time (h : store) (v : hval) (r : Row) :
  row_at h v r -> time_of h (prop_of h v "date") = Some (date r).
Proof.
  intros (l & dl & -> & Hl & Hdl & _). unfold prop_of. simpl. rewrite Hl. simpl.
  by rewrite Hdl.
Qed.

Lemma row_at_snap (h : store) (v : hval) (r : Row) :
  row_at h v r -> snap_row h v = Some r.
Proof.
  intros (l & dl & -> & Hl & Hdl & _ & Hg). unfold snap_row. simpl. rewrite Hl. simpl.
  rewrite Hdl. simpl. rewrite Hg. by destruct r.
Qed.

(** The callback of [data.map] makes a [Date], and a row object for a
    valid record. *)
Lemma toRow_h_run (h : store) (rv : hval) (r : record) :
  record_at h rv r ->
  exists s res, toRow_h rv h = Some (res, h ++ s) /\
    match toRow r with
    | Some row => row_at (h ++ s) res row
    | None => res = HNull
    end.
Proof.
  intros (p & Hp & Hwf & ->). set (r := snap_record h p).
  unfold toRow_h. erewrite bind_run; [|by unfold read_record; rewrite Hp].
  fold r. unfold toDate_h. erewrite bind_run; [|erewrite bind_run; [|apply alloc_run]; done].
  unfold toRow, toDate.
  destruct (new_Date (dateRaw r)) as [t|] eqn:Ht; cbn [is_null orb].
  - destruct (Num.isNaN (Number (unitsVal r)) || Num.isNaN (Number (unitPriceVal r))
              || Num.isNaN (numericSales r)) eqn:Hnan.
    + exists [ODate (Some t)], HNull. by split.
    + erewrite bind_run; [|apply alloc_run].
      eexists [ODate (Some t); _], _. split.
      { unfold ret. by rewrite <- app_assoc. }
      exists (S (length h)), (length h). split; [by rewrite length_app, Nat.add_comm|].
      split; [|split].
      * rewrite (lookup_app_r h); simpl; [|lia].
        replace (S (length h) - length h)%nat with 1%nat by lia. done.
      * rewrite (lookup_app_r h); simpl; [|lia]. by rewrite Nat.sub_diag.
      * simpl. eapply good_mono; [by apply prefix_app_r|]. by apply good_productOf.
  - exists [ODate None], HNull. by split.
Qed.

Lemma mapM_toRow_run (es : list hval) (recs : list record) (h : store) :
  Forall2 (record_at h) es recs ->
  exists s results, mapM_h toRow_h es h = Some (results, h ++ s) /\
    Forall2 (fun res r => match toRow r with
                          | Some row => row_at (h ++ s) res row
                          | None => res = HNull
                          end) results recs.
Proof.
  revert recs h. induction es as [|e es IH]; intros recs h Hrecs.
  - apply Forall2_nil_inv_l in Hrecs as ->. exists [], []. split; [|constructor].
    simpl. unfold ret. by rewrite app_nil_r.
  - apply Forall2_cons_inv_l in Hrecs as (r & recs' & Hr & Hrecs & ->).
    destruct (toRow_h_run h e r Hr) as (s1 & res & Hrun & Hres).
    destruct (IH recs' (h ++ s1)) as (s2 & results & Hrun2 & Hres2).
    { eapply Forall2_impl; [exact Hrecs|]. intros v r'.
      apply record_at_mono. by apply prefix_app_r. }
    exists (s1 ++ s2), (res :: results). split.
    + simpl. erewrite bind_run by exact Hrun. erewrite bind_run by exact Hrun2.
      unfold ret. by rewrite app_assoc.
    + rewrite app_assoc. constructor; [|done].
      destruct (toRow r); [|done]. eapply row_at_mono; [|exact Hres].
      by apply prefix_app_r.
Qed.

Lemma filter_rows (h : store) (results : list hval) (recs : list record) :
  Forall2 (fun res r => match toRow r with
                        | Some row => row_at h res row
                        | None => res = HNull
                        end) results recs ->
  Forall2 (row_at h) (filter (fun x => is_null x = false) results) (rowsUnsorted recs).
Proof.
  unfold rowsUnsorted.
  induction 1 as [|res r results recs Hr _ IH]; simpl; [constructor|].
  rewrite filter_cons. destruct (toRow r) as [row|] eqn:Hrow; simpl.
  - destruct Hr as (l & dl & -> & Hr). simpl.
    constructor; [|done]. by exists l, dl.
  - by subst res.
Qed.

End Rows.

(** Two sorts whose comparators agree on related elements keep the lists
    related. *)
Lemma insert_sorted_Forall2 {A B} (R : A -> B -> Prop)
    (gtA : A -> A -> bool) (gtB : B -> B -> bool) (x : A) (y : B) (l : list A) (k : list B) :
  (forall a b a' b', R a a' -> R b b' -> gtA a b = gtB a' b') ->
  R x y -> Forall2 R l k -> Forall2 R (insert_sorted gtA x l) (insert_sorted gtB y k).
Proof.
  intros Hgt Hxy Hlk. induction Hlk as [|a b l k Hab Hlk IH]; simpl.
  - by repeat constructor.
  - rewrite (Hgt x a y b Hxy Hab). destruct (gtB y b); by repeat constructor.
Qed.

Lemma sort_Forall2 {A B} (R : A -> B -> Prop)
    (gtA : A -> A -> bool) (gtB : B -> B -> bool) (l : list A) (k : list B) :
  (forall a b a' b', R a a' -> R b b' -> gtA a b = gtB a' b') ->
  Forall2 R l k -> Forall2 R (sort gtA l) (sort gtB k).
Proof.
  intros Hgt Hlk. induction Hlk as [|a b l k Hab Hlk IH]; simpl; [constructor|].
  by apply insert_sorted_Forall2.
Qed.

Lemma array_sort_run (gt : store -> hval -> hval -> bool) (l : loc) (es : list hval) (h : store) :
  h !! l = Some (OArray es) ->
  array_sort gt l h = Some (tt, <[l := OArray (sort (gt h) es)]> h).
Proof.
  intros Hl. unfold array_sort.
  erewrite bind_run; [|by unfold load_array; simpl; rewrite Hl].
  erewrite bind_run; [|done].
  apply write_run. by eapply lookup_lt_Some.
Qed.

Lemma insert_last (h : store) (o o' : obj) : <[length h := o']> (h ++ [o]) = h ++ [o'].
Proof. rewrite insert_app_r_alt by lia. by rewrite Nat.sub_diag. Qed.

Section RowsPhase.
Context `{Host}.

Lemma later_h_spec (h : store) (a b : hval) (ra rb : Row) :
  row_at h a ra -> row_at h b rb -> later_h h a b = later ra rb.
Proof.
  intros Ha Hb. unfold later_h, later.
  by rewrite (row_at_time _ _ _ Ha), (row_at_time _ _ _ Hb).
Qed.

(** The first phase: the array of the sorted rows, whose objects and
    [Date]s are new. *)
Lemma rows_h_run (h : store) (data : hval) (recs : list record) :
  input_at h data recs ->
  exists s la, rows_h data h = Some (HRef la, h ++ s) /\
               rows_at (h ++ s) (HRef la) (sortRows (rowsUnsorted recs)).
Proof.
  intros (es & Hes & Hrecs & _).
  destruct (mapM_toRow_run es recs h Hrecs) as (s1 & results & Hrun & Hres).
  apply filter_rows in Hres.
  set (filtered := filter (fun x => is_null x = false) results) in *.
  set (h3 := (h ++ s1) ++ [OArray results]).
  set (h4 := h3 ++ [OArray filtered]).
  assert (Hp : h ++ s1 `prefix_of` h4).
  { unfold h4, h3. rewrite <- app_assoc. by apply prefix_app_r. }
  exists (s1 ++ [OArray results; OArray (sort (later_h h4) filtered)]), (length h3).
  split.
  - unfold rows_h.
    erewrite bind_run; [|by unfold load_array; rewrite Hes].
    erewrite bind_run by exact Hrun.
    erewrite bind_run by apply alloc_run.
    erewrite bind_run by apply alloc_run.
    erewrite bind_run; [|apply (array_sort_run _ _ filtered); apply lookup_alloc].
    unfold ret. f_equal. f_equal. fold h3.
    rewrite insert_last. unfold h4, filtered, h3. by rewrite <- !app_assoc.
  - exists (sort (later_h h4) filtered). split.
    + simpl. replace (h ++ s1 ++ [OArray results; OArray (sort (later_h h4) filtered)])
        with (h3 ++ [OArray (sort (later_h h4) filtered)])
        by (unfold h4, filtered, h3; by rewrite <- !app_assoc).
      by rewrite lookup_alloc.
    + eapply Forall2_impl.
      * apply (sort_Forall2 (row_at (h ++ s1)) (later_h h4) later); [|exact Hres].
        intros a b ra rb Ha Hb. apply later_h_spec; by eapply row_at_mono.
      * intros v r. apply row_at_mono. rewrite app_assoc. by apply prefix_app_r.
Qed.

End RowsPhase.



(** ** Updating new objects in a loop *)

Lemma set_prop_run (h : store) (l : loc) (p : list (string * hval)) (k : string) (x : hval) :
  h !! l = Some (OObject p) ->
  set_prop (HRef l) k x h = Some (tt, <[l := OObject (map_set String.eqb k x p)]> h).
Proof.
  intros Hl. unfold set_prop. simpl. rewrite Hl.
  apply write_run. by eapply lookup_lt_Some.
Qed.

(** A loop whose turn for [x] rewrites the object at [at_ x], the objects
    being distinct: each is rewritten once, and nothing else changes. *)
Lemma forM_h_update {A} (xs : list A) (f : A -> M unit) (at_ : A -> loc)
    (g : A -> obj -> obj) (Inv : store -> Prop) (h : store) :
  NoDup (at_ <$> xs) -> Inv h ->
  (forall x, x ∈ xs -> is_Some (h !! at_ x)) ->
  (forall x h' o, x ∈ xs -> Inv h' -> h' !! at_ x = Some o ->
     f x h' = Some (tt, <[at_ x := g x o]> h') /\ Inv (<[at_ x := g x o]> h')) ->
  exists h', forM_h xs f h = Some (tt, h') /\ Inv h' /\ length h' = length h /\
             (forall x, x ∈ xs -> h' !! at_ x = g x <$> h !! at_ x) /\
             (forall l, l ∉ at_ <$> xs -> h' !! l = h !! l).
Proof.
  revert h. induction xs as [|x xs IH]; intros h Hnd Hinv Hsome Hstep.
  - exists h. repeat split; try done. intros x Hx. by apply elem_of_nil in Hx.
  - rewrite fmap_cons in Hnd. apply NoDup_cons in Hnd as [Hx Hnd].
    destruct (Hsome x) as [o Ho]; [by left|].
    destruct (Hstep x h o) as [Hrun Hinv1]; [by left|done|done|].
    destruct (IH (<[at_ x := g x o]> h)) as (h' & Hrun' & Hinv' & Hlen & Hin & Hout);
      [done|done| | |].
    { intros y Hy. rewrite list_lookup_insert_ne; [apply Hsome; by right|].
      intros Heq. apply Hx. rewrite Heq. by apply list_elem_of_fmap_2. }
    { intros y h2 o2 Hy. apply Hstep. by right. }
    exists h'. split; [|split; [done|split; [|split]]].
    + simpl. by erewrite bind_run by exact Hrun.
    + by rewrite Hlen, length_insert.
    + intros y Hy. apply elem_of_cons in Hy as [->|Hy].
      * rewrite Hout by done. rewrite Ho. simpl.
        apply list_lookup_insert_eq. by eapply lookup_lt_Some.
      * rewrite Hin by done. rewrite list_lookup_insert_ne; [done|].
        intros Heq. apply Hx. rewrite Heq. by apply list_elem_of_fmap_2.
    + intros l Hl. rewrite fmap_cons in Hl. apply not_elem_of_cons in Hl as [Hne Hl].
      rewrite Hout by done. by rewrite list_lookup_insert_ne.
Qed.

Definition loc_of (v : hval) : loc :=
  match v with
  | HRef l => l
  | _ => O
  end.

(** The references to [k] objects made in a row from location [n]. *)
Definition refs_from (n k : nat) : list hval := HRef <$> seq n k.

Lemma refs_from_locs (n k : nat) : loc_of <$> refs_from n k = seq n k.
Proof.
  unfold refs_from. rewrite <- list_fmap_compose. apply list_fmap_id.
Qed.

Lemma refs_from_S (n k : nat) : refs_from n (S k) = HRef n :: refs_from (S n) k.
Proof. done. Qed.

Lemma refs_from_snoc (n k : nat) : refs_from n (S k) = refs_from n k ++ [HRef (n + k)%nat].
Proof. unfold refs_from. by rewrite seq_S, fmap_app. Qed.


(** ** The product totals in the store *)

(** The entries of the [Map] of totals. *)
Definition ents (m : list (value * num)) : list (hval * hval) :=
  map (fun e => (to_hval (fst e), HNum (snd e))) m.

Lemma SameValueZero_h_to_hval (a b : value) :
  SameValueZero_h (to_hval a) (to_hval b) = SameValueZero a b.
Proof. by destruct a, b. Qed.

Lemma map_key_h_to_hval (k : value) : map_key_h (to_hval k) = to_hval (map_key k).
Proof.
  destruct k as [| | |x| |]; simpl; try done. by destruct (Num.eqb x Num.zero).
Qed.

Lemma map_get_ents (k : value) (m : list (value * num)) :
  map_get SameValueZero_h (to_hval k) (ents m) = HNum <$> map_get SameValueZero k m.
Proof.
  induction m as [|[k0 v0] m IH]; simpl; [done|].
  rewrite SameValueZero_h_to_hval. by destruct (SameValueZero k0 k).
Qed.

Lemma map_set_ents (k : value) (v : num) (m : list (value * num)) :
  map_set SameValueZero_h (to_hval k) (HNum v) (ents m)
  = ents (map_set SameValueZero k v m).
Proof.
  induction m as [|[k0 v0] m IH]; simpl; [done|].
  rewrite SameValueZero_h_to_hval. destruct (SameValueZero k0 k); simpl; [done|].
  by rewrite IH.
Qed.

Lemma good_map_key (h : store) (k : value) : good h k -> good h (map_key k).
Proof.
  destruct k as [| | |x| |]; simpl; try done. by destruct (Num.eqb x Num.zero).
Qed.

Lemma map_set_keys_Forall {V} (P : value -> Prop) (k : value) (v : V) (m : list (value * V)) :
  P k -> Forall (fun e => P (fst e)) m ->
  Forall (fun e => P (fst e)) (map_set SameValueZero k v m).
Proof.
  intros Hk. induction 1 as [|[k0 v0] m Hk0 Hm IH]; simpl; [by repeat constructor|].
  destruct (SameValueZero k0 k); constructor; simpl in *; auto.
Qed.

Definition total0_obj (e : value * num) : obj :=
  OObject [("product", to_hval (fst e)); ("total_sales", HNum (snd e))].

Definition total_obj (pt : ProductTotal) : obj :=
  OObject [("product", to_hval (p_product pt)); ("total_sales", HNum (total_sales pt));
           ("percent", HNum (percent pt))].

(** [v] refers to the object of the product total [pt]. *)
Definition total_at (h : store) (v : hval) (pt : ProductTotal) : Prop :=
  exists l, v = HRef l /\ h !! l = Some (total_obj pt) /\ good h (p_product pt).

Definition totals_at (h : store) (v : hval) (pts : list ProductTotal) : Prop :=
  exists es, elems_of h v = Some es /\ Forall2 (total_at h) es pts.

Lemma total_at_mono (h h' : store) (v : hval) (pt : ProductTotal) :
  h `prefix_of` h' -> total_at h v pt -> total_at h' v pt.
Proof.
  intros Hp (l & -> & Hl & Hg). exists l.
  split; [done|]. split; [by eapply lookup_mono|by eapply good_mono].
Qed.

Lemma totals_at_mono (h h' : store) (v : hval) (pts : list ProductTotal) :
  h `prefix_of` h' -> totals_at h v pts -> totals_at h' v pts.
Proof.
  intros Hp (es & Hes & Hpts). exists es. split; [by eapply elems_of_mono|].
  eapply Forall2_impl; [exact Hpts|]. intros v' r. by apply total_at_mono.
Qed.

Lemma total_at_snap (h : store) (v : hval) (pt : ProductTotal) :
  total_at h v pt -> snap_total h v = Some pt.
Proof.
  intros (l & -> & Hl & _ & Hg). unfold snap_total. simpl. rewrite Hl. simpl.
  rewrite Hg. by destruct pt.
Qed.

Section ProductsPhase.
Context `{Host}.

Lemma addProduct_h_run (h : store) (m : list (value * num)) (r : hval) (row : Row) :
  row_at h r row ->
  addProduct_h (length h) r (h ++ [OMap (ents m)])
  = Some (tt, h ++ [OMap (ents (addProduct m row))]).
Proof.
  intros Hr.
  assert (Hr' : row_at (h ++ [OMap (ents m)]) r row).
  { eapply row_at_mono; [|exact Hr]. by apply prefix_app_r. }
  unfold addProduct_h. erewrite bind_run; [|done].
  rewrite (row_at_product _ _ _ Hr'), (row_at_sales _ _ _ Hr').
  erewrite bind_run; [|by unfold load_map, entries_of; rewrite lookup_alloc].
  rewrite write_run by (rewrite length_app; simpl; lia).
  rewrite insert_last. do 4 f_equal.
  rewrite map_get_ents, map_key_h_to_hval. unfold addProduct.
  destruct (map_get SameValueZero (product row) m); simpl; by rewrite map_set_ents.
Qed.

Lemma forM_addProduct_run (h : store) (es : list hval) (rs : list Row) (m : list (value * num)) :
  Forall2 (row_at h) es rs ->
  forM_h es (addProduct_h (length h)) (h ++ [OMap (ents m)])
  = Some (tt, h ++ [OMap (ents (fold_left addProduct rs m))]).
Proof.
  intros Hrs. revert m. induction Hrs as [|e r es rs Hr _ IH]; intros m; simpl; [done|].
  erewrite bind_run by (by apply addProduct_h_run). apply IH.
Qed.

Lemma productTotals_good (h : store) (rs : list Row) :
  Forall (fun r => good h (product r)) rs ->
  Forall (fun e => good h (fst e)) (productTotals rs).
Proof.
  intros Hrs. unfold productTotals.
  assert (Hgen : forall m, Forall (fun e => good h (fst e)) m ->
            Forall (fun e => good h (fst e)) (fold_left addProduct rs m)).
  { induction Hrs as [|r rs Hr _ IH]; intros m Hm; simpl; [done|].
    apply IH. unfold addProduct.
    apply (map_set_keys_Forall (good h)); [by apply good_map_key|done]. }
  apply Hgen. constructor.
Qed.

(** [Array.from(productTotals, ...)] makes one object per entry. *)
Lemma mapM_newTotal_run (h : store) (m : list (value * num)) :
  mapM_h newTotal_h (ents m) h
  = Some (refs_from (length h) (length m), h ++ map total0_obj m).
Proof.
  revert h. induction m as [|e m IH]; intros h; simpl.
  - unfold ret. by rewrite app_nil_r.
  - unfold newTotal_h at 1. erewrite bind_run; [|by erewrite bind_run by apply alloc_run].
    erewrite bind_run by apply IH. unfold ret.
    rewrite length_app, Nat.add_1_r, <- app_assoc. done.
Qed.

Lemma total0_lookup (h s : store) (m : list (value * num)) :
  Forall2 (fun v e => exists l, v = HRef l /\ (h ++ map total0_obj m ++ s) !! l = Some (total0_obj e)
                                /\ (length h <= l < length h + length m)%nat)
          (refs_from (length h) (length m)) m.
Proof.
  apply Forall2_same_length_lookup. split.
  { unfold refs_from. by rewrite length_fmap, length_seq. }
  intros i v e Hv He. unfold refs_from in Hv. rewrite list_lookup_fmap in Hv.
  apply fmap_Some in Hv as (l & Hl & ->).
  apply lookup_seq in Hl as [-> Hi]. exists (length h + i)%nat.
  split; [done|]. split; [|lia].
  rewrite lookup_app_r by lia. replace (length h + i - length h)%nat with i by lia.
  rewrite lookup_app_l by (by rewrite length_map).
  by rewrite list_lookup_fmap, He.
Qed.

Lemma totalAll_read (h : store) (xs : list hval) (ts : list (value * num)) (acc : num) :
  Forall2 (fun v e => exists l, v = HRef l /\ h !! l = Some (total0_obj e)) xs ts ->
  fold_left (fun s x => Num.add s (num_of (prop_of h x "total_sales"))) xs acc
  = fold_left Num.add (map snd ts) acc.
Proof.
  intros Hxs. revert acc. induction Hxs as [|v e xs ts (l & -> & Hl) _ IH]; intros acc;
    simpl; [done|].
  rewrite IH. unfold prop_of. simpl. by rewrite Hl.
Qed.

(** What [(x) => (x.percent = ...)] does to the object of [x]. *)
Definition with_percent (T : num) (o : obj) : obj :=
  match o with
  | OObject p =>
      OObject (map_set String.eqb "percent"
                 (HNum (percentOf T (num_of (default HUndefined
                                               (map_get String.eqb "total_sales" p))))) p)
  | _ => o
  end.

Lemma setPercent_h_run (T : num) (h : store) (l : loc) (p : list (string * hval)) :
  h !! l = Some (OObject p) ->
  setPercent_h T (HRef l) h = Some (tt, <[l := with_percent T (OObject p)]> h).
Proof.
  intros Hl. unfold setPercent_h. erewrite bind_run; [|done].
  rewrite (set_prop_run h l p) by done. unfold prop_of. simpl. by rewrite Hl.
Qed.

(** The second phase: the array of the product totals, sorted, with their
    percents; the [Map], the objects and the array are new. *)
Lemma productTotals_h_run (h : store) (rowsv : hval) (rs : list Row) :
  rows_at h rowsv rs ->
  exists s lp, productTotals_h rowsv h = Some (HRef lp, h ++ s) /\
               totals_at (h ++ s) (HRef lp) (withPercent (sortedTotals rs)).
Proof.
  intros (es & Hes & Hrs).
  set (M := productTotals rs).
  set (h1 := h ++ [OMap (ents M)]).
  set (h5 := h1 ++ map total0_obj M).
  set (refs := refs_from (length h1) (length M)).
  set (h6 := h5 ++ [OArray refs]).
  set (sorted := sort (smaller_total_h h6) refs).
  set (h7 := h5 ++ [OArray sorted]).
  set (T := fold_left (fun s x => Num.add s (num_of (prop_of h7 x "total_sales")))
                      sorted Num.zero).
  assert (Hp15 : h1 `prefix_of` h5) by (by apply prefix_app_r).
  assert (Hp56 : h5 `prefix_of` h6) by (by apply prefix_app_r).
  assert (Hp57 : h5 `prefix_of` h7) by (by apply prefix_app_r).
  (* the objects of the entries *)
  assert (Hrefs : Forall2 (fun v e => exists l, v = HRef l /\ h5 !! l = Some (total0_obj e)
                                       /\ (length h1 <= l < length h1 + length M)%nat)
                    refs M).
  { pose proof (total0_lookup h1 [] M) as Hl. by rewrite app_nil_r in Hl. }
  assert (Hsorted : Forall2 (fun v e => exists l, v = HRef l /\ h5 !! l = Some (total0_obj e)
                                       /\ (length h1 <= l < length h1 + length M)%nat)
                      sorted (sortedTotals rs)).
  { apply sort_Forall2; [|exact Hrefs].
    intros a b ea eb (la & -> & Ha & _) (lb & -> & Hb & _).
    unfold smaller_total_h, smaller_total, prop_of. simpl.
    by rewrite (lookup_mono _ _ Hp56 _ _ Ha), (lookup_mono _ _ Hp56 _ _ Hb). }
  assert (HT : T = totalAll (sortedTotals rs)).
  { unfold T, totalAll, Num.sum. apply totalAll_read.
    eapply Forall2_impl; [exact Hsorted|]. intros v e (l & -> & Hl & _).
    exists l. split; [done|]. by eapply lookup_mono. }
  (* the loop of the percents *)
  assert (Hlocs : loc_of <$> sorted ≡ₚ seq (length h1) (length M)).
  { unfold sorted. rewrite (sort_perm _ refs). unfold refs. by rewrite refs_from_locs. }
  assert (Hlen5 : length h5 = (length h1 + length M)%nat).
  { unfold h5. by rewrite length_app, length_map. }
  assert (Hrange : forall x, x ∈ sorted -> (length h1 <= loc_of x < length h5)%nat).
  { intros x Hx. apply (list_elem_of_fmap_2 loc_of) in Hx. rewrite Hlocs in Hx.
    apply elem_of_seq in Hx. lia. }
  assert (Hobj7 : forall x, x ∈ sorted -> exists l p, x = HRef l /\ h7 !! l = Some (OObject p)).
  { intros x Hx. apply list_elem_of_lookup in Hx as [i Hi].
    destruct (Forall2_lookup_l _ _ _ _ _ Hsorted Hi) as (e & _ & l & -> & Hl & _).
    exists l, [("product", to_hval (fst e)); ("total_sales", HNum (snd e))].
    split; [done|]. by eapply lookup_mono. }
  destruct (forM_h_update sorted (setPercent_h T) loc_of (fun _ => with_percent T)
              (fun h' => h1 `prefix_of` h' /\
                         forall x, x ∈ sorted -> exists l p, x = HRef l /\ h' !! l = Some (OObject p))
              h7) as (h8 & Hrun8 & [Hp8 _] & Hlen8 & Hin8 & Hout8).
  { rewrite Hlocs. apply NoDup_seq. }
  { split; [by etrans|done]. }
  { intros x Hx. destruct (Hobj7 x Hx) as (l & p & -> & Hl). simpl. by rewrite Hl. }
  { intros x h' o Hx [Hp' Hobj'] Ho.
    destruct (Hobj' x Hx) as (l & p & -> & Hl). simpl in Ho. rewrite Hl in Ho.
    injection Ho as <-. simpl loc_of. split; [by apply setPercent_h_run|].
    split.
    - apply prefix_insert; [done|]. apply (Hrange (HRef l) Hx).
    - intros y Hy. destruct (Hobj' y Hy) as (l' & p' & -> & Hl').
      destruct (decide (l = l')) as [<-|Hne].
      + eexists l, _. split; [done|].
        rewrite list_lookup_insert_eq by (by eapply lookup_lt_Some). done.
      + exists l', p'. split; [done|]. by rewrite list_lookup_insert_ne. }
  assert (Hp : h `prefix_of` h8).
  { etrans; [|exact Hp8]. by apply prefix_app_r. }
  destruct Hp as [s Hs].
  exists s, (length h5). split.
  - unfold productTotals_h.
    erewrite bind_run by apply alloc_run.
    erewrite bind_run;
      [|by unfold load_array; rewrite (elems_of_mono h _ (prefix_app_r h h [_] (reflexivity h)) _ _ Hes)].
    erewrite bind_run by (by apply (forM_addProduct_run h es rs [])).
    erewrite bind_run; [|by unfold load_map, entries_of; rewrite lookup_alloc].
    erewrite bind_run by apply mapM_newTotal_run.
    erewrite bind_run by apply alloc_run.
    erewrite bind_run by (apply (array_sort_run _ _ refs); apply lookup_alloc).
    rewrite insert_last.
    erewrite bind_run; [|by unfold load_array; simpl; rewrite lookup_alloc].
    erewrite bind_run; [|done].
    erewrite bind_run by exact Hrun8.
    unfold ret. by rewrite Hs.
  - rewrite <- Hs. exists sorted. split.
    + simpl. rewrite Hout8.
      * unfold h7. by rewrite lookup_alloc.
      * rewrite Hlocs. intros Hin. apply elem_of_seq in Hin. lia.
    + unfold withPercent. apply Forall2_fmap_r.
      assert (Hgood : Forall (fun e => good h (fst e)) (sortedTotals rs)).
      { unfold sortedTotals. rewrite (sort_perm _ (productTotals rs)).
        apply productTotals_good.
        eapply Forall2_Forall_r; [exact Hrs|]. apply Forall_forall.
        by intros v _ r (l & dl & _ & _ & _ & Hg). }
      apply Forall2_same_length_lookup. split; [by eapply Forall2_length|].
      intros i v e Hv He.
      destruct (Forall2_lookup_l _ _ _ _ _ Hsorted Hv) as (e' & He' & l & -> & Hl & _).
      rewrite He in He'. injection He' as <-.
      exists l. split; [done|]. split.
      * pose proof (Hin8 (HRef l) ltac:(by eapply list_elem_of_lookup_2)) as Hl8.
        simpl in Hl8. rewrite Hl8, (lookup_mono _ _ Hp57 _ _ Hl). simpl. by rewrite HT.
      * simpl. rewrite Forall_forall in Hgood.
        eapply good_mono; [|apply Hgood; by eapply list_elem_of_lookup_2].
        by exists s.
Qed.

End ProductsPhase.


(** ** The monthly buckets in the store *)

Definition month_obj (b : MonthlyRow) : obj :=
  OObject ([("key", HStr (key b)); ("sales", HNum (m_sales b));
            ("transactions", HNum (Num.of_Z (transactions b)))]
           ++ match pct_change b with
              | Some x => [("pct_change", HNum x)]
              | None => []
              end).

(** The entries of the [Map] of buckets: the bucket of the [i]-th key is
    the [i]-th object made, from location [n]. *)
Fixpoint ment (n : nat) (m : list (string * MonthlyRow)) : list (hval * hval) :=
  match m with
  | [] => []
  | e :: m' => (HStr (fst e), HRef n) :: ment (S n) m'
  end.

Lemma ment_app (n : nat) (m : list (string * MonthlyRow)) (e : string * MonthlyRow) :
  ment n (m ++ [e]) = ment n m ++ [(HStr (fst e), HRef (n + length m)%nat)].
Proof.
  revert n. induction m as [|e0 m IH]; intros n; simpl.
  - by rewrite Nat.add_0_r.
  - rewrite IH. by replace (S n + length m)%nat with (n + S (length m))%nat by lia.
Qed.

Lemma ment_insert (n i : nat) (m : list (string * MonthlyRow)) (k : string) (b b' : MonthlyRow) :
  m !! i = Some (k, b) -> ment n (<[i := (k, b')]> m) = ment n m.
Proof.
  revert n i. induction m as [|e0 m IH]; intros n [|i]; simpl; try done.
  - by intros [= ->].
  - intros Hi. by rewrite (IH _ _ Hi).
Qed.

Lemma ment_values (n : nat) (m : list (string * MonthlyRow)) :
  map snd (ment n m) = refs_from n (length m).
Proof.
  revert n. induction m as [|e0 m IH]; intros n; simpl; [done|].
  by rewrite IH.
Qed.

Lemma month_get_present (n : nat) (k : string) (m : list (string * MonthlyRow)) (cur : MonthlyRow) :
  map_get String.eqb k m = Some cur ->
  exists i, m !! i = Some (k, cur) /\
    (forall v, map_set String.eqb k v m = <[i := (k, v)]> m) /\
    map_get SameValueZero_h (HStr k) (ment n m) = Some (HRef (n + i)%nat) /\
    map_set SameValueZero_h (HStr k) (HRef (n + i)%nat) (ment n m) = ment n m.
Proof.
  revert n. induction m as [|[k0 b0] m IH]; intros n; simpl; [done|].
  destruct (String.eqb_spec k0 k) as [->|Hne].
  - intros [= ->]. exists 0%nat. rewrite Nat.add_0_r. done.
  - intros Hg. destruct (IH (S n) Hg) as (i & Hi & Hset & Hget & Hset').
    exists (S i). replace (n + S i)%nat with (S n + i)%nat by lia.
    split; [done|]. split; [|split; [done|by rewrite Hset']].
    intros v. simpl. by rewrite Hset.
Qed.

Lemma month_get_absent (n : nat) (k : string) (m : list (string * MonthlyRow)) (x : hval) :
  map_get String.eqb k m = None ->
  map_get SameValueZero_h (HStr k) (ment n m) = None /\
  map_set SameValueZero_h (HStr k) x (ment n m) = ment n m ++ [(HStr k, x)].
Proof.
  revert n. induction m as [|[k0 b0] m IH]; intros n; simpl; [done|].
  destruct (String.eqb k0 k); [done|].
  intros Hg. destruct (IH (S n) Hg) as [-> ->]. done.
Qed.

Lemma lookup_bucket (h objs : store) (x : obj) (i : nat) :
  (h ++ x :: objs) !! S (length h + i) = objs !! i.
Proof.
  rewrite lookup_app_r by lia.
  by replace (S (length h + i) - length h)%nat with (S i) by lia.
Qed.

Lemma insert_bucket (h objs : store) (x o : obj) (i : nat) :
  <[S (length h + i) := o]> (h ++ x :: objs) = h ++ x :: <[i := o]> objs.
Proof.
  rewrite insert_app_r_alt by lia.
  by replace (S (length h + i) - length h)%nat with (S i) by lia.
Qed.

Lemma lookup_map_obj (h objs : store) (x : obj) : (h ++ x :: objs) !! length h = Some x.
Proof. rewrite lookup_app_r by lia. by rewrite Nat.sub_diag. Qed.

Lemma insert_map_obj (h objs : store) (x x' : obj) :
  <[length h := x']> (h ++ x :: objs) = h ++ x' :: objs.
Proof. rewrite insert_app_r_alt by lia. by rewrite Nat.sub_diag. Qed.

(** A bucket of the loop: it has no [pct_change] yet. *)
Definition open_obj (k : string) (s t : num) : obj :=
  OObject [("key", HStr k); ("sales", HNum s); ("transactions", HNum t)].

Definition bucket_objs (m : list (string * MonthlyRow)) : list obj :=
  (fun e => month_obj (snd e)) <$> m.

(** A bucket that has counted at most [c] rows. *)
Definition open_bucket (c : Z) (e : string * MonthlyRow) : Prop :=
  pct_change (snd e) = None /\ 0 <= transactions (snd e) <= c.

Lemma month_obj_open (b : MonthlyRow) :
  pct_change b = None ->
  month_obj b = open_obj (key b) (m_sales b) (Num.of_Z (transactions b)).
Proof. intros Hb. unfold month_obj. by rewrite Hb. Qed.

Lemma one_of_Z : Num.one = Num.of_Z 1.
Proof. reflexivity. Qed.

Lemma zero_of_Z : Num.zero = Num.of_Z 0.
Proof. reflexivity. Qed.

Lemma count_up (t : Z) :
  0 <= t < 2 ^ 52 -> Num.add (Num.of_Z t) Num.one = Num.of_Z (t + 1).
Proof.
  intros Ht. rewrite one_of_Z. apply NumFacts.add_of_Z; unfold NumFacts.small; lia.
Qed.

Lemma open_sales (h : store) (l : loc) (k : string) (s t : num) :
  h !! l = Some (open_obj k s t) -> prop_of h (HRef l) "sales" = HNum s.
Proof. intros Hl. unfold prop_of. simpl. by rewrite Hl. Qed.

Lemma open_transactions (h : store) (l : loc) (k : string) (s t : num) :
  h !! l = Some (open_obj k s t) -> prop_of h (HRef l) "transactions" = HNum t.
Proof. intros Hl. unfold prop_of. simpl. by rewrite Hl. Qed.

Lemma set_sales_run (h : store) (l : loc) (k : string) (s t x : num) :
  h !! l = Some (open_obj k s t) ->
  set_prop (HRef l) "sales" (HNum x) h = Some (tt, <[l := open_obj k x t]> h).
Proof. intros Hl. by rewrite (set_prop_run _ _ _ _ _ Hl). Qed.

Lemma set_transactions_run (h : store) (l : loc) (k : string) (s t x : num) :
  h !! l = Some (open_obj k s t) ->
  set_prop (HRef l) "transactions" (HNum x) h = Some (tt, <[l := open_obj k s x]> h).
Proof. intros Hl. by rewrite (set_prop_run _ _ _ _ _ Hl). Qed.

Section MonthlyLoop.
Context `{Host}.

(** [cur.sales += r.sales; cur.transactions += 1; monthlyMap.set(key, cur)]
    on the bucket at [l]. *)
Lemma bump_bucket_run (st : store) (n l : loc) (es : list (hval * hval))
    (kk k : string) (s t : num) (r : hval) (row : Row) :
  row_at st r row -> st !! n = Some (OMap es) -> st !! l = Some (open_obj k s t) ->
  (let* h1 := get_store in
   do* set_prop (HRef l) "sales"
         (HNum (Num.add (num_of (prop_of h1 (HRef l) "sales"))
                        (num_of (prop_of h1 r "sales")))) in
   let* h2 := get_store in
   do* set_prop (HRef l) "transactions"
         (HNum (Num.add (num_of (prop_of h2 (HRef l) "transactions")) Num.one)) in
   let* es' := load_map n in
   write n (OMap (map_set SameValueZero_h (HStr kk) (HRef l) es'))) st
  = Some (tt, <[n := OMap (map_set SameValueZero_h (HStr kk) (HRef l) es)]>
                (<[l := open_obj k (Num.add s (sales row)) (Num.add t Num.one)]> st)).
Proof.
  intros Hr Hn Hl.
  assert (Hln : l <> n) by (intros ->; unfold open_obj in Hl; congruence).
  assert (Hlt : (l < length st)%nat) by (by eapply lookup_lt_Some).
  erewrite bind_run; [|done].
  rewrite (open_sales _ _ _ _ _ Hl), (row_at_sales _ _ _ Hr). simpl num_of.
  erewrite bind_run; [|by apply (set_sales_run _ _ _ _ _ _ Hl)].
  set (st1 := <[l := open_obj k (Num.add s (sales row)) t]> st).
  assert (Hl1 : st1 !! l = Some (open_obj k (Num.add s (sales row)) t)).
  { unfold st1. by apply list_lookup_insert_eq. }
  erewrite bind_run; [|done].
  rewrite (open_transactions _ _ _ _ _ Hl1). simpl num_of.
  erewrite bind_run; [|by apply (set_transactions_run _ _ _ _ _ _ Hl1)].
  unfold st1. rewrite list_insert_insert_eq.
  erewrite bind_run.
  2:{ unfold load_map, entries_of. rewrite list_lookup_insert_ne by done. by rewrite Hn. }
  apply write_run. rewrite length_insert. by eapply lookup_lt_Some.
Qed.

Lemma addMonth_h_run (h : store) (m : list (string * MonthlyRow)) (c : Z)
    (r : hval) (row : Row) :
  row_at h r row -> Forall (open_bucket c) m -> 0 <= c < 2 ^ 52 ->
  addMonth_h (length h) r (h ++ OMap (ment (S (length h)) m) :: bucket_objs m)
  = Some (tt, h ++ OMap (ment (S (length h)) (addMonth m row))
                :: bucket_objs (addMonth m row)) /\
  Forall (open_bucket (c + 1)) (addMonth m row).
Proof.
  intros Hr Hm Hc.
  set (n := length h).
  set (st := h ++ OMap (ment (S n) m) :: bucket_objs m).
  assert (Hr' : row_at st r row).
  { eapply row_at_mono; [|exact Hr]. by apply prefix_app_r. }
  assert (Hn : st !! n = Some (OMap (ment (S n) m))) by apply lookup_map_obj.
  assert (Hweak : Forall (open_bucket (c + 1)) m).
  { eapply Forall_impl; [exact Hm|]. intros e [? ?]. split; [done|lia]. }
  unfold addMonth_h. erewrite bind_run; [|done].
  rewrite (row_at_time _ _ _ Hr').
  erewrite bind_run; [|by unfold load_map, entries_of; rewrite Hn].
  unfold getMonth_h, addMonth.
  set (k := monthKey (date row)).
  destruct (map_get String.eqb k m) as [cur|] eqn:Hg.
  - destruct (month_get_present (S n) _ _ _ Hg) as (i & Hi & Hset & Hget & Hset').
    destruct (proj1 (Forall_lookup _ _) Hm _ _ Hi) as [Hpc Ht]. simpl in Hpc, Ht.
    rewrite Hget. erewrite bind_run; [|done].
    assert (Hl : st !! (S n + i)%nat
                 = Some (open_obj (key cur) (m_sales cur) (Num.of_Z (transactions cur)))).
    { unfold st, n. simpl. rewrite lookup_bucket. unfold bucket_objs.
      rewrite list_lookup_fmap, Hi. simpl. by rewrite month_obj_open. }
    rewrite (bump_bucket_run _ _ _ _ _ _ _ _ _ _ Hr' Hn Hl).
    rewrite Hset', Hset. split.
    + do 2 f_equal. unfold st, n. simpl. rewrite insert_bucket, insert_map_obj.
      erewrite ment_insert by exact Hi. do 2 f_equal.
      unfold bucket_objs. rewrite list_fmap_insert. simpl. f_equal.
      rewrite month_obj_open by done. simpl. by rewrite count_up by lia.
    + apply Forall_insert; [done|]. split; simpl; [done|lia].
  - destruct (month_get_absent (S n) _ _ (HRef (length st)) Hg) as [Hget Hset'].
    rewrite Hget. rewrite (map_set_absent _ _ _ _ Hg).
    erewrite bind_run; [|by erewrite bind_run by apply alloc_run].
    assert (Hp : st `prefix_of` st ++ [open_obj k Num.zero Num.zero]) by (by apply prefix_app_r).
    rewrite (bump_bucket_run _ _ _ _ _ _ _ _ _ _
               (row_at_mono _ _ _ _ Hp Hr') (lookup_mono _ _ Hp _ _ Hn) (lookup_alloc _ _)).
    rewrite Hset'. split.
    + do 2 f_equal. rewrite insert_last. unfold st, n.
      rewrite <- app_assoc. simpl. rewrite insert_map_obj.
      rewrite ment_app. simpl. unfold bucket_objs. rewrite fmap_app. simpl.
      rewrite length_app. simpl. rewrite length_fmap.
      replace (length h + S (length m))%nat with (S (length h + length m)) by lia.
      repeat f_equal.
    + apply Forall_app. split; [done|]. apply Forall_singleton. split; simpl; [done|lia].
Qed.

End MonthlyLoop.

Lemma trunc_of_Z (z : Z) : 0 <= z < 2 ^ 53 -> Num.trunc (Num.of_Z z) = Some z.
Proof.
  intros Hz. unfold Num.trunc.
  rewrite NumFacts.Prim2SF_of_Z by (unfold NumFacts.small; lia).
  destruct z as [|n|n]; [done| |lia]. simpl.
  pose proof (NumFacts.norm_e_range n ltac:(lia)) as He.
  destruct (NumFacts.norm_m_spec n ltac:(lia)) as [Hm _].
  destruct (NumFacts.norm_e n) as [|k|k] eqn:Hk; [|lia|].
  - rewrite Z.shiftl_0_r, Hm. simpl. f_equal. lia.
  - rewrite Z.shiftr_div_pow2 by lia. rewrite Hm. simpl Z.opp.
    rewrite Z.div_mul; [done|]. apply Z.pow_nonzero; lia.
Qed.

Lemma map_get_set_other {V} (k k' : string) (v : V) (m : list (string * V)) :
  k <> k' -> map_get String.eqb k' (map_set String.eqb k v m) = map_get String.eqb k' m.
Proof.
  intros Hne. induction m as [|[k0 v0] m IH]; simpl.
  - by rewrite (proj2 (String.eqb_neq _ _) Hne).
  - destruct (String.eqb_spec k0 k) as [->|Hk]; simpl.
    + by rewrite (proj2 (String.eqb_neq _ _) Hne).
    + by rewrite IH.
Qed.

(** The bucket that [v] refers to in the result. *)
Definition month_at (h : store) (v : hval) (b : MonthlyRow) : Prop :=
  exists l, v = HRef l /\ h !! l = Some (month_obj b) /\ 0 <= transactions b < 2 ^ 52.

Definition months_at (h : store) (v : hval) (bs : list MonthlyRow) : Prop :=
  exists es, elems_of h v = Some es /\ Forall2 (month_at h) es bs.

Lemma month_at_mono (h h' : store) (v : hval) (b : MonthlyRow) :
  h `prefix_of` h' -> month_at h v b -> month_at h' v b.
Proof.
  intros Hp (l & -> & Hl & Ht). exists l. split; [done|]. split; [by eapply lookup_mono|done].
Qed.

Lemma months_at_mono (h h' : store) (v : hval) (bs : list MonthlyRow) :
  h `prefix_of` h' -> months_at h v bs -> months_at h' v bs.
Proof.
  intros Hp (es & Hes & Hbs). exists es. split; [by eapply elems_of_mono|].
  eapply Forall2_impl; [exact Hbs|]. intros v' b. by apply month_at_mono.
Qed.

Lemma month_at_sales (h : store) (v : hval) (b : MonthlyRow) :
  month_at h v b -> prop_of h v "sales" = HNum (m_sales b).
Proof. intros (l & -> & Hl & _). unfold prop_of. simpl. by rewrite Hl. Qed.

Lemma month_at_snap (h : store) (v : hval) (b : MonthlyRow) :
  month_at h v b -> snap_month h v = Some b.
Proof.
  intros (l & -> & Hl & Ht). unfold snap_month. simpl. rewrite Hl. simpl.
  unfold get_num. simpl. rewrite trunc_of_Z by lia. simpl.
  destruct b as [k s t [x|]]; done.
Qed.

(** [b] once the loop has given it a [pct_change]. *)
Definition with_pct (x : num) (b : MonthlyRow) : MonthlyRow :=
  {| key := key b; m_sales := m_sales b; transactions := transactions b;
     pct_change := Some x |}.

Definition sales_at (bs : list MonthlyRow) (i : nat) : num :=
  from_option m_sales Num.zero (bs !! i).

Lemma pctLoop_lookup (prev : num) (l : list MonthlyRow) (i : nat) (b : MonthlyRow) :
  l !! i = Some b ->
  pctLoop prev l !! i
  = Some (with_pct (pctChange (match i with O => prev | S j => sales_at l j end) (m_sales b)) b).
Proof.
  revert prev i. induction l as [|a l IH]; intros prev [|i]; simpl; try done.
  - by intros [= ->].
  - intros Hi. rewrite (IH _ _ Hi). destruct i as [|i]; done.
Qed.

Lemma withPctChange_lookup (l : list MonthlyRow) (i : nat) (b : MonthlyRow) :
  l !! S i = Some b ->
  withPctChange l !! S i = Some (with_pct (pctChange (sales_at l i) (m_sales b)) b).
Proof.
  destruct l as [|a l]; simpl; [done|]. intros Hi.
  rewrite (pctLoop_lookup _ _ _ _ Hi). destruct i as [|i]; done.
Qed.

Lemma withPctChange_first (l : list MonthlyRow) : withPctChange l !! 0%nat = l !! 0%nat.
Proof. by destruct l. Qed.

Lemma withPctChange_length (l : list MonthlyRow) : length (withPctChange l) = length l.
Proof.
  destruct (withPctChange_fields l) as (Hk & _).
  apply (f_equal length) in Hk. by rewrite !length_map in Hk.
Qed.

(** What [monthly[i].pct_change = x] does to the object of the bucket. *)
Definition set_pct (x : num) (o : obj) : obj :=
  match o with
  | OObject p => OObject (map_set String.eqb "pct_change" (HNum x) p)
  | _ => o
  end.

Lemma set_pct_open (x : num) (b : MonthlyRow) :
  pct_change b = None -> set_pct x (month_obj b) = month_obj (with_pct x b).
Proof. intros Hb. unfold month_obj. rewrite Hb. done. Qed.

Section MonthlyPhase.
Context `{Host}.

Lemma forM_addMonth_run (h : store) (es : list hval) (rs : list Row)
    (m : list (string * MonthlyRow)) (c : Z) :
  Forall2 (row_at h) es rs -> Forall (open_bucket c) m ->
  0 <= c -> c + Z.of_nat (length rs) < 2 ^ 52 ->
  forM_h es (addMonth_h (length h)) (h ++ OMap (ment (S (length h)) m) :: bucket_objs m)
  = Some (tt, h ++ OMap (ment (S (length h)) (fold_left addMonth rs m))
                :: bucket_objs (fold_left addMonth rs m)) /\
  Forall (open_bucket (c + Z.of_nat (length rs))) (fold_left addMonth rs m).
Proof.
  intros Hrs. revert m c.
  induction Hrs as [|e r es rs Hr _ IH]; intros m c Hm Hc0 Hc.
  - simpl. split; [done|]. by rewrite Z.add_0_r.
  - rewrite length_cons, Nat2Z.inj_succ in Hc |- *.
    destruct (addMonth_h_run h m c e r Hr Hm ltac:(lia)) as [Hrun Hm'].
    destruct (IH (addMonth m r) (c + 1) Hm' ltac:(lia) ltac:(lia)) as [Hrun' Hm''].
    split.
    + simpl. by erewrite bind_run by exact Hrun.
    + simpl. by replace (c + Z.succ (Z.of_nat (length rs)))
        with (c + 1 + Z.of_nat (length rs)) by lia.
Qed.

(** The buckets of the [Map], as the sort and the loop find them. *)
Definition bucket_at (h : store) (lo hi : nat) (v : hval) (b : MonthlyRow) : Prop :=
  exists l, v = HRef l /\ h !! l = Some (month_obj b) /\ pct_change b = None /\
            0 <= transactions b < 2 ^ 52 /\ (lo <= l < hi)%nat.

Lemma bucket_lookup (h s : store) (x : obj) (m : list (string * MonthlyRow)) (c : Z) :
  Forall (open_bucket c) m -> c < 2 ^ 52 ->
  Forall2 (bucket_at (h ++ x :: bucket_objs m ++ s) (S (length h)) (S (length h) + length m))
          (refs_from (S (length h)) (length m)) (map snd m).
Proof.
  intros Hm Hc. apply Forall2_same_length_lookup. split.
  { unfold refs_from. by rewrite length_fmap, length_seq, length_map. }
  intros i v b Hv Hb. unfold refs_from in Hv. rewrite list_lookup_fmap in Hv.
  apply fmap_Some in Hv as (l & Hl & ->). apply lookup_seq in Hl as [-> Hi].
  change (map snd m) with (snd <$> m) in Hb. rewrite list_lookup_fmap in Hb.
  apply fmap_Some in Hb as (e & He & ->).
  destruct (proj1 (Forall_lookup _ _) Hm _ _ He) as [Hpc Ht].
  exists (S (length h) + i)%nat. split; [done|]. split; [|split; [done|split; lia]].
  simpl. rewrite lookup_bucket.
  rewrite lookup_app_l by (unfold bucket_objs; by rewrite length_fmap).
  unfold bucket_objs. by rewrite list_lookup_fmap, He.
Qed.

Lemma key_after_h_spec (h : store) (lo hi : nat) (a b : hval) (ba bb : MonthlyRow) :
  bucket_at h lo hi a ba -> bucket_at h lo hi b bb -> key_after_h h a b = key_after ba bb.
Proof.
  intros (la & -> & Ha & Hpa & _) (lb & -> & Hb & Hpb & _).
  unfold key_after_h, key_after, prop_of. simpl. rewrite Ha, Hb.
  by rewrite !month_obj_open.
Qed.

(** The loop of the percentage changes writes [pct_change] into every
    bucket but the first, from the sales of the bucket before it. *)
Lemma pct_loop_run (h0 st : store) (lo hi : nat) (ms : list hval) (bs : list MonthlyRow) :
  Forall2 (bucket_at st lo hi) ms bs -> NoDup (loc_of <$> ms) ->
  h0 `prefix_of` st -> (length h0 <= lo)%nat ->
  exists st', forM_h (seq 1 (length ms - 1)) (setPct_h ms) st = Some (tt, st') /\
              h0 `prefix_of` st' /\ length st' = length st /\
              (forall l, ~ (lo <= l < hi)%nat -> st' !! l = st !! l) /\
              Forall2 (month_at st') ms (withPctChange bs).
Proof.
  intros Hms Hnd Hp0 Hlo.
  set (at_ := fun i : nat => loc_of (default HUndefined (ms !! i))).
  set (g := fun i : nat => set_pct (pctChange (sales_at bs (i - 1)) (sales_at bs i))).
  set (xs := seq 1 (length ms - 1)).
  assert (Hlook : forall i v, ms !! i = Some v ->
            exists l b, v = HRef l /\ at_ i = l /\ bs !! i = Some b /\
                        st !! l = Some (month_obj b) /\ pct_change b = None /\
                        0 <= transactions b < 2 ^ 52 /\ (lo <= l < hi)%nat).
  { intros i v Hv.
    destruct (Forall2_lookup_l _ _ _ _ _ Hms Hv) as (b & Hb & l & -> & Hl & Hpc & Ht & Hr).
    exists l, b. unfold at_. rewrite Hv. done. }
  assert (Hxs : forall i, i ∈ xs -> (1 <= i < length ms)%nat).
  { intros i Hi. apply elem_of_seq in Hi. lia. }
  assert (Hinj : forall i j vi vj, ms !! i = Some vi -> ms !! j = Some vj ->
                                   at_ i = at_ j -> i = j).
  { intros i j vi vj Hi Hj Heq.
    destruct (Hlook i vi Hi) as (li & bi & -> & Hai & _).
    destruct (Hlook j vj Hj) as (lj & bj & -> & Haj & _).
    apply (NoDup_lookup _ i j li Hnd).
    - by rewrite list_lookup_fmap, Hi.
    - rewrite list_lookup_fmap, Hj. simpl. congruence. }
  destruct (forM_h_update xs (setPct_h ms) at_ g
              (fun h' => h0 `prefix_of` h' /\
                 forall j l, ms !! j = Some (HRef l) ->
                   exists p, h' !! l = Some (OObject p) /\
                             map_get String.eqb "sales" p = Some (HNum (sales_at bs j)))
              st) as (st' & Hrun & [Hp' _] & Hlen & Hin & Hout).
  { apply NoDup_fmap_2_strong; [|apply NoDup_seq].
    intros i j Hi Hj Heq. apply Hxs in Hi, Hj.
    destruct (lookup_lt_is_Some_2 ms i ltac:(lia)) as [vi Hvi].
    destruct (lookup_lt_is_Some_2 ms j ltac:(lia)) as [vj Hvj].
    by eapply Hinj. }
  { split; [done|]. intros j l Hj.
    destruct (Hlook j _ Hj) as (l' & b & [= <-] & _ & Hb & Hl & Hpc & _).
    rewrite month_obj_open in Hl by done. eexists. split; [exact Hl|].
    unfold sales_at. by rewrite Hb. }
  { intros i Hi. apply Hxs in Hi.
    destruct (lookup_lt_is_Some_2 ms i ltac:(lia)) as [vi Hvi].
    destruct (Hlook i vi Hvi) as (l & b & -> & -> & _ & Hl & _). by rewrite Hl. }
  { intros i h' o Hi [Hph Hobj] Ho. apply Hxs in Hi.
    destruct (lookup_lt_is_Some_2 ms (i - 1) ltac:(lia)) as [vp Hvp].
    destruct (lookup_lt_is_Some_2 ms i ltac:(lia)) as [vc Hvc].
    destruct (Hlook _ vp Hvp) as (lp & bp & -> & _).
    destruct (Hlook _ vc Hvc) as (lc & bc & -> & Hat & _ & _ & _ & _ & Hrc).
    destruct (Hobj _ _ Hvp) as (pp & Hlp & Hsp).
    destruct (Hobj _ _ Hvc) as (pc & Hlc & Hsc).
    rewrite Hat in Ho |- *. rewrite Hlc in Ho. injection Ho as <-.
    split.
    - unfold setPct_h. erewrite bind_run; [|done]. rewrite Hvp, Hvc.
      rewrite (set_prop_run _ _ _ _ _ Hlc).
      unfold prop_of. simpl. rewrite Hlp, Hlc. simpl. rewrite Hsp, Hsc. done.
    - split; [apply prefix_insert; [done|lia]|].
      intros j l Hj. destruct (decide (l = lc)) as [->|Hne].
      + destruct (Hobj _ _ Hj) as (p' & Hl' & Hs'). rewrite Hlc in Hl'. injection Hl' as <-.
        eexists. split; [apply list_lookup_insert_eq; by eapply lookup_lt_Some|].
        by rewrite map_get_set_other.
      + rewrite list_lookup_insert_ne by done. by apply Hobj. }
  exists st'. split; [done|]. split; [done|]. split; [done|]. split.
  - intros l Hl. apply Hout. intros Hel.
    apply list_elem_of_fmap in Hel as (i & -> & Hi). apply Hxs in Hi.
    destruct (lookup_lt_is_Some_2 ms i ltac:(lia)) as [vi Hvi].
    destruct (Hlook i vi Hvi) as (l & b & _ & Hat & _ & _ & _ & _ & Hr). lia.
  - apply Forall2_same_length_lookup. split.
    { rewrite withPctChange_length. by eapply Forall2_length. }
    intros i v b' Hv Hb'.
    destruct (Hlook i v Hv) as (l & b & -> & Hat & Hb & Hl & Hpc & Ht & Hr).
    exists l. split; [done|]. destruct i as [|j].
    + rewrite withPctChange_first, Hb in Hb'. injection Hb' as <-.
      split; [|done]. rewrite Hout; [done|].
      intros Hel. apply list_elem_of_fmap in Hel as (i & Hati & Hi). apply Hxs in Hi.
      destruct (lookup_lt_is_Some_2 ms i ltac:(lia)) as [vi Hvi].
      assert (0%nat = i); [|lia]. eapply Hinj; [exact Hv|exact Hvi|congruence].
    + rewrite (withPctChange_lookup _ _ _ Hb) in Hb'. injection Hb' as <-.
      split; [|done].
      assert (Hj : S j ∈ xs).
      { apply elem_of_seq. apply lookup_lt_Some in Hv. lia. }
      pose proof (Hin _ Hj) as Hl'. rewrite Hat, Hl in Hl'. rewrite Hl'.
      change (g (S j) <$> Some (month_obj b)) with (Some (g (S j) (month_obj b))).
      unfold g. replace (S j - 1)%nat with j by lia.
      rewrite set_pct_open by done. unfold sales_at at 2. by rewrite Hb.
Qed.

Lemma bucket_at_mono (h h' : store) (lo hi : nat) (v : hval) (b : MonthlyRow) :
  h `prefix_of` h' -> bucket_at h lo hi v b -> bucket_at h' lo hi v b.
Proof.
  intros Hp (l & -> & Hl & Hrest). exists l. split; [done|].
  split; [by eapply lookup_mono|done].
Qed.

(** The third phase: the array of the monthly buckets, sorted by key, with
    their percentage changes; the [Map], the buckets and the array are
    new. *)
Lemma monthly_h_run (h : store) (rowsv : hval) (rs : list Row) :
  rows_at h rowsv rs -> Z.of_nat (length rs) < 2 ^ 52 ->
  exists s lm, monthly_h rowsv h = Some (HRef lm, h ++ s) /\
               months_at (h ++ s) (HRef lm) (withPctChange (monthlySorted rs)).
Proof.
  intros (es & Hes & Hrs) Hlen.
  set (n := length h). set (M := monthlyMap rs).
  set (st2 := h ++ OMap (ment (S n) M) :: bucket_objs M).
  set (refs := refs_from (S n) (length M)).
  set (st3 := st2 ++ [OArray refs]).
  set (ms := sort (key_after_h st3) refs).
  set (st4 := st2 ++ [OArray ms]).
  destruct (forM_addMonth_run h es rs [] 0 Hrs ltac:(constructor) ltac:(lia) ltac:(lia))
    as [Hloop Hopen].
  fold M n in Hloop, Hopen. fold st2 in Hloop.
  assert (Hla : length st2 = (S n + length M)%nat).
  { unfold st2, bucket_objs. rewrite length_app. simpl. rewrite length_fmap. unfold n. lia. }
  assert (Hp23 : st2 `prefix_of` st3) by (by apply prefix_app_r).
  assert (Hp24 : st2 `prefix_of` st4) by (by apply prefix_app_r).
  assert (Hrefs : Forall2 (bucket_at st2 (S n) (length st2)) refs (map snd M)).
  { pose proof (bucket_lookup h [] (OMap (ment (S n) M)) M _ Hopen ltac:(lia)) as Hb.
    rewrite app_nil_r in Hb. by rewrite Hla. }
  assert (Hsorted : Forall2 (bucket_at st4 (S n) (length st2)) ms (monthlySorted rs)).
  { eapply Forall2_impl; [|intros v b; apply (bucket_at_mono _ _ _ _ _ _ Hp24)].
    apply sort_Forall2; [|exact Hrefs].
    intros a b ba bb Ha Hb.
    eapply key_after_h_spec; eapply bucket_at_mono; eauto. }
  assert (Hnd : NoDup (loc_of <$> ms)).
  { unfold ms. rewrite (sort_perm _ refs). unfold refs. rewrite refs_from_locs.
    apply NoDup_seq. }
  destruct (pct_loop_run h st4 (S n) (length st2) ms (monthlySorted rs) Hsorted Hnd)
    as (st5 & Hrun & Hp5 & Hlen5 & Hout & Hres).
  { etrans; [|exact Hp24]. by apply prefix_app_r. }
  { unfold n. lia. }
  destruct Hp5 as [s Hs].
  exists s, (length st2). split.
  - unfold monthly_h.
    erewrite bind_run by apply alloc_run.
    erewrite bind_run;
      [|by unfold load_array; rewrite (elems_of_mono h _ (prefix_app_r h h [_] (reflexivity h)) _ _ Hes)].
    erewrite bind_run by exact Hloop.
    erewrite bind_run; [|by unfold load_map, entries_of, st2; rewrite lookup_map_obj].
    rewrite ment_values.
    erewrite bind_run by apply alloc_run.
    erewrite bind_run by (apply (array_sort_run _ _ refs); apply lookup_alloc).
    rewrite insert_last.
    erewrite bind_run; [|by unfold load_array; simpl; rewrite lookup_alloc].
    erewrite bind_run by exact Hrun.
    unfold ret. by rewrite Hs.
  - rewrite <- Hs. exists ms. split; [|done].
    simpl. rewrite Hout by lia. unfold st4. by rewrite lookup_alloc.
Qed.

End MonthlyPhase.


(** ** The result *)

Definition result_obj (rv tv mv : hval) (out : Output) : obj :=
  OObject [("rows", rv); ("productTotalsArr", tv); ("monthly", mv);
           ("naive", HNum (naive out)); ("ma", HNum (ma out))].

(** [v] refers to an object that holds [out]: its three arrays, of the
    objects of the rows, of the totals and of the buckets, and the two
    baselines. *)
Definition output_at (h : store) (v : hval) (out : Output) : Prop :=
  exists l rv tv mv, v = HRef l /\ h !! l = Some (result_obj rv tv mv out) /\
    rows_at h rv (rows out) /\ totals_at h tv (productTotalsArr out) /\
    months_at h mv (monthly out).

Lemma output_at_mono (h h' : store) (v : hval) (out : Output) :
  h `prefix_of` h' -> output_at h v out -> output_at h' v out.
Proof.
  intros Hp (l & rv & tv & mv & -> & Hl & Hr & Ht & Hm). exists l, rv, tv, mv.
  split; [done|]. split; [by eapply lookup_mono|].
  split; [by eapply rows_at_mono|]. split; [by eapply totals_at_mono|by eapply months_at_mono].
Qed.

Lemma snap_array_Some {A} (f : store -> hval -> option A) (R : store -> hval -> A -> Prop)
    (h : store) (v : hval) (es : list hval) (xs : list A) :
  (forall e x, R h e x -> f h e = Some x) ->
  elems_of h v = Some es -> Forall2 (R h) es xs -> snap_array f h v = Some xs.
Proof.
  intros Hf Hes Hxs. unfold snap_array. rewrite Hes. simpl.
  apply mapM_Some_2. eapply Forall2_impl; [exact Hxs|]. done.
Qed.

(** Reading the result back gives the value of the pure function. *)
Lemma output_at_snap (h : store) (v : hval) (out : Output) :
  output_at h v out -> snap_output h v = Some out.
Proof.
  intros (l & rv & tv & mv & -> & Hl & (er & Her & Hr) & (et & Het & Ht) & (em & Hem & Hm)).
  unfold snap_output. simpl. rewrite Hl. simpl.
  rewrite (snap_array_Some snap_row row_at h rv er (rows out) (row_at_snap h) Her Hr).
  simpl.
  rewrite (snap_array_Some snap_total total_at h tv et _ (total_at_snap h) Het Ht).
  simpl.
  rewrite (snap_array_Some snap_month month_at h mv em _ (month_at_snap h) Hem Hm).
  simpl. by destruct out.
Qed.

Lemma omap_length_le {A B} (f : A -> option B) (l : list A) :
  (length (omap f l) <= length l)%nat.
Proof.
  induction l as [|x l IH]; [done|].
  change (omap f (x :: l)) with (match f x with Some y => y :: omap f l | None => omap f l end).
  destruct (f x); simpl; lia.
Qed.

Section ResultPhase.
Context `{Host}.

Lemma baselines_h_run (h : store) (mv : hval) (bs : list MonthlyRow) :
  months_at h mv bs ->
  exists s, baselines_h mv h
            = Some ((naiveOf (map m_sales bs), maOf (map m_sales bs)), h ++ s).
Proof.
  intros (es & Hes & Hbs). unfold baselines_h.
  erewrite bind_run; [|by unfold load_array; rewrite Hes].
  erewrite bind_run; [|done].
  assert (Hy : map (fun m => num_of (prop_of h m "sales")) es = map m_sales bs).
  { clear Hes. induction Hbs as [|e b es bs Hb _ IH]; simpl; [done|].
    by rewrite (month_at_sales _ _ _ Hb), IH. }
  rewrite Hy. erewrite bind_run by apply alloc_run.
  unfold maOf. destruct (Nat.min 3 (length (map m_sales bs))) as [|k].
  - by eexists.
  - erewrite bind_run by apply alloc_run. unfold ret. rewrite <- app_assoc. by eexists.
Qed.

(** The whole call: it succeeds, it only adds objects to the store, and
    the object it returns holds the value of [aggregate] on the records
    read from the store. *)
Lemma aggregate_h_run (h : store) (data : hval) (recs : list record) :
  input_at h data recs ->
  exists s l, aggregate_h data h = Some (HRef l, h ++ s) /\
              output_at (h ++ s) (HRef l) (aggregate recs).
Proof.
  intros Hin.
  assert (Hlen : Z.of_nat (length (sortRows (rowsUnsorted recs))) < 2 ^ 52).
  { destruct Hin as (es & _ & Hrecs & Hlen). apply Forall2_length in Hrecs.
    unfold sortRows, rowsUnsorted. rewrite sort_length.
    pose proof (omap_length_le toRow recs). lia. }
  destruct (rows_h_run h data recs Hin) as (s1 & lr & Hrun1 & Hrows).
  destruct (productTotals_h_run _ _ _ Hrows) as (s2 & lt & Hrun2 & Htotals).
  assert (Hrows2 : rows_at ((h ++ s1) ++ s2) (HRef lr) (sortRows (rowsUnsorted recs))).
  { eapply rows_at_mono; [|exact Hrows]. by apply prefix_app_r. }
  destruct (monthly_h_run _ _ _ Hrows2 Hlen) as (s3 & lm & Hrun3 & Hmonths).
  destruct (baselines_h_run _ _ _ Hmonths) as (s4 & Hrun4).
  set (h4 := (((h ++ s1) ++ s2) ++ s3) ++ s4) in *.
  assert (Hp3 : ((h ++ s1) ++ s2) `prefix_of` h4 ++ [result_obj (HRef lr) (HRef lt) (HRef lm)
                                                        (aggregate recs)]).
  { unfold h4. rewrite <- !app_assoc. apply prefix_app, prefix_app.
    by apply prefix_app_r. }
  exists (s1 ++ s2 ++ s3 ++ s4 ++ [result_obj (HRef lr) (HRef lt) (HRef lm) (aggregate recs)]),
         (length h4).
  replace (h ++ s1 ++ s2 ++ s3 ++ s4 ++ [result_obj (HRef lr) (HRef lt) (HRef lm) (aggregate recs)])
    with (h4 ++ [result_obj (HRef lr) (HRef lt) (HRef lm) (aggregate recs)])
    by (unfold h4; by rewrite <- !app_assoc).
  split.
  - unfold aggregate_h.
    erewrite bind_run by exact Hrun1. erewrite bind_run by exact Hrun2.
    erewrite bind_run by exact Hrun3. erewrite bind_run by exact Hrun4.
    erewrite bind_run by apply alloc_run. done.
  - exists (length h4), (HRef lr), (HRef lt), (HRef lm).
    split; [done|]. split; [apply lookup_alloc|]. split; [|split].
    + eapply rows_at_mono; [exact Hp3|done].
    + eapply totals_at_mono; [exact Hp3|done].
    + eapply months_at_mono; [|exact Hmonths]. unfold h4.
      rewrite <- (app_assoc _ s4). by apply prefix_app_r.
Qed.

End ResultPhase.

End Heap.

(** ** Sample inputs *)

(** A record as the parser gives it for a line with a date, a product, a
    quantity and a unit price. *)
Definition sale (oid : nat) (t : Z) (p : string) (u price : num) : record :=
  list_to_map [("date", VDate oid (Some t)); ("product", VStr p);
               ("units", VNum u); ("unit_price", VNum price)].

(** Midnight UTC of 2024-01-01, 2024-01-15, 2024-02-01 and 2024-02-10. *)
Definition jan1 : Z := 1704067200000.
Definition jan15 : Z := 1705276800000.
Definition feb1 : Z := 1706745600000.
Definition feb10 : Z := 1707523200000.

(** 2^53 and 2^600. *)
Definition two53 : num := 9007199254740992%float.
Definition two600 : num := 0x1p+600%float.

Definition sample_data : list record :=
  [sale 1 feb1 "A" 5 10; sale 2 jan1 "A" 2 50; sale 3 jan15 "B" 1 250].

(** * The claims *)

(** ** C1: the grand total *)

Definition c1_data : list record :=
  [sale 1 jan1 "B" 1 1; sale 2 jan15 "A" 1 two53; sale 3 feb1 "B" 1 1].

(** C1 as stated fails.  Three rows with sales 1, 2^53 and 1, the first and
    the last of one product: the rows add up to 2^53 (each 1 is rounded
    away), the product totals 2^53 and 2 add up to 2^53 + 2. *)
Lemma C1_counterexample :
  let out := @aggregate utc_host c1_data in
  map sales (rows out) = [1%float; two53; 1%float] /\
  map total_sales (productTotalsArr out) = [two53; 2%float] /\
  Num.sum (map sales (rows out)) = 9007199254740992%float /\
  Num.sum (map total_sales (productTotalsArr out)) = 9007199254740994%float /\
  Num.eqb (Num.sum (map total_sales (productTotalsArr out)))
          (Num.sum (map sales (rows out))) = false.
Proof. vm_compute. repeat split; reflexivity. Qed.

(** C1 (amended): when the sales of the rows are integers whose absolute
    values add up to less than 2^53, the sum of [total_sales] over the
    product totals equals the sum of [sales] over the rows, and both are
    the exact integer sum. *)
Theorem C1_grand_total_of_integers `{Host} (data : list record) (zs : list Z) :
  map sales (rows (aggregate data)) = map Num.of_Z zs ->
  Zabs_sum zs < 2 ^ 53 ->
  Num.sum (map total_sales (productTotalsArr (aggregate data)))
  = Num.sum (map sales (rows (aggregate data))) /\
  Num.sum (map sales (rows (aggregate data))) = Num.of_Z (Zsum zs).
Proof.
  intros Hzs Hb.
  destruct (productTotals_exact _ _ Hzs Hb) as (lz & Hlz & Hsum & Habs).
  rewrite (sum_perm_exact _ lz); [| by rewrite productTotalsArr_totals, Hlz | lia].
  rewrite Hzs, sum_of_Z by done. by rewrite Hsum.
Qed.

Lemma C1_grand_total_of_integers_witness :
  Num.sum (map total_sales (productTotalsArr (@aggregate utc_host sample_data)))
  = Num.sum (map sales (rows (@aggregate utc_host sample_data))) /\
  Num.sum (map sales (rows (@aggregate utc_host sample_data))) = 400%float.
Proof.
  apply (@C1_grand_total_of_integers utc_host sample_data [100; 250; 50]);
    vm_compute; reflexivity.
Defined.

(** ** C2: row validation *)

Definition c2_record : record := sale 1 jan1 "A" two600 two600.

(** C2 as stated fails.  A record with units 2^600 and unit price 2^600,
    both finite, has the resolved sales Infinity, which is not NaN: the
    record becomes a row although its sales value is not finite. *)
Lemma C2_counterexample :
  rows (@aggregate utc_host [c2_record])
  = [{| date := jan1; product := VStr "A"; units := two600; unit_price := two600;
        sales := Num.Infinity |}] /\
  Num.isFinite (@numericSales utc_host c2_record) = false.
Proof. vm_compute. split; reflexivity. Qed.

(** C2 (amended): the rows are, in some order, the rows of the records for
    which [toRow] gives one; a record gives a row exactly when its resolved
    date is a valid date and none of its resolved units, unit price and
    sales is NaN (an infinite value passes); the row holds the resolved
    fields; nothing else is returned for the other records.  Finite numbers
    are in particular accepted. *)
Theorem C2_row_validation `{Host} (data : list record) :
  rows (aggregate data) ≡ₚ omap toRow data /\
  (forall r, is_Some (toRow r) <-> valid_date r /\ numbers_not_NaN r) /\
  (forall r row, toRow r = Some row ->
     exists t, toDate (dateRaw r) = Some t /\ row = row_of r t) /\
  (forall r, valid_date r -> numbers_finite r -> is_Some (toRow r)).
Proof.
  split; [apply rows_perm|]. split; [apply toRow_is_Some|]. split.
  - intros r row (t & Ht & _ & ->)%toRow_Some. by exists t.
  - intros r Hd (Hu & Hp & Hs). apply toRow_is_Some. split; [done|].
    repeat split; by apply NumFacts.isFinite_not_NaN.
Qed.

(** ** C3: percentage change *)

Definition neg_two600 : num := PrimFloat.opp two600.

Definition c3_data : list record :=
  [sale 1 jan1 "A" two600 two600; sale 2 jan15 "A" neg_two600 two600;
   sale 3 feb1 "A" 1 5].

(** The percentage the claim gives for a bucket of sales [cur] after one of
    sales [prev]. *)
Definition claimed_pct_change (prev cur : num) : num :=
  if Num.eqb prev Num.zero then Num.zero
  else Num.mul (Num.div (Num.sub cur prev) prev) Num.hundred.

(** C3 as stated fails.  January has two rows of sales Infinity and
    -Infinity (2^600 * 2^600 and its opposite), so its bucket holds NaN;
    February holds 5.  NaN is not 0, and the claimed percentage of February
    is NaN; the code gives 0. *)
Lemma C3_counterexample :
  let ms := monthly (@aggregate utc_host c3_data) in
  map key ms = ["2024-01"; "2024-02"] /\
  map m_sales ms = [Num.NaN; 5%float] /\
  map pct_change ms = [None; Some Num.zero] /\
  Num.eqb Num.NaN Num.zero = false /\
  claimed_pct_change Num.NaN 5 = Num.NaN.
Proof. vm_compute. repeat split; reflexivity. Qed.

(** C3 (amended): the first bucket has no [pct_change]; every later bucket
    has [pct_change] equal to [(sales[i] - sales[i-1]) / sales[i-1] * 100],
    except that it is 0 when [sales[i-1]] is 0 or NaN. *)
Theorem C3_pct_change `{Host} (data : list record) :
  let ms := monthly (aggregate data) in
  (forall m, ms !! 0%nat = Some m -> pct_change m = None) /\
  (forall i a b, ms !! i = Some a -> ms !! S i = Some b ->
     pct_change b =
     Some (if Num.eqb (m_sales a) Num.zero || Num.isNaN (m_sales a) then Num.zero
           else Num.mul (Num.div (Num.sub (m_sales b) (m_sales a)) (m_sales a))
                        Num.hundred)).
Proof.
  split.
  - apply monthly_first_no_pct.
  - intros i a b Ha Hb. rewrite <- pctChange_spec.
    eapply withPctChange_next; [exact Ha|exact Hb].
Qed.

(** ** C4: the sales fallback *)

(** A line whose [sales] cell is empty and whose [revenue] cell is the
    string "0", for 3 units at the price 4. *)
Definition c4_record : record :=
  <["sales" := VNull]> (<["revenue" := VStr "0"]> (sale 1 jan1 "A" 3 4)).

(** A line whose [sales] cell reads [true], for 3 units at the price 4. *)
Definition c4_flag : record := <["sales" := VBool true]> (sale 1 jan1 "A" 3 4).

(** C4 as stated fails.  The sales cell [true] is given and is not numeric,
    yet the resolved sales value is 1, the number the boolean converts to,
    and not [units * unit_price = 12]; the row is kept with sales 1. *)
Lemma C4_counterexample :
  sales_cell c4_flag = Some (VBool true) /\
  @is_numeric utc_host (VBool true) = false /\
  @numericSales utc_host c4_flag = 1%float /\
  Num.mul (@Number utc_host (unitsVal c4_flag)) (@Number utc_host (unitPriceVal c4_flag))
  = 12%float /\
  option_map sales (@toRow utc_host c4_flag) = Some 1%float.
Proof. vm_compute. repeat split; reflexivity. Qed.

(** C4 (amended): the resolved sales value is [units * unit_price] when no
    alias of the sales field ([sales], [revenue], [ciro], [Sales],
    [Revenue], in this order) is given, that is present and not null, or
    when the first given one is the empty string, NaN, a string that does
    not read as a number, or an invalid [Date]; otherwise it is the number
    that cell states: a number as it is, a string as it reads, a boolean as
    1 or 0, a valid [Date] as its time value.  The string "0" and the
    number 0 give 0, and the row holds the resolved value. *)
Theorem C4_sales_fallback `{Host} (r : record) :
  let computed := Num.mul (Number (unitsVal r)) (Number (unitPriceVal r)) in
  numericSales r = match sales_cell r with
                   | Some v => default computed (explicit_sales v)
                   | None => computed
                   end /\
  (sales_cell r = Some (VStr "0") -> StringToNumber "0" = Num.zero ->
   numericSales r = Num.zero) /\
  (sales_cell r = Some (VNum Num.zero) -> numericSales r = Num.zero) /\
  (forall row, toRow r = Some row ->
     sales row = numericSales r /\ units row = Number (unitsVal r) /\
     unit_price row = Number (unitPriceVal r)).
Proof.
  intros computed. split; [apply numericSales_cell|]. split; [|split].
  - intros Hc H0. rewrite numericSales_cell, Hc. simpl. by rewrite H0.
  - intros Hc. by rewrite numericSales_cell, Hc.
  - by intros row (t & _ & _ & ->)%toRow_Some.
Qed.

Lemma C4_sales_fallback_witness :
  sales_cell c4_record = Some (VStr "0") /\
  @numericSales utc_host c4_record = Num.zero /\
  Num.mul (@Number utc_host (unitsVal c4_record)) (@Number utc_host (unitPriceVal c4_record))
  = 12%float.
Proof.
  split; [vm_compute; reflexivity|]. split; [|vm_compute; reflexivity].
  apply (proj1 (proj2 (@C4_sales_fallback utc_host c4_record)));
    vm_compute; reflexivity.
Defined.

(** ** C5: percent of the grand total *)




Definition c5_mixed : list record :=
  [sale 1 jan1 "A" 1 9007199254740994; sale 2 jan15 "B" 1 1;
   sale 3 feb1 "C" (-1) two53].


(** With a finite grand total the percents can miss 100 as well.  Totals
    2^53 + 2, 1 and -2^53: the grand total is 4 after rounding, and the
    percents add up to 96. *)
Lemma percent_sum_cancellation :
  let pts := productTotalsArr (@aggregate utc_host c5_mixed) in
  map total_sales pts = [9007199254740994%float; 1%float; (-9007199254740992)%float] /\
  Num.sum (map total_sales pts) = 4%float /\
  map percent pts = [0x1.9000000000002p+57%float; 25%float; (-225179981368524800)%float] /\
  Num.sum (map percent pts) = 96%float.
Proof. vm_compute. repeat split; reflexivity. Qed.







(** ** C6: the month keys *)

(** 0202-01-05, a year typed with a digit missing. *)
Definition c6_data : list record := [sale 1 (-55792368000000) "A" 1 1].

(** C6 as stated fails.  The year is printed as it is, without padding: a
    date of the year 202 has the key "202-01", which is not "YYYY-MM". *)
Lemma C6_counterexample :
  map key (monthly (@aggregate utc_host c6_data)) = ["202-01"] /\
  is_YYYY_MM "202-01" = false.
Proof. vm_compute. split; reflexivity. Qed.

(** C6 (amended): the keys of the monthly output are pairwise distinct and
    strictly increasing as strings; they are the keys of the months of the
    rows, each the decimal year of the date in local time, unpadded, then a
    hyphen and the two-digit month; the key has the form YYYY-MM when the
    year lies between 1000 and 9999. *)
Theorem C6_month_keys `{Host} (data : list record) :
  let out := aggregate data in
  NoDup (map key (monthly out)) /\
  StronglySorted key_lt (map key (monthly out)) /\
  (forall k, k ∈ map key (monthly out) <->
             exists r, r ∈ rows out /\ k = monthKey (date r)) /\
  (forall t, monthKey t = format_month (Time.YearFromTime (t + LocalTZA t))
                                       (Time.MonthFromTime (t + LocalTZA t))) /\
  (forall t, 1000 <= Time.getFullYear t <= 9999 -> is_YYYY_MM (monthKey t) = true).
Proof.
  intros out.
  assert (Hkeys : map key (monthly out) = map key (monthlySorted (rows out))).
  { subst out. unfold aggregate. simpl. apply withPctChange_fields. }
  rewrite Hkeys. split; [apply monthlySorted_NoDup|].
  split; [apply monthlySorted_strict|]. split; [|split].
  - intros k. rewrite (monthlySorted_keys_perm (rows out)). split.
    + intros Hk. apply list_elem_of_fmap in Hk as (e & -> & He).
      pose proof (monthlyMap_keys_of_rows (rows out)) as Hall.
      rewrite Forall_forall in Hall. by apply Hall.
    + intros (r & Hr & ->). by apply monthlyMap_covers.
  - intros t. apply monthKey_format.
  - intros t Hy. rewrite monthKey_format. apply format_month_YYYY_MM; [done|].
    apply MonthFromTime_range.
Qed.

(** ** C7: the baselines *)


(** ** C8: the order of the rows and of the product totals *)

Definition c8_data : list record :=
  [sale 1 jan1 "A" two600 two600; sale 2 jan15 "A" neg_two600 two600;
   sale 3 feb1 "B" 1 5].

(** C8 as stated fails.  Product A has the sales Infinity and -Infinity,
    hence the total NaN, and B the total 5: a difference with NaN is NaN,
    which the sort reads as 0, so A stays before B, and 5 <= NaN is false. *)
Lemma C8_counterexample :
  map total_sales (productTotalsArr (@aggregate utc_host c8_data)) = [Num.NaN; 5%float] /\
  Num.leb 5 Num.NaN = false.
Proof. vm_compute. split; reflexivity. Qed.

(** C8 (amended): the rows are sorted ascending by timestamp, are the valid
    rows of the input, and rows of equal timestamp keep their input order,
    for every input; when no product total is NaN, the product totals are
    sorted descending by [total_sales]. *)
Theorem C8_ordering `{Host} (data : list record) :
  StronglySorted (fun a b => date a <= date b) (rows (aggregate data)) /\
  rows (aggregate data) ≡ₚ rowsUnsorted data /\
  (forall t, filter (fun r => date r = t) (rows (aggregate data))
             = filter (fun r => date r = t) (rowsUnsorted data)) /\
  (Forall (fun x => Num.isNaN (total_sales x) = false) (productTotalsArr (aggregate data)) ->
   StronglySorted (fun a b => Num.leb (total_sales b) (total_sales a) = true)
                  (productTotalsArr (aggregate data))).
Proof.
  split; [apply rows_sorted|]. split; [apply rows_perm|]. split; [apply rows_stable|].
  intros Hnan.
  assert (Hn : Forall (fun e => Num.isNaN (snd e) = false)
                 (productTotals (rows (aggregate data)))).
  { apply (Forall_fmap total_sales (fun t => Num.isNaN t = false)) in Hnan.
    rewrite (productTotalsArr_totals data) in Hnan.
    by apply Forall_fmap in Hnan. }
  apply sortedTotals_sorted in Hn.
  unfold aggregate. simpl. unfold withPercent.
  eapply StronglySorted_fmap; [|exact Hn]. by intros x y.
Qed.

Lemma C8_ordering_witness :
  map total_sales (productTotalsArr (@aggregate utc_host sample_data))
  = [250%float; 150%float] /\
  StronglySorted (fun a b => Num.leb (total_sales b) (total_sales a) = true)
                 (productTotalsArr (@aggregate utc_host sample_data)).
Proof.
  split; [vm_compute; reflexivity|].
  apply (proj2 (proj2 (proj2 (@C8_ordering utc_host sample_data)))).
  vm_compute. repeat constructor.
Defined.

(** ** C9: purity and determinism *)

(** A store with the array of three parsed records, of which the last has
    no readable date, and the [Date]s of the other two. *)
Definition c9_store : Heap.store :=
  [ Heap.ODate (Some feb1);
    Heap.OObject [("date", Heap.HRef 0%nat); ("product", Heap.HStr "A");
                  ("units", Heap.HNum 5); ("unit_price", Heap.HNum 10)];
    Heap.ODate (Some jan1);
    Heap.OObject [("date", Heap.HRef 2%nat); ("product", Heap.HStr "B");
                  ("units", Heap.HNum 2); ("unit_price", Heap.HNum 50)];
    Heap.OObject [("date", Heap.HStr "x"); ("product", Heap.HStr "B");
                  ("units", Heap.HNum 1); ("unit_price", Heap.HNum 250)];
    Heap.OArray [Heap.HRef 1%nat; Heap.HRef 3%nat; Heap.HRef 4%nat] ].

Definition c9_data : Heap.hval := Heap.HRef 5%nat.

Definition c9_records : list record :=
  [ sale 0 feb1 "A" 5 10; sale 2 jan1 "B" 2 50;
    <["date" := VStr "x"]> (sale 0 jan1 "B" 1 250) ].

(** C9: on a store that holds the input, an array of plain objects whose
    properties are primitive values or [Date]s, two calls of [aggregate]
    on the same array both return; the store only grows, so that no
    object that was there before a call is changed by it, the input array
    and its records among them; the two objects returned hold the same
    output, the value of the pure function on the records, in new objects
    of the same shape. *)
Theorem C9_purity `{Host} (h : Heap.store) (data : Heap.hval) (recs : list record) :
  Heap.input_at h data recs ->
  exists r1 h1 r2 h2,
    Heap.aggregate_h data h = Some (r1, h1) /\
    Heap.aggregate_h data h1 = Some (r2, h2) /\
    h `prefix_of` h1 /\ h1 `prefix_of` h2 /\
    Heap.input_at h1 data recs /\ Heap.input_at h2 data recs /\
    Heap.output_at h2 r1 (aggregate recs) /\
    Heap.output_at h2 r2 (aggregate recs) /\
    Heap.snap_output h2 r1 = Some (aggregate recs) /\
    Heap.snap_output h2 r2 = Some (aggregate recs).
Proof.
  intros Hin.
  destruct (Heap.aggregate_h_run h data recs Hin) as (s1 & l1 & Hrun1 & Hout1).
  assert (Hp1 : h `prefix_of` h ++ s1) by (by apply prefix_app_r).
  pose proof (Heap.input_at_mono _ _ Hp1 _ _ Hin) as Hin1.
  destruct (Heap.aggregate_h_run (h ++ s1) data recs Hin1) as (s2 & l2 & Hrun2 & Hout2).
  assert (Hp2 : h ++ s1 `prefix_of` (h ++ s1) ++ s2) by (by apply prefix_app_r).
  pose proof (Heap.output_at_mono _ _ _ _ Hp2 Hout1) as Hout1'.
  exists (Heap.HRef l1), (h ++ s1), (Heap.HRef l2), ((h ++ s1) ++ s2).
  split; [done|]. split; [done|]. split; [done|]. split; [done|].
  split; [done|]. split; [by eapply Heap.input_at_mono|].
  split; [done|]. split; [done|].
  split; by apply Heap.output_at_snap.
Qed.

Lemma C9_purity_witness :
  exists r1 h1 r2 h2,
    @Heap.aggregate_h utc_host c9_data c9_store = Some (r1, h1) /\
    @Heap.aggregate_h utc_host c9_data h1 = Some (r2, h2) /\
    c9_store `prefix_of` h1 /\ h1 `prefix_of` h2 /\
    Heap.input_at h1 c9_data c9_records /\ Heap.input_at h2 c9_data c9_records /\
    Heap.output_at h2 r1 (@aggregate utc_host c9_records) /\
    Heap.output_at h2 r2 (@aggregate utc_host c9_records) /\
    Heap.snap_output h2 r1 = Some (@aggregate utc_host c9_records) /\
    Heap.snap_output h2 r2 = Some (@aggregate utc_host c9_records).
Proof.
  apply (@C9_purity utc_host c9_store c9_data c9_records).
  eexists. split; [reflexivity|]. split; [|vm_compute; reflexivity].
  repeat constructor;
    (eexists; split; [reflexivity|]; split;
     [repeat constructor; simpl; try (eexists; reflexivity)|vm_compute; reflexivity]).
Defined.

(** ** C10: the monthly rollup *)

Definition c10_data : list record :=
  [sale 1 jan1 "A" 1 two53; sale 2 feb1 "A" 1 1; sale 3 feb10 "A" 1 1].

(** C10 as stated fails.  January holds 2^53 and February 1 + 1 = 2: the
    buckets add up to 2^53 + 2, the rows to 2^53. *)
Lemma C10_counterexample :
  let out := @aggregate utc_host c10_data in
  map sales (rows out) = [two53; 1%float; 1%float] /\
  map m_sales (monthly out) = [two53; 2%float] /\
  Num.sum (map sales (rows out)) = 9007199254740992%float /\
  Num.sum (map m_sales (monthly out)) = 9007199254740994%float /\
  Num.eqb (Num.sum (map m_sales (monthly out))) (Num.sum (map sales (rows out))) = false.
Proof. vm_compute. repeat split; reflexivity. Qed.

Lemma count_sum_Zsum `{Host} (m : list (string * MonthlyRow)) :
  count_sum m = Zsum (map transactions (map snd m)).
Proof. induction m as [|e m IH]; simpl; [done|]. unfold count_sum in *. simpl. by rewrite IH. Qed.

Lemma monthly_transactions_perm `{Host} (data : list record) :
  map transactions (monthly (aggregate data))
  ≡ₚ map transactions (map snd (monthlyMap (rows (aggregate data)))).
Proof.
  unfold aggregate. simpl.
  destruct (withPctChange_fields (monthlySorted (sortRows (rowsUnsorted data))))
    as (_ & _ & ->).
  by rewrite (monthlySorted_perm _).
Qed.

(** C10 (amended): the transactions of the buckets add up to the number of
    rows, and every bucket has at least one; when the sales of the rows are
    integers whose absolute values add up to less than 2^53, the sales of
    the buckets add up to the sum of the sales of the rows. *)
Theorem C10_monthly_conservation `{Host} (data : list record) :
  let out := aggregate data in
  Zsum (map transactions (monthly out)) = Z.of_nat (length (rows out)) /\
  Forall (fun b => 1 <= transactions b) (monthly out) /\
  (forall zs, map sales (rows out) = map Num.of_Z zs -> Zabs_sum zs < 2 ^ 53 ->
     Num.sum (map m_sales (monthly out)) = Num.sum (map sales (rows out))).
Proof.
  intros out. subst out. split; [|split].
  - rewrite (Zsum_perm _ _ (monthly_transactions_perm data)).
    rewrite <- count_sum_Zsum. unfold monthlyMap.
    by rewrite fold_addMonth_count.
  - apply (proj1 (Forall_fmap transactions (fun t => 1 <= t) _)).
    rewrite (monthly_transactions_perm data).
    destruct (monthlyMap_ok (rows (aggregate data))) as [_ Hok].
    rewrite map_map. apply Forall_fmap.
    eapply Forall_impl; [exact Hok|]. by intros e (_ & _ & ?).
  - intros zs Hzs Hb.
    destruct (monthlyMap_exact _ _ Hzs Hb) as (lz & Hlz & Hsum & Habs).
    rewrite (sum_perm_exact _ lz); [| by rewrite monthly_sales_perm, Hlz | lia].
    rewrite Hzs, sum_of_Z by done. by rewrite Hsum.
Qed.

Lemma C10_monthly_conservation_witness :
  Num.sum (map m_sales (monthly (@aggregate utc_host sample_data)))
  = Num.sum (map sales (rows (@aggregate utc_host sample_data))).
Proof.
  apply (proj2 (proj2 (@C10_monthly_conservation utc_host sample_data)) [100; 250; 50]);
    vm_compute; reflexivity.
Defined.

(** * Further properties *)

(** ** [normalizeHeader]

    Header names are read here as strings of ASCII characters, on which
    [trim], [toLowerCase] and the class [\s] are the functions below. *)

Definition all_chars (p : ascii -> bool) : string -> bool :=
  fix go (s : string) : bool :=
    match s with
    | "" => true
    | String c s' => p c && go s'
    end.

Definition is_ascii (c : ascii) : bool := (N_of_ascii c <? 128)%N.

(** Tab, line feed, vertical tab, form feed, carriage return and space. *)
Definition is_space (c : ascii) : bool :=
  let n := N_of_ascii c in ((9 <=? n) && (n <=? 13) || (n =? 32))%N.

Definition is_upper (c : ascii) : bool :=
  let n := N_of_ascii c in ((65 <=? n) && (n <=? 90))%N.

Definition lower_char (c : ascii) : ascii :=
  if is_upper c then ascii_of_N (N_of_ascii c + 32) else c.

Fixpoint trimStart (s : string) : string :=
  match s with
  | "" => ""
  | String c s' => if is_space c then trimStart s' else s
  end.

Fixpoint trimEnd (s : string) : string :=
  match s with
  | "" => ""
  | String c s' =>
      match trimEnd s' with
      | "" => if is_space c then "" else String c ""
      | t => String c t
      end
  end.

Definition trim (s : string) : string := trimEnd (trimStart s).

Fixpoint toLowerCase (s : string) : string :=
  match s with
  | "" => ""
  | String c s' => String (lower_char c) (toLowerCase s')
  end.

(** [s.replace(/\s+/g, "_")]: each maximal run of white space becomes one
    underscore; [run] says that the character before was white space. *)
Fixpoint replace_spaces (run : bool) (s : string) : string :=
  match s with
  | "" => ""
  | String c s' =>
      if is_space c
      then if run then replace_spaces true s' else String "_" (replace_spaces true s')
      else String c (replace_spaces false s')
  end.

(** [normalizeHeader(h = "")]; [None] is the call without an argument. *)
Definition normalizeHeader (h : option string) : string :=
  replace_spaces false (toLowerCase (trim (default "" h))).

(** A name with no white space and no capital letter. *)
Definition is_plain (c : ascii) : bool := negb (is_space c) && negb (is_upper c).

Section NormalizeHeader.

Lemma all_chars_impl (p q : ascii -> bool) (s : string) :
  (forall c, p c = true -> q c = true) -> all_chars p s = true -> all_chars q s = true.
Proof.
  intros Hpq. induction s as [|c s IH]; simpl; [done|].
  intros [Hc Hs]%andb_prop. by rewrite (Hpq c Hc), IH.
Qed.

Lemma lower_char_plain (c : ascii) : is_upper (lower_char c) = false.
Proof.
  unfold lower_char. destruct (is_upper c) eqn:Hu; [|done].
  unfold is_upper in Hu. apply andb_prop in Hu as [H1 H2]. apply N.leb_le in H1, H2.
  unfold is_upper. rewrite N_ascii_embedding by lia.
  apply andb_false_iff. right. apply N.leb_gt. lia.
Qed.

Lemma lower_char_space (c : ascii) : is_space (lower_char c) = is_space c.
Proof.
  unfold lower_char. destruct (is_upper c) eqn:Hu; [|done].
  unfold is_upper in Hu. apply andb_prop in Hu as [H1 H2]. apply N.leb_le in H1, H2.
  unfold is_space. rewrite N_ascii_embedding by lia.
  transitivity false; [|symmetry]; apply orb_false_iff; split;
    try (apply andb_false_iff; first [left; apply N.leb_gt; lia|right; apply N.leb_gt; lia]);
    apply N.eqb_neq; lia.
Qed.

Lemma lower_char_ascii (c : ascii) : is_ascii c = true -> is_ascii (lower_char c) = true.
Proof.
  unfold lower_char. destruct (is_upper c) eqn:Hu; [|done]. intros _.
  unfold is_upper in Hu. apply andb_prop in Hu as [H1 H2]. apply N.leb_le in H1, H2.
  unfold is_ascii. rewrite N_ascii_embedding by lia. apply N.ltb_lt. lia.
Qed.

Lemma lower_char_id (c : ascii) : is_upper c = false -> lower_char c = c.
Proof. unfold lower_char. by intros ->. Qed.

(** What [trimStart] and [trimEnd] keep is a part of the string. *)
Lemma trimStart_all (p : ascii -> bool) (s : string) :
  all_chars p s = true -> all_chars p (trimStart s) = true.
Proof.
  induction s as [|c s IH]; simpl; [done|].
  intros Hcs. destruct (is_space c); [|done].
  apply andb_prop in Hcs as [_ Hs]. by apply IH.
Qed.

Lemma trimEnd_all (p : ascii -> bool) (s : string) :
  all_chars p s = true -> all_chars p (trimEnd s) = true.
Proof.
  induction s as [|c s IH]; simpl; [done|].
  intros [Hc Hs]%andb_prop. specialize (IH Hs).
  destruct (trimEnd s) as [|d t].
  - destruct (is_space c); simpl; [done|]. by rewrite Hc.
  - change (p c && all_chars p (String d t) = true). by rewrite Hc.
Qed.

Lemma trimStart_length (s : string) : (String.length (trimStart s) <= String.length s)%nat.
Proof. induction s as [|c s IH]; simpl; [done|]. destruct (is_space c); simpl; lia. Qed.

Lemma trimEnd_length (s : string) : (String.length (trimEnd s) <= String.length s)%nat.
Proof.
  induction s as [|c s IH]; simpl; [done|].
  destruct (trimEnd s) as [|d t]; [destruct (is_space c)|]; simpl in *; lia.
Qed.

Lemma toLowerCase_length (s : string) : String.length (toLowerCase s) = String.length s.
Proof. induction s as [|c s IH]; simpl; [done|]. by rewrite IH. Qed.

Lemma replace_spaces_length (run : bool) (s : string) :
  (String.length (replace_spaces run s) <= String.length s)%nat.
Proof.
  revert run. induction s as [|c s IH]; intros run; simpl; [done|].
  destruct (is_space c); [destruct run|]; simpl.
  - pose proof (IH true). lia.
  - pose proof (IH true). lia.
  - pose proof (IH false). lia.
Qed.

Lemma toLowerCase_no_upper (s : string) :
  all_chars (fun c => negb (is_upper c)) (toLowerCase s) = true.
Proof. induction s as [|c s IH]; simpl; [done|]. by rewrite lower_char_plain, IH. Qed.

Lemma toLowerCase_ascii (s : string) :
  all_chars is_ascii s = true -> all_chars is_ascii (toLowerCase s) = true.
Proof.
  induction s as [|c s IH]; simpl; [done|].
  intros [Hc Hs]%andb_prop. by rewrite lower_char_ascii, IH.
Qed.

Lemma replace_spaces_plain (run : bool) (s : string) :
  all_chars (fun c => negb (is_upper c)) s = true ->
  all_chars is_plain (replace_spaces run s) = true.
Proof.
  revert run. induction s as [|c s IH]; intros run; simpl; [done|].
  intros [Hc Hs]%andb_prop.
  destruct (is_space c) eqn:Hsp; [destruct run|]; simpl.
  - by apply IH.
  - by apply IH.
  - unfold is_plain at 1. rewrite Hsp, Hc. simpl. by apply IH.
Qed.

Lemma replace_spaces_ascii (run : bool) (s : string) :
  all_chars is_ascii s = true -> all_chars is_ascii (replace_spaces run s) = true.
Proof.
  revert run. induction s as [|c s IH]; intros run; simpl; [done|].
  intros [Hc Hs]%andb_prop.
  destruct (is_space c); [destruct run|]; simpl; rewrite ?Hc; by apply IH.
Qed.

(** A plain name passes through every step unchanged. *)
Lemma trimStart_plain (s : string) : all_chars is_plain s = true -> trimStart s = s.
Proof.
  destruct s as [|c s]; simpl; [done|]. unfold is_plain.
  intros [[Hsp _]%andb_prop _]%andb_prop. by destruct (is_space c).
Qed.

Lemma trimEnd_plain (s : string) : all_chars is_plain s = true -> trimEnd s = s.
Proof.
  induction s as [|c s IH]; simpl; [done|]. unfold is_plain at 1.
  intros [[Hsp _]%andb_prop Hs]%andb_prop. rewrite (IH Hs).
  destruct s; [by destruct (is_space c)|done].
Qed.

Lemma toLowerCase_plain (s : string) : all_chars is_plain s = true -> toLowerCase s = s.
Proof.
  induction s as [|c s IH]; simpl; [done|]. unfold is_plain at 1.
  intros [[_ Hu]%andb_prop Hs]%andb_prop.
  rewrite lower_char_id, (IH Hs); [done|]. by destruct (is_upper c).
Qed.

Lemma replace_spaces_id (run : bool) (s : string) :
  all_chars is_plain s = true -> replace_spaces run s = s.
Proof.
  revert run. induction s as [|c s IH]; intros run; simpl; [done|]. unfold is_plain at 1.
  intros [[Hsp _]%andb_prop Hs]%andb_prop.
  destruct (is_space c); [done|]. by rewrite (IH false Hs).
Qed.

Lemma normalizeHeader_plain (h : string) :
  all_chars is_plain h = true -> normalizeHeader (Some h) = h.
Proof.
  intros Hh. unfold normalizeHeader, trim. simpl.
  by rewrite (trimStart_plain h), (trimEnd_plain h), (toLowerCase_plain h),
    (replace_spaces_id false h).
Qed.

Lemma normalizeHeader_is_plain (h : string) :
  all_chars is_plain (normalizeHeader (Some h)) = true.
Proof. apply replace_spaces_plain, toLowerCase_no_upper. Qed.

End NormalizeHeader.

Lemma trimStart_space (s : string) : trimStart s = "" <-> all_chars is_space s = true.
Proof.
  induction s as [|c s IH]; simpl; [done|].
  destruct (is_space c); simpl; [done|]. split; discriminate.
Qed.

Lemma trimStart_head (s : string) (c : ascii) (t : string) :
  trimStart s = String c t -> is_space c = false.
Proof.
  induction s as [|d s IH]; simpl; [done|].
  destruct (is_space d) eqn:Hd; [done|]. by intros [= <- _].
Qed.

Lemma trimEnd_head (c : ascii) (t : string) :
  is_space c = false -> exists t', trimEnd (String c t) = String c t'.
Proof.
  intros Hc. simpl. destruct (trimEnd t); [|by eexists]. rewrite Hc. by eexists.
Qed.

(** X1: on ASCII header names, [normalizeHeader] leaves a name unchanged
    exactly when the name has no white space and no capital letter, and
    normalizing a second time changes nothing. *)
Theorem normalizeHeader_idempotent (h : string) :
  all_chars is_ascii h = true ->
  (normalizeHeader (Some h) = h <-> all_chars is_plain h = true) /\
  normalizeHeader (Some (normalizeHeader (Some h))) = normalizeHeader (Some h).
Proof.
  intros _. split; [split|].
  - intros Heq. rewrite <- Heq. apply normalizeHeader_is_plain.
  - apply normalizeHeader_plain.
  - apply normalizeHeader_plain, normalizeHeader_is_plain.
Qed.

Lemma normalizeHeader_idempotent_witness :
  normalizeHeader (Some (normalizeHeader (Some "  Unit   Price ")))
  = normalizeHeader (Some "  Unit   Price ") /\
  normalizeHeader (Some "  Unit   Price ") = "unit_price".
Proof.
  split; [|vm_compute; reflexivity].
  apply (normalizeHeader_idempotent "  Unit   Price "). vm_compute; reflexivity.
Defined.

(** X2: on ASCII header names, the normalized name has no white space and
    no capital letter, is no longer than the header, and is empty exactly
    when the header is empty or all white space. *)
Theorem normalizeHeader_shape (h : string) :
  all_chars is_ascii h = true ->
  all_chars is_plain (normalizeHeader (Some h)) = true /\
  all_chars is_ascii (normalizeHeader (Some h)) = true /\
  (String.length (normalizeHeader (Some h)) <= String.length h)%nat /\
  (normalizeHeader (Some h) = "" <-> all_chars is_space h = true).
Proof.
  intros Hh. split; [apply normalizeHeader_is_plain|]. split; [|split].
  - apply replace_spaces_ascii, toLowerCase_ascii, trimEnd_all, trimStart_all, Hh.
  - unfold normalizeHeader, trim. simpl.
    pose proof (replace_spaces_length false (toLowerCase (trimEnd (trimStart h)))).
    rewrite toLowerCase_length in *.
    pose proof (trimEnd_length (trimStart h)). pose proof (trimStart_length h). lia.
  - unfold normalizeHeader, trim. simpl. rewrite <- trimStart_space.
    destruct (trimStart h) as [|c t] eqn:Ht; [done|].
    pose proof (trimStart_head _ _ _ Ht) as Hc.
    destruct (trimEnd_head c t Hc) as [t' ->]. simpl.
    rewrite lower_char_space, Hc. split; discriminate.
Qed.

Lemma normalizeHeader_shape_witness :
  all_chars is_plain (normalizeHeader (Some "Order Date")) = true /\
  normalizeHeader (Some "Order Date") = "order_date".
Proof.
  split; [|vm_compute; reflexivity].
  apply (normalizeHeader_shape "Order Date"). vm_compute; reflexivity.
Defined.

(** ** Records whose keys went through [normalizeHeader] *)

(** No key of the record holds a capital ASCII letter. *)
Definition lower_keys (r : record) : Prop :=
  forall k, is_Some (r !! k) -> all_chars (fun c => negb (is_upper c)) k = true.

Lemma lower_keys_absent (r : record) (k : string) :
  lower_keys r -> all_chars (fun c => negb (is_upper c)) k = false -> prop r k = VUndefined.
Proof.
  intros Hr Hk. unfold prop. destruct (r !! k) eqn:Hrk; [|done].
  rewrite Hr in Hk by (by eexists). done.
Qed.

Lemma normalized_keys_lower (hs : list (string * value)) :
  lower_keys (list_to_map (map (fun e => (normalizeHeader (Some (fst e)), snd e)) hs)).
Proof.
  intros k [v Hk]. apply elem_of_list_to_map_2 in Hk.
  apply list_elem_of_fmap in Hk as ([h v'] & [= -> ->] & _). simpl.
  eapply all_chars_impl; [|apply normalizeHeader_is_plain].
  intros c. unfold is_plain. by intros [_ ?]%andb_prop.
Qed.

Lemma nullish_undefined_r (a : value) :
  a ?? VUndefined = if is_nullish a then VUndefined else a.
Proof. by destruct a. Qed.

Section NormalizedRecords.
Context `{Host}.

(** X3: in a record whose keys hold no capital letter, as the keys made by
    [normalizeHeader] are, the capitalized aliases are never found: each
    field is read from its lower-case aliases alone, and where none of them
    has a value the quantity, the price and the sales read as [undefined],
    the product as "Unknown". *)
Theorem capital_aliases_unused (r : record) :
  lower_keys r ->
  productOf r = prop r "product" ?? prop r "ürün" ?? VStr "Unknown" /\
  unitsVal r = prop r "units" ?? prop r "quantity" ?? prop r "adet" ?? VUndefined /\
  unitPriceVal r = prop r "unit_price" ?? prop r "price" ?? VUndefined /\
  rawSales r = prop r "sales" ?? prop r "revenue" ?? prop r "ciro" ?? VUndefined.
Proof.
  intros Hr. unfold productOf, unitsVal, unitPriceVal, rawSales.
  rewrite (lower_keys_absent r "Product"), (lower_keys_absent r "Units"),
    (lower_keys_absent r "Quantity"), (lower_keys_absent r "Unit_Price"),
    (lower_keys_absent r "Price"), (lower_keys_absent r "Sales"),
    (lower_keys_absent r "Revenue") by done.
  repeat split.
  - by destruct (prop r "product" ?? prop r "ürün").
  - by destruct (prop r "units" ?? prop r "quantity" ?? prop r "adet").
  - by destruct (prop r "unit_price" ?? prop r "price").
  - by destruct (prop r "sales" ?? prop r "revenue" ?? prop r "ciro").
Qed.

(** X4: in such a record, when the quantity cells ([units], [quantity],
    [adet]) are all empty or missing, or the price cells ([unit_price],
    [price]) are, the record is dropped, whatever its sales cell holds. *)
Theorem empty_quantity_or_price_drops (r : record) :
  lower_keys r ->
  (is_nullish (prop r "units") = true /\ is_nullish (prop r "quantity") = true /\
   is_nullish (prop r "adet") = true) \/
  (is_nullish (prop r "unit_price") = true /\ is_nullish (prop r "price") = true) ->
  toRow r = None.
Proof.
  intros Hr Hempty.
  assert (Hu : unitsVal r = prop r "units" ?? prop r "quantity" ?? prop r "adet" ?? VUndefined).
  { unfold unitsVal.
    rewrite (lower_keys_absent r "Units"), (lower_keys_absent r "Quantity") by done.
    by destruct (prop r "units" ?? prop r "quantity" ?? prop r "adet"). }
  assert (Hp : unitPriceVal r = prop r "unit_price" ?? prop r "price" ?? VUndefined).
  { unfold unitPriceVal.
    rewrite (lower_keys_absent r "Unit_Price"), (lower_keys_absent r "Price") by done.
    by destruct (prop r "unit_price" ?? prop r "price"). }
  unfold toRow. destruct (toDate (dateRaw r)); [|done].
  destruct Hempty as [(H1 & H2 & H3)|(H1 & H2)].
  - rewrite Hu.
    destruct (prop r "units"), (prop r "quantity"), (prop r "adet"); done.
  - rewrite Hp.
    destruct (prop r "unit_price"), (prop r "price"); try done;
      simpl; by rewrite orb_true_r.
Qed.

(** X5: when [date] and [order_date] are empty or missing, the date is read
    from [tarih]; an empty [tarih] cell ([null]) then reads as the epoch,
    time value 0, and the record is kept with that date if its numbers are
    valid, while a missing [tarih] column drops the record. *)
Theorem last_date_alias (r : record) :
  is_nullish (prop r "date") = true -> is_nullish (prop r "order_date") = true ->
  dateRaw r = prop r "tarih" /\
  (prop r "tarih" = VNull ->
   toDate (dateRaw r) = Some 0 /\ (numbers_not_NaN r -> toRow r = Some (row_of r 0))) /\
  (prop r "tarih" = VUndefined -> toRow r = None).
Proof.
  intros Hd Ho.
  assert (Hraw : dateRaw r = prop r "tarih").
  { unfold dateRaw. by destruct (prop r "date"), (prop r "order_date"). }
  split; [done|]. split.
  - intros Ht.
    assert (Hdate : toDate (dateRaw r) = Some 0) by (by rewrite Hraw, Ht).
    split; [done|]. intros Hn. apply toRow_Some. by exists 0.
  - intros Ht. unfold toRow. by rewrite Hraw, Ht.
Qed.

End NormalizedRecords.

(** A record made from the header line [Date, Product, Quantity, Unit Price]. *)
Definition headed_record : record :=
  list_to_map (map (fun e => (normalizeHeader (Some (fst e)), snd e))
    [("Date", VDate 0 (Some jan1)); ("Product", VStr "A");
     (" Quantity", VNum 3); ("Unit  Price", VNum 4)]).

Lemma capital_aliases_unused_witness :
  unitsVal headed_record = VNum 3 /\ unitPriceVal headed_record = VNum 4 /\
  productOf headed_record = VStr "A".
Proof.
  destruct (capital_aliases_unused headed_record) as (Hp & Hu & Hup & _).
  { apply normalized_keys_lower. }
  rewrite Hp, Hu, Hup. vm_compute. repeat split; reflexivity.
Defined.

(** The same line with the quantity cell empty and a sales cell. *)
Definition unquantified_record : record :=
  <["sales" := VNum 12]> (<["quantity" := VNull]> headed_record).

Lemma unquantified_lower : lower_keys unquantified_record.
Proof.
  intros k [v Hk]. unfold unquantified_record in Hk.
  apply lookup_insert_Some in Hk as [[<- _]|[_ Hk]]; [done|].
  apply lookup_insert_Some in Hk as [[<- _]|[_ Hk]]; [done|].
  unfold headed_record in Hk. eapply normalized_keys_lower. by exists v.
Qed.

Lemma empty_quantity_or_price_drops_witness :
  @toRow utc_host unquantified_record = None /\
  @numericSales utc_host unquantified_record = 12%float.
Proof.
  split; [|vm_compute; reflexivity].
  apply (@empty_quantity_or_price_drops utc_host unquantified_record unquantified_lower).
  left. vm_compute. done.
Defined.

(** A record with an empty [tarih] cell and no other date. *)
Definition undated_record : record :=
  list_to_map [("tarih", VNull); ("product", VStr "A"); ("units", VNum 3);
               ("unit_price", VNum 4)].

Lemma last_date_alias_witness :
  @toDate utc_host (dateRaw undated_record) = Some 0 /\
  @monthKey utc_host 0 = "1970-01".
Proof.
  split; [|vm_compute; reflexivity].
  apply (@last_date_alias utc_host undated_record); vm_compute; reflexivity.
Defined.

(** ** The output as a whole *)

Lemma omap_nil_iff {A B} (f : A -> option B) (l : list A) :
  omap f l = [] <-> Forall (fun x => f x = None) l.
Proof.
  induction l as [|x l IH].
  - split; [constructor|done].
  - change (omap f (x :: l)) with (match f x with Some y => y :: omap f l | None => omap f l end).
    destruct (f x) eqn:Hx.
    + split; [done|]. intros Hall. apply Forall_cons in Hall as [? _]. congruence.
    + rewrite IH. split; [by constructor|]. by intros [_ ?]%Forall_cons.
Qed.

Lemma sort_nil_iff {A} (gt : A -> A -> bool) (l : list A) : sort gt l = [] <-> l = [].
Proof.
  split; [|by intros ->]. intros Hs. apply length_zero_iff_nil.
  by rewrite <- (sort_length gt l), Hs.
Qed.

Section WholeOutput.
Context `{Host}.

Definition empty_output : Output :=
  {| rows := []; productTotalsArr := []; monthly := []; naive := Num.zero; ma := Num.zero |}.

(** X6: the output is the empty one, with no rows, no product totals, no
    buckets and both baselines 0, exactly when no record of the input
    passes validation; the empty input is such an input. *)
Theorem no_valid_record (data : list record) :
  aggregate data = empty_output <-> Forall (fun r => toRow r = None) data.
Proof.
  rewrite <- omap_nil_iff. split.
  - intros Hout. apply (f_equal rows) in Hout. simpl in Hout.
    by apply sort_nil_iff in Hout.
  - intros Hnil. unfold aggregate, rowsUnsorted. by rewrite Hnil.
Qed.

Lemma addProduct_length (m : list (value * num)) (r : Row) :
  (length m <= length (addProduct m r) <= length m + 1)%nat /\
  (1 <= length (addProduct m r))%nat.
Proof.
  destruct (addProduct_cases m r) as [(i & k & t & Hi & ->)| ->].
  - rewrite length_insert. apply lookup_lt_Some in Hi. lia.
  - rewrite length_app. simpl. lia.
Qed.

Lemma addMonth_length (m : list (string * MonthlyRow)) (r : Row) :
  (length m <= length (addMonth m r) <= length m + 1)%nat /\
  (1 <= length (addMonth m r))%nat.
Proof.
  destruct (addMonth_cases m r) as [(i & cur & Hi & ->)|[_ ->]].
  - rewrite length_insert. apply lookup_lt_Some in Hi. lia.
  - rewrite length_app. simpl. lia.
Qed.

Lemma fold_length {M} (f : list M -> Row -> list M) (rs : list Row) (m : list M) :
  (forall m r, (length m <= length (f m r) <= length m + 1)%nat /\ (1 <= length (f m r))%nat) ->
  (length m <= length (fold_left f rs m) <= length m + length rs)%nat /\
  (rs <> [] -> 1 <= length (fold_left f rs m))%nat.
Proof.
  intros Hf. revert m. induction rs as [|r rs IH]; intros m; simpl.
  - split; [lia|done].
  - destruct (Hf m r) as [H1 H2]. destruct (IH (f m r)) as [H3 _].
    split; [lia|]. intros _. lia.
Qed.

(** X7: there are at most as many rows as records, and at most as many
    product totals and as many monthly buckets as rows; there is a product
    total, and a bucket, as soon as there is a row. *)
Theorem output_sizes (data : list record) :
  (length (rows (aggregate data)) <= length data)%nat /\
  (length (productTotalsArr (aggregate data)) <= length (rows (aggregate data)))%nat /\
  (length (monthly (aggregate data)) <= length (rows (aggregate data)))%nat /\
  (rows (aggregate data) = [] <-> productTotalsArr (aggregate data) = []) /\
  (rows (aggregate data) = [] <-> monthly (aggregate data) = []).
Proof.
  unfold aggregate. simpl. set (rs := sortRows (rowsUnsorted data)).
  assert (Hp : length (withPercent (sortedTotals rs)) = length (productTotals rs)).
  { unfold withPercent, sortedTotals. by rewrite length_map, sort_length. }
  assert (Hm : length (withPctChange (monthlySorted rs)) = length (monthlyMap rs)).
  { rewrite Heap.withPctChange_length. unfold monthlySorted.
    by rewrite sort_length, length_map. }
  destruct (fold_length addProduct rs [] addProduct_length) as [Hp1 Hp2].
  destruct (fold_length addMonth rs [] addMonth_length) as [Hm1 Hm2].
  fold (productTotals rs) in Hp1, Hp2. fold (monthlyMap rs) in Hm1, Hm2. simpl in *.
  split; [|split; [lia|split; [lia|split]]].
  - unfold rs, sortRows, rowsUnsorted. rewrite sort_length. apply Heap.omap_length_le.
  - rewrite <- !length_zero_iff_nil, Hp. split; [intros Hz; lia|].
    intros Hz. destruct rs; [done|]. specialize (Hp2 ltac:(done)). lia.
  - rewrite <- !length_zero_iff_nil, Hm. split; [intros Hz; lia|].
    intros Hz. destruct rs; [done|]. specialize (Hm2 ltac:(done)). lia.
Qed.

End WholeOutput.

(** ** What a bucket and a product total hold *)

Lemma sum_snoc (xs : list num) (x : num) : Num.sum (xs ++ [x]) = Num.add (Num.sum xs) x.
Proof. unfold Num.sum. by rewrite fold_left_app. Qed.

Lemma Forall_pctLoop (Q : MonthlyRow -> Prop) (prev : num) (l : list MonthlyRow) :
  (forall b x, Q b ->
     Q {| key := key b; m_sales := m_sales b; transactions := transactions b;
          pct_change := Some x |}) ->
  Forall Q l -> Forall Q (pctLoop prev l).
Proof.
  intros HQ Hl. revert prev. induction Hl as [|b l Hb _ IH]; intros prev; simpl.
  - constructor.
  - constructor; [by apply HQ|apply IH].
Qed.

Lemma Forall_withPctChange (Q : MonthlyRow -> Prop) (l : list MonthlyRow) :
  (forall b x, Q b ->
     Q {| key := key b; m_sales := m_sales b; transactions := transactions b;
          pct_change := Some x |}) ->
  Forall Q l -> Forall Q (withPctChange l).
Proof.
  intros HQ Hl. destruct Hl as [|b l Hb Hl]; simpl; [constructor|].
  constructor; [done|by apply Forall_pctLoop].
Qed.

Lemma filter_none {A} (P : A -> Prop) `{!forall x, Decision (P x)} (l : list A) :
  Forall (fun x => ~ P x) l -> filter P l = [].
Proof.
  induction 1 as [|x l Hx _ IH]; [done|]. by rewrite filter_cons, decide_False.
Qed.

Section Buckets.
Context `{Host}.

(** The rows of the month [k], in the order of [rs]. *)
Definition rows_of_month (k : string) (rs : list Row) : list Row :=
  filter (fun r => monthKey (date r) = k) rs.

(** The bucket [b] holds the rows of its month among [rs]. *)
Definition bucket_holds (rs : list Row) (b : MonthlyRow) : Prop :=
  transactions b = Z.of_nat (length (rows_of_month (key b) rs)) /\
  m_sales b = Num.sum (map sales (rows_of_month (key b) rs)).

Definition buckets_hold (rs : list Row) (m : list (string * MonthlyRow)) : Prop :=
  NoDup (map fst m) /\
  Forall (fun e => key (snd e) = fst e /\ bucket_holds rs (snd e)) m /\
  Forall (fun r => monthKey (date r) ∈ map fst m) rs.

Lemma rows_of_month_snoc (k : string) (rs : list Row) (r : Row) :
  rows_of_month k (rs ++ [r])
  = rows_of_month k rs ++ (if decide (monthKey (date r) = k) then [r] else []).
Proof.
  unfold rows_of_month. by rewrite filter_app.
Qed.

Lemma bucket_holds_other (rs : list Row) (r : Row) (b : MonthlyRow) :
  key b <> monthKey (date r) -> bucket_holds rs b -> bucket_holds (rs ++ [r]) b.
Proof.
  intros Hne [Ht Hs]. unfold bucket_holds. rewrite rows_of_month_snoc.
  rewrite decide_False by done. by rewrite app_nil_r.
Qed.

Lemma bucket_holds_bump (rs : list Row) (r : Row) (b : MonthlyRow) :
  key b = monthKey (date r) -> bucket_holds rs b -> bucket_holds (rs ++ [r]) (bump b r).
Proof.
  intros Hk [Ht Hs]. unfold bucket_holds, bump. cbn [key transactions m_sales].
  rewrite rows_of_month_snoc, decide_True by done.
  rewrite length_app, map_app. cbn [map length]. rewrite sum_snoc, Ht, Hs.
  split; [lia|done].
Qed.

Lemma buckets_step_present (rs : list Row) (m : list (string * MonthlyRow)) (r : Row)
    (k : string) (i : nat) (cur : MonthlyRow) :
  k = monthKey (date r) -> NoDup (map fst m) ->
  Forall (fun e => key (snd e) = fst e /\ bucket_holds rs (snd e)) m ->
  m !! i = Some (k, cur) ->
  Forall (fun e => key (snd e) = fst e /\ bucket_holds (rs ++ [r]) (snd e))
         (<[i := (k, bump cur r)]> m).
Proof.
  intros Ek Hnd Hm Hi. apply Forall_lookup. intros j e Hj.
  destruct (decide (j = i)) as [->|Hne].
  - rewrite list_lookup_insert_eq in Hj by (by eapply lookup_lt_Some).
    injection Hj as <-.
    destruct (proj1 (Forall_lookup _ _) Hm _ _ Hi) as [Hk Hb]. cbn [fst snd] in *.
    split; [exact Hk|]. apply bucket_holds_bump; [|exact Hb]. by rewrite Hk.
  - rewrite list_lookup_insert_ne in Hj by done.
    destruct (proj1 (Forall_lookup _ _) Hm _ _ Hj) as [Hk Hb].
    split; [exact Hk|]. apply bucket_holds_other; [|exact Hb].
    rewrite Hk, <- Ek. intros Heq.
    apply Hne. apply (NoDup_lookup _ j i (fst e) Hnd).
    + by rewrite list_lookup_fmap, Hj.
    + rewrite list_lookup_fmap, Hi. cbn [fmap option_fmap option_map fst].
      by rewrite Heq.
Qed.

Lemma buckets_step_absent (rs : list Row) (m : list (string * MonthlyRow)) (r : Row)
    (k : string) :
  k = monthKey (date r) ->
  Forall (fun e => key (snd e) = fst e /\ bucket_holds rs (snd e)) m ->
  Forall (fun r' => monthKey (date r') ∈ map fst m) rs ->
  Forall (fun e => fst e <> k) m ->
  Forall (fun e => key (snd e) = fst e /\ bucket_holds (rs ++ [r]) (snd e))
         (m ++ [(k, bump (fresh_month k) r)]).
Proof.
  intros Ek Hm Hcov Habs. apply Forall_app. split.
  - rewrite Forall_forall in Habs. apply Forall_forall. intros e He.
    destruct (proj1 (Forall_forall _ _) Hm e He) as [Hk Hb].
    split; [exact Hk|]. apply bucket_holds_other; [|exact Hb].
    rewrite Hk, <- Ek. by apply Habs.
  - apply Forall_singleton. cbn [fst snd]. split; [reflexivity|].
    apply bucket_holds_bump; [exact Ek|].
    assert (Hnone : rows_of_month k rs = []).
    { unfold rows_of_month. apply filter_none. apply Forall_forall.
      intros r' Hr' Heq. rewrite Forall_forall in Hcov. rewrite Forall_forall in Habs.
      specialize (Hcov r' Hr'). rewrite Heq in Hcov.
      apply list_elem_of_fmap in Hcov as (e & He & Hin). by apply (Habs e Hin). }
    unfold bucket_holds. cbn [fresh_month key transactions m_sales]. by rewrite Hnone.
Qed.

Lemma buckets_step_keys (m : list (string * MonthlyRow)) (r : Row) :
  NoDup (map fst m) -> NoDup (map fst (addMonth m r)).
Proof.
  intros Hnd. pose proof (addMonth_cases m r) as Hcases. cbv zeta in Hcases.
  revert Hcases. generalize (monthKey (date r)). intros k Hcases.
  destruct Hcases as [(i & cur & Hi & ->)|[Habs ->]].
  - rewrite list_fmap_insert. cbn [fst].
    rewrite list_insert_id; [done|]. by rewrite list_lookup_fmap, Hi.
  - rewrite map_app. cbn [map fst]. apply NoDup_app. split; [done|]. split.
    + intros k' Hin Hk. apply list_elem_of_singleton in Hk as ->.
      apply list_elem_of_fmap in Hin as (e & He & Hin).
      rewrite Forall_forall in Habs. by apply (Habs e).
    + apply NoDup_singleton.
Qed.

Lemma buckets_hold_step (rs : list Row) (m : list (string * MonthlyRow)) (r : Row) :
  buckets_hold rs m -> buckets_hold (rs ++ [r]) (addMonth m r).
Proof.
  intros (Hnd & Hm & Hcov). split; [by apply buckets_step_keys|]. split.
  - destruct (addMonth_cases m r) as [(i & cur & Hi & ->)|[Habs ->]].
    + by apply buckets_step_present.
    + by apply buckets_step_absent.
  - apply Forall_app. split.
    + eapply Forall_impl; [exact Hcov|]. intros r'. apply addMonth_keys_mono.
    + apply Forall_singleton, addMonth_key_in.
Qed.

Lemma buckets_hold_fold (rs done_ : list Row) (m : list (string * MonthlyRow)) :
  buckets_hold done_ m -> buckets_hold (done_ ++ rs) (fold_left addMonth rs m).
Proof.
  revert done_ m. induction rs as [|r rs IH]; intros done_ m Hm; simpl.
  - by rewrite app_nil_r.
  - replace (done_ ++ r :: rs) with ((done_ ++ [r]) ++ rs) by (by rewrite <- app_assoc).
    by apply IH, buckets_hold_step.
Qed.

(** X8: every bucket of the monthly output counts the rows of its month,
    and its sales are the sum of their sales, added in the order of the
    rows output. *)
Theorem monthly_bucket_contents (data : list record) :
  Forall (bucket_holds (rows (aggregate data))) (monthly (aggregate data)).
Proof.
  unfold aggregate. simpl. set (rs := sortRows (rowsUnsorted data)).
  apply Forall_withPctChange; [by intros b x|].
  unfold monthlySorted. rewrite (sort_perm _ (map snd (monthlyMap rs))).
  destruct (buckets_hold_fold rs [] []) as (_ & Hm & _).
  { split; [constructor|]. split; constructor. }
  apply Forall_fmap. eapply Forall_impl; [exact Hm|]. by intros e [_ ?].
Qed.

End Buckets.

(** ** SameValueZero is an equivalence *)

Lemma lex_compare_Eq (a b : Z * Z * Z) : NumFacts.lex_compare a b = Eq <-> a = b.
Proof.
  destruct a as [[a1 a2] a3], b as [[b1 b2] b3]. unfold NumFacts.lex_compare.
  destruct (Z.compare_spec a1 b1); [|split; [done|intros [=]; lia]..].
  destruct (Z.compare_spec a2 b2); [|split; [done|intros [=]; lia]..].
  rewrite Z.compare_eq_iff. split; [by intros ->; subst|by intros [=]].
Qed.

Lemma eqb_rank (x y : num) :
  Num.eqb x y = true <->
  NumFacts.not_nan (Prim2SF x) /\ NumFacts.not_nan (Prim2SF y) /\
  NumFacts.rank (Prim2SF x) = NumFacts.rank (Prim2SF y).
Proof.
  unfold Num.eqb. rewrite FloatAxioms.eqb_spec. unfold SFeqb.
  destruct (SFcompare (Prim2SF x) (Prim2SF y)) as [c|] eqn:Hc.
  - assert (Hn : NumFacts.not_nan (Prim2SF x) /\ NumFacts.not_nan (Prim2SF y)).
    { split; intros Hnan; assert (SFcompare (Prim2SF x) (Prim2SF y) = None) as Hnone
        by (apply NumFacts.SFcompare_None; auto); congruence. }
    destruct Hn as [Hx Hy]. rewrite (NumFacts.SFcompare_rank _ _ Hx Hy) in Hc.
    injection Hc as <-. rewrite <- lex_compare_Eq.
    destruct (NumFacts.lex_compare _ _); split; try done; by intros (_ & _ & ?).
  - apply NumFacts.SFcompare_None in Hc. split; [done|].
    intros (Hx & Hy & _). by destruct Hc.
Qed.

Lemma SameValueZero_refl (a : value) : SameValueZero a a = true.
Proof.
  destruct a as [| |b|x|s|i t]; simpl; try done.
  - by destruct b.
  - unfold Num.isNaN, Num.eqb. by destruct (PrimFloat.eqb x x).
  - apply String.eqb_refl.
  - apply Nat.eqb_refl.
Qed.

(** Two values that are the same as a third are the same. *)
Lemma SameValueZero_join (a b c : value) :
  SameValueZero a c = true -> SameValueZero b c = true -> SameValueZero a b = true.
Proof.
  destruct a as [| |x|x|x|x tx], c as [| |z|z|z|z tz]; simpl; try done;
    destruct b as [| |y|y|y|y ty]; simpl; try done.
  - destruct x, y, z; done.
  - intros Hxz Hyz. apply orb_true_iff in Hxz, Hyz. apply orb_true_iff.
    destruct Hxz as [Hxz|[Hx Hz]%andb_prop], Hyz as [Hyz|[Hy Hz']%andb_prop].
    + left. apply eqb_rank in Hxz as (Hx & _ & Hr), Hyz as (Hy & _ & Hr').
      apply eqb_rank. repeat split; congruence.
    + apply eqb_rank in Hxz as (_ & Hz & _). apply NumFacts.isNaN_true in Hz'. by destruct Hz.
    + apply eqb_rank in Hyz as (_ & Hz' & _). apply NumFacts.isNaN_true in Hz. by destruct Hz'.
    + right. by rewrite Hx, Hy.
  - intros ->%String.eqb_eq ->%String.eqb_eq. apply String.eqb_refl.
  - intros ->%Nat.eqb_eq ->%Nat.eqb_eq. apply Nat.eqb_refl.
Qed.

Lemma SameValueZero_sym (a b : value) : SameValueZero a b = SameValueZero b a.
Proof.
  destruct (SameValueZero a b) eqn:Hab, (SameValueZero b a) eqn:Hba; try done.
  - by rewrite (SameValueZero_join b a b (SameValueZero_refl b) Hab) in Hba.
  - by rewrite (SameValueZero_join a b a (SameValueZero_refl a) Hba) in Hab.
Qed.

Lemma SameValueZero_trans (a b c : value) :
  SameValueZero a b = true -> SameValueZero b c = true -> SameValueZero a c = true.
Proof.
  intros Hab Hbc. apply (SameValueZero_join a c b Hab). by rewrite SameValueZero_sym.
Qed.

Lemma map_key_same (p : value) : SameValueZero (map_key p) p = true.
Proof.
  rewrite SameValueZero_sym, SameValueZero_map_key. apply SameValueZero_refl.
Qed.

Section ProductTotals.
Context `{Host}.

Lemma addProduct_found (m : list (value * num)) (r : Row) :
  (exists i k t, m !! i = Some (k, t) /\ SameValueZero k (product r) = true /\
     addProduct m r = <[i := (k, Num.add (Num.or_else t Num.zero) (sales r))]> m) \/
  (Forall (fun e => SameValueZero (fst e) (product r) = false) m /\
   addProduct m r = m ++ [(map_key (product r), Num.add Num.zero (sales r))]).
Proof.
  unfold addProduct.
  rewrite <- (map_get_ext SameValueZero (map_key (product r)) (product r))
    by (intros; apply SameValueZero_map_key).
  destruct (map_get SameValueZero (map_key (product r)) m) as [t|] eqn:Hg.
  - left. destruct (map_set_present SameValueZero _ t
      (Num.add (Num.or_else t Num.zero) (sales r)) m Hg) as (i & k' & Hi & Hk & Hset).
    exists i, k', t. by rewrite <- (SameValueZero_map_key k' (product r)).
  - right. split; [|by apply map_set_absent].
    eapply Forall_impl; [by apply (map_get_absent SameValueZero _ m Hg)|].
    intros e. simpl. by rewrite SameValueZero_map_key.
Qed.

(** The rows of the product [k], in the order of [rs]. *)
Definition rows_of_product (k : value) (rs : list Row) : list Row :=
  filter (fun r => SameValueZero k (product r) = true) rs.

(** [(productTotals.get(p) || 0) + sales], row after row: a subtotal that
    is NaN counts as 0 for the next row. *)
Definition restarted_sum (xs : list num) : num :=
  fold_left (fun acc s => Num.add (Num.or_else acc Num.zero) s) xs Num.zero.

Definition total_holds (rs : list Row) (k : value) (t : num) : Prop :=
  t = restarted_sum (map sales (rows_of_product k rs)).

Definition distinct_keys (ks : list value) : Prop :=
  forall i j a b, ks !! i = Some a -> ks !! j = Some b -> i <> j ->
                  SameValueZero a b = false.

Definition totals_hold (rs : list Row) (m : list (value * num)) : Prop :=
  distinct_keys (map fst m) /\
  Forall (fun e => total_holds rs (fst e) (snd e)) m /\
  Forall (fun r => exists e, e ∈ m /\ SameValueZero (fst e) (product r) = true) rs /\
  Forall (fun e => exists r, r ∈ rs /\ fst e = map_key (product r)) m.

Lemma rows_of_product_snoc (k : value) (rs : list Row) (r : Row) :
  rows_of_product k (rs ++ [r])
  = rows_of_product k rs ++ (if SameValueZero k (product r) then [r] else []).
Proof.
  unfold rows_of_product. rewrite filter_app. f_equal.
  rewrite filter_cons, filter_nil. by destruct (SameValueZero k (product r)).
Qed.

Lemma restarted_sum_snoc (xs : list num) (x : num) :
  restarted_sum (xs ++ [x]) = Num.add (Num.or_else (restarted_sum xs) Num.zero) x.
Proof. unfold restarted_sum. by rewrite fold_left_app. Qed.

Lemma total_holds_other (rs : list Row) (r : Row) (k : value) (t : num) :
  SameValueZero k (product r) = false -> total_holds rs k t -> total_holds (rs ++ [r]) k t.
Proof.
  intros Hne Ht. unfold total_holds. rewrite rows_of_product_snoc, Hne.
  by rewrite app_nil_r.
Qed.

Lemma total_holds_add (rs : list Row) (r : Row) (k : value) (t : num) :
  SameValueZero k (product r) = true -> total_holds rs k t ->
  total_holds (rs ++ [r]) k (Num.add (Num.or_else t Num.zero) (sales r)).
Proof.
  intros Hk Ht. unfold total_holds. rewrite rows_of_product_snoc, Hk.
  rewrite map_app. cbn [map]. by rewrite restarted_sum_snoc, <- Ht.
Qed.

Lemma totals_hold_step (rs : list Row) (m : list (value * num)) (r : Row) :
  totals_hold rs m -> totals_hold (rs ++ [r]) (addProduct m r).
Proof.
  intros (Hd & Hm & Hcov & Hfrom).
  destruct (addProduct_found m r) as [(i & k & t & Hi & Hk & ->)|[Habs ->]].
  - assert (Hkeys : map fst (<[i := (k, Num.add (Num.or_else t Num.zero) (sales r))]> m)
                    = map fst m).
    { rewrite list_fmap_insert. simpl. rewrite list_insert_id; [done|].
      by rewrite list_lookup_fmap, Hi. }
    split; [by rewrite Hkeys|]. split; [|split].
    + apply Forall_lookup. intros j e Hj.
      destruct (decide (j = i)) as [->|Hne].
      * rewrite list_lookup_insert_eq in Hj by (by eapply lookup_lt_Some).
        injection Hj as <-. simpl. apply total_holds_add; [done|].
        apply (proj1 (Forall_lookup _ _) Hm _ _ Hi).
      * rewrite list_lookup_insert_ne in Hj by done.
        apply total_holds_other; [|by apply (proj1 (Forall_lookup _ _) Hm _ _ Hj)].
        destruct (SameValueZero (fst e) (product r)) eqn:He; [|done].
        rewrite <- (Hd j i (fst e) k); [|by rewrite list_lookup_fmap, Hj
                                        |by rewrite list_lookup_fmap, Hi|done].
        symmetry. by apply (SameValueZero_join _ _ (product r)).
    + apply Forall_app. split.
      * eapply Forall_impl; [exact Hcov|]. intros r' (e & He & Hsame).
        apply list_elem_of_lookup in He as [j Hj].
        destruct (decide (j = i)) as [->|Hne].
        -- rewrite Hi in Hj. injection Hj as <-.
           exists (k, Num.add (Num.or_else t Num.zero) (sales r)). split; [|exact Hsame].
           eapply list_elem_of_lookup_2. apply list_lookup_insert_eq.
           by eapply lookup_lt_Some.
        -- exists e. split; [|done]. eapply list_elem_of_lookup_2.
           by rewrite list_lookup_insert_ne.
      * apply Forall_singleton.
        exists (k, Num.add (Num.or_else t Num.zero) (sales r)). split; [|exact Hk].
        eapply list_elem_of_lookup_2. apply list_lookup_insert_eq. by eapply lookup_lt_Some.
    + apply Forall_lookup. intros j e Hj.
      assert (Hfst : exists e0, m !! j = Some e0 /\ fst e0 = fst e).
      { destruct (decide (j = i)) as [->|Hne].
        - rewrite list_lookup_insert_eq in Hj by (by eapply lookup_lt_Some).
          injection Hj as <-. by eexists.
        - rewrite list_lookup_insert_ne in Hj by done. by eexists. }
      destruct Hfst as (e0 & He0 & <-).
      destruct (proj1 (Forall_lookup _ _) Hfrom _ _ He0) as (r' & Hr' & Heq).
      exists r'. split; [|done]. apply elem_of_app. by left.
  - rewrite Forall_forall in Habs.
    assert (Hnone : rows_of_product (map_key (product r)) rs = []).
    { unfold rows_of_product. apply filter_none. apply Forall_forall.
      intros r' Hr' Hsame. rewrite Forall_forall in Hcov.
      destruct (Hcov r' Hr') as (e & He & Hsame').
      pose proof (SameValueZero_join _ _ _ Hsame' Hsame) as Hjoin.
      rewrite SameValueZero_map_key, (Habs e He) in Hjoin. done. }
    split; [|split; [|split]].
    + rewrite map_app. simpl. intros i j a b Ha Hb Hij.
      assert (Hlen : length (map fst m) = length m) by apply length_map.
      destruct (decide (i < length m)%nat) as [Hi|Hi], (decide (j < length m)%nat) as [Hj|Hj].
      * rewrite lookup_app_l in Ha, Hb by lia. by apply (Hd i j).
      * rewrite lookup_app_l in Ha by lia. rewrite lookup_app_r in Hb by lia.
        apply list_lookup_singleton_Some in Hb as [_ <-].
        apply list_elem_of_lookup_2, list_elem_of_fmap in Ha as (e & -> & He).
        rewrite SameValueZero_map_key. by apply Habs.
      * rewrite lookup_app_l in Hb by lia. rewrite lookup_app_r in Ha by lia.
        apply list_lookup_singleton_Some in Ha as [_ <-].
        apply list_elem_of_lookup_2, list_elem_of_fmap in Hb as (e & -> & He).
        rewrite SameValueZero_sym, SameValueZero_map_key. by apply Habs.
      * rewrite lookup_app_r in Ha, Hb by lia.
        apply list_lookup_singleton_Some in Ha as [Ha _], Hb as [Hb _]. lia.
    + apply Forall_app. split.
      * apply Forall_forall. intros e He. apply total_holds_other; [by apply Habs|].
        by apply (proj1 (Forall_forall _ _) Hm).
      * apply Forall_singleton. simpl.
        apply (total_holds_add rs r (map_key (product r)) Num.zero (map_key_same _)).
        unfold total_holds. by rewrite Hnone.
    + apply Forall_app. split.
      * eapply Forall_impl; [exact Hcov|]. intros r' (e & He & Hsame).
        exists e. split; [|done]. apply elem_of_app. by left.
      * apply Forall_singleton. eexists. split; [apply elem_of_app; right; by left|].
        apply map_key_same.
    + apply Forall_app. split.
      * eapply Forall_impl; [exact Hfrom|]. intros e (r' & Hr' & Heq).
        exists r'. split; [|done]. apply elem_of_app. by left.
      * apply Forall_singleton. exists r. split; [|done]. apply elem_of_app. right. by left.
Qed.

Lemma totals_hold_fold (rs done_ : list Row) (m : list (value * num)) :
  totals_hold done_ m -> totals_hold (done_ ++ rs) (fold_left addProduct rs m).
Proof.
  revert done_ m. induction rs as [|r rs IH]; intros done_ m Hm; simpl.
  - by rewrite app_nil_r.
  - replace (done_ ++ r :: rs) with ((done_ ++ [r]) ++ rs) by (by rewrite <- app_assoc).
    by apply IH, totals_hold_step.
Qed.

Lemma productTotals_hold (rs : list Row) : totals_hold rs (productTotals rs).
Proof.
  apply (totals_hold_fold rs [] []). split; [|split; [|split]]; try constructor.
  by intros i j a b Ha.
Qed.

End ProductTotals.

Lemma distinct_keys_alt (ks : list value) :
  distinct_keys ks <->
  NoDup ks /\ forall a b, a ∈ ks -> b ∈ ks -> SameValueZero a b = true -> a = b.
Proof.
  split.
  - intros Hd. split.
    + apply NoDup_alt. intros i j x Hi Hj.
      destruct (decide (i = j)) as [|Hne]; [done|].
      pose proof (Hd i j x x Hi Hj Hne) as Hx. by rewrite SameValueZero_refl in Hx.
    + intros a b [i Hi]%list_elem_of_lookup [j Hj]%list_elem_of_lookup Hab.
      destruct (decide (i = j)) as [->|Hne]; [congruence|].
      by rewrite (Hd i j a b Hi Hj Hne) in Hab.
  - intros [Hnd Hel] i j a b Hi Hj Hne.
    destruct (SameValueZero a b) eqn:Hab; [|done].
    rewrite (Hel a b) in Hi; [| by eapply list_elem_of_lookup_2..|done].
    destruct Hne. by apply (NoDup_lookup _ i j b Hnd).
Qed.

Lemma distinct_keys_perm (ks ks' : list value) :
  ks ≡ₚ ks' -> distinct_keys ks -> distinct_keys ks'.
Proof.
  intros Hp. rewrite !distinct_keys_alt. intros [Hnd Hel]. split.
  - by rewrite <- Hp.
  - intros a b Ha Hb. rewrite <- Hp in Ha, Hb. by apply Hel.
Qed.

Section ProductOutput.
Context `{Host}.

Lemma withPercent_products (ts : list (value * num)) :
  map p_product (withPercent ts) = map fst ts.
Proof. unfold withPercent. rewrite map_map. by apply map_ext. Qed.

(** X9: the product totals partition the rows by product: no two entries
    have the same product (as a [Map] compares keys), the product of every
    row has an entry, and every entry is the product of a row. *)
Theorem product_totals_partition (data : list record) :
  distinct_keys (map p_product (productTotalsArr (aggregate data))) /\
  Forall (fun r => exists pt, pt ∈ productTotalsArr (aggregate data) /\
                              SameValueZero (p_product pt) (product r) = true)
         (rows (aggregate data)) /\
  Forall (fun pt => exists r, r ∈ rows (aggregate data) /\
                              p_product pt = map_key (product r))
         (productTotalsArr (aggregate data)).
Proof.
  unfold aggregate. simpl. set (rs := sortRows (rowsUnsorted data)).
  destruct (productTotals_hold rs) as (Hd & _ & Hcov & Hfrom).
  assert (Hperm : sortedTotals rs ≡ₚ productTotals rs) by apply sort_perm.
  split; [|split].
  - rewrite withPercent_products. eapply distinct_keys_perm; [|exact Hd].
    change (fst <$> productTotals rs ≡ₚ fst <$> sortedTotals rs). by rewrite Hperm.
  - eapply Forall_impl; [exact Hcov|]. intros r (e & He & Hsame).
    rewrite <- Hperm in He.
    exists {| p_product := fst e; total_sales := snd e;
              percent := percentOf (totalAll (sortedTotals rs)) (snd e) |}.
    split; [|done]. unfold withPercent.
    change (map ?f ?l) with (f <$> l). apply list_elem_of_fmap. by exists e.
  - unfold withPercent. change (map ?f ?l) with (f <$> l). apply Forall_fmap.
    rewrite Hperm. eapply Forall_impl; [exact Hfrom|]. by intros e.
Qed.

(** X10: the total of an entry is the running sum of the sales of the rows
    of its product, in the order of the rows output, in which a NaN
    subtotal is replaced by 0 before the next row is added. *)
Theorem product_total_contents (data : list record) :
  Forall (fun pt => total_holds (rows (aggregate data)) (p_product pt) (total_sales pt))
         (productTotalsArr (aggregate data)).
Proof.
  unfold aggregate. simpl. set (rs := sortRows (rowsUnsorted data)).
  destruct (productTotals_hold rs) as (_ & Hm & _).
  unfold withPercent. change (map ?f ?l) with (f <$> l). apply Forall_fmap.
  unfold sortedTotals. rewrite (sort_perm _ (productTotals rs)).
  eapply Forall_impl; [exact Hm|]. by intros e.
Qed.

End ProductOutput.

(** ** The order of the input *)

Section InputOrder.
Context `{Host}.

Lemma sortRows_perm_eq (l1 l2 : list Row) :
  l1 ≡ₚ l2 -> NoDup (map date l1) -> sortRows l1 = sortRows l2.
Proof.
  intros Hp Hnd.
  assert (Hsorted : forall l, StronglySorted (fun a b => date a <= date b) (sortRows l)).
  { intros l. pose proof (sort_sorted later (fun _ => True)) as Hs.
    eapply StronglySorted_weaken; [|apply Hs].
    - intros a b Hab. by apply later_false.
    - intros x y _ _. unfold later. rewrite Z.ltb_lt, Z.ltb_ge. lia.
    - intros x y z _ _ _. unfold in_order. rewrite !later_false. lia.
    - by apply Forall_forall. }
  apply (StronglySorted_unique_strong (fun a b => date a <= date b));
    [|apply Hsorted|apply Hsorted|].
  - intros x1 x2 Hx1 Hx2 H12 H21.
    unfold sortRows in Hx1, Hx2. rewrite (sort_perm later l1) in Hx1.
    rewrite (sort_perm later l2), <- Hp in Hx2.
    apply list_elem_of_lookup in Hx1 as [i Hi], Hx2 as [j Hj].
    assert (i = j) as ->; [|congruence].
    apply (NoDup_lookup _ i j (date x1) Hnd).
    + change (map date l1) with (date <$> l1). by rewrite list_lookup_fmap, Hi.
    + change (map date l1) with (date <$> l1). rewrite list_lookup_fmap, Hj. simpl.
      f_equal. lia.
  - unfold sortRows. by rewrite !(sort_perm later _).
Qed.

(** X11: when the valid rows have pairwise different timestamps, the
    output does not depend on the order of the records in the input. *)
Theorem order_independent (data data' : list record) :
  data ≡ₚ data' -> NoDup (map date (omap toRow data)) ->
  aggregate data = aggregate data'.
Proof.
  intros Hp Hnd.
  assert (Hrows : sortRows (rowsUnsorted data) = sortRows (rowsUnsorted data')).
  { apply sortRows_perm_eq; [|done]. unfold rowsUnsorted. by rewrite Hp. }
  unfold aggregate. by rewrite Hrows.
Qed.

End InputOrder.

Lemma order_independent_witness :
  @aggregate utc_host sample_data = @aggregate utc_host (reverse sample_data).
Proof.
  apply (@order_independent utc_host sample_data (reverse sample_data)).
  - by rewrite reverse_Permutation.
  - apply (bool_decide_unpack _). vm_compute. reflexivity.
Defined.

(** ** The calendar *)

Section Calendar.

Local Ltac div_lia := Z.div_mod_to_equations; lia.

Lemma DayFromYear_step (y : Z) :
  365 <= Time.DayFromYear (y + 1) - Time.DayFromYear y <= 366.
Proof. unfold Time.DayFromYear. div_lia. Qed.

Lemma DayFromYear_1970 : Time.DayFromYear 1970 = 0.
Proof. reflexivity. Qed.

Lemma DayFromYear_mono (y y' : Z) :
  y <= y' ->
  365 * (y' - y) <= Time.DayFromYear y' - Time.DayFromYear y <= 366 * (y' - y).
Proof.
  intros Hy. replace y' with (y + Z.of_nat (Z.to_nat (y' - y))) by lia.
  induction (Z.to_nat (y' - y)) as [|n IH].
  - rewrite Z.add_0_r. lia.
  - rewrite Nat2Z.inj_succ.
    replace (y + Z.succ (Z.of_nat n)) with (y + Z.of_nat n + 1) by lia.
    pose proof (DayFromYear_step (y + Z.of_nat n)). lia.
Qed.

Lemma DayFromYear_lt (y y' : Z) :
  Time.DayFromYear y < Time.DayFromYear (y' + 1) -> y <= y'.
Proof.
  intros Hlt. destruct (Z.le_gt_cases y y') as [|Hgt]; [done|].
  pose proof (DayFromYear_mono (y' + 1) y ltac:(lia)). lia.
Qed.

(** The search finds the year of day [d] when it starts at or after it and
    has the fuel to reach it. *)
Lemma year_down_spec (fuel : nat) (y d : Z) (y0 : Z) :
  y - Z.of_nat fuel < y0 <= y -> Time.DayFromYear y0 <= d ->
  d < Time.DayFromYear (y + 1) ->
  Time.DayFromYear (Time.year_down fuel y d) <= d < Time.DayFromYear (Time.year_down fuel y d + 1).
Proof.
  revert y. induction fuel as [|fuel IH]; intros y Hy0 Hd Hup; [lia|].
  simpl. destruct (Z.leb_spec (Time.DayFromYear y) d) as [Hle|Hgt]; [lia|].
  assert (y0 <> y) by (intros ->; lia).
  apply IH; [lia|done|]. by replace (y - 1 + 1) with y by lia.
Qed.

(** A time value, or the local time of one: at most a day beyond the
    largest. *)
Definition in_calendar (t : Z) : Prop := Z.abs t <= 8640000000000000 + 86400000.

Lemma YearFromTime_spec (t : Z) :
  in_calendar t ->
  Time.DayFromYear (Time.YearFromTime t) <= Time.Day t
  < Time.DayFromYear (Time.YearFromTime t + 1).
Proof.
  unfold in_calendar. intros Ht. unfold Time.YearFromTime.
  set (d := Time.Day t).
  assert (Hd : -100000001 <= d <= 100000001).
  { unfold d, Time.Day, Time.msPerDay. div_lia. }
  set (y := 1970 + Z.max (d / 365) (d / 366)).
  assert (Hy : 1970 + d / 365 <= y /\ 1970 + d / 366 <= y /\
               (y = 1970 + d / 365 \/ y = 1970 + d / 366)) by (unfold y; lia).
  apply (year_down_spec 1024 y d (y - 1023)); [lia| |].
  - destruct (Z.le_gt_cases 1970 (y - 1023)) as [Hge|Hlt].
    + pose proof (DayFromYear_mono 1970 (y - 1023) Hge) as Hm.
      rewrite DayFromYear_1970 in Hm. div_lia.
    + pose proof (DayFromYear_mono (y - 1023) 1970 ltac:(lia)) as Hm.
      rewrite DayFromYear_1970 in Hm. div_lia.
  - destruct (Z.le_gt_cases 1970 (y + 1)) as [Hge|Hlt].
    + pose proof (DayFromYear_mono 1970 (y + 1) Hge) as Hm.
      rewrite DayFromYear_1970 in Hm. div_lia.
    + pose proof (DayFromYear_mono (y + 1) 1970 ltac:(lia)) as Hm.
      rewrite DayFromYear_1970 in Hm. div_lia.
Qed.

Lemma YearFromTime_mono (t1 t2 : Z) :
  in_calendar t1 -> in_calendar t2 -> t1 <= t2 ->
  Time.YearFromTime t1 <= Time.YearFromTime t2.
Proof.
  intros H1 H2 Hle.
  pose proof (YearFromTime_spec t1 H1) as [Hlo1 _].
  pose proof (YearFromTime_spec t2 H2) as [_ Hhi2].
  apply DayFromYear_lt.
  assert (Time.Day t1 <= Time.Day t2); [|lia].
  unfold Time.Day, Time.msPerDay. by apply Z.div_le_mono.
Qed.

(** Year and month as one number, which counts the months. *)
Definition month_index (t : Z) : Z := 12 * Time.YearFromTime t + Time.MonthFromTime t.

Lemma month_index_mono (t1 t2 : Z) :
  in_calendar t1 -> in_calendar t2 -> t1 <= t2 -> month_index t1 <= month_index t2.
Proof.
  intros H1 H2 Hle. unfold month_index.
  pose proof (YearFromTime_mono t1 t2 H1 H2 Hle) as Hy.
  pose proof (MonthFromTime_range t1). pose proof (MonthFromTime_range t2).
  destruct (Z.eq_dec (Time.YearFromTime t1) (Time.YearFromTime t2)) as [Heq|Hne]; [|lia].
  assert (Hd : Time.Day t1 <= Time.Day t2).
  { unfold Time.Day, Time.msPerDay. by apply Z.div_le_mono. }
  assert (Time.MonthFromTime t1 <= Time.MonthFromTime t2); [|lia].
  unfold Time.MonthFromTime, Time.DayWithinYear, Time.InLeapYear. rewrite Heq.
  set (leap := if Time.DaysInYear (Time.YearFromTime t2) =? 366 then 1 else 0).
  set (base := Time.DayFromYear (Time.YearFromTime t2)).
  repeat (match goal with
          | |- context [if ?a <? ?b then _ else _] => destruct (Z.ltb_spec a b)
          end); lia.
Qed.

End Calendar.

(** ** Month keys and the calendar *)

(** Strings of the same length are compared before what follows them. *)
Lemma string_compare_append (a b x y : string) :
  String.length a = String.length b ->
  (a +:+ x ?= b +:+ y)%string
  = match (a ?= b)%string with
    | Eq => (x ?= y)%string
    | c => c
    end.
Proof.
  revert b. induction a as [|c a IH]; intros [|d b]; simpl; try done.
  intros [= Hlen]. destruct (Ascii.compare c d); [by apply IH|done..].
Qed.

(** A year of four digits is written with its four digits. *)
Lemma Z_to_string_4 (y : Z) :
  1000 <= y <= 9999 ->
  Z_to_string y
  = String (digit_char (y / 1000))
      (String (digit_char (y / 100 mod 10))
         (String (digit_char (y / 10 mod 10)) (String (digit_char (y mod 10)) ""))).
Proof.
  intros Hy. unfold Z_to_string.
  destruct (Z.ltb_spec y 0) as [|_]; [lia|].
  assert (Hlog : 9 <= Z.log2 y) by (apply Z.log2_le_pow2; lia).
  destruct (Z.to_nat (Z.log2 y)) as [|[|[|n]]] eqn:Hn; try lia.
  cbn [digits_go].
  destruct (Z.ltb_spec y 10) as [|_]; [lia|].
  destruct (Z.ltb_spec (y / 10) 10) as [|_]; [Z.div_mod_to_equations; lia|].
  destruct (Z.ltb_spec (y / 10 / 10) 10) as [|_]; [Z.div_mod_to_equations; lia|].
  destruct (Z.ltb_spec (y / 10 / 10 / 10) 10) as [_|]; [|Z.div_mod_to_equations; lia].
  replace (y / 10 / 10 / 10 mod 10) with (y / 1000) by (Z.div_mod_to_equations; lia).
  replace (y / 10 / 10 mod 10) with (y / 100 mod 10) by (Z.div_mod_to_equations; lia).
  reflexivity.
Qed.

Lemma digit_char_compare (p q : Z) :
  0 <= p <= 9 -> 0 <= q <= 9 -> Ascii.compare (digit_char p) (digit_char q) = (p ?= q).
Proof.
  intros Hp Hq. unfold Ascii.compare, digit_char. rewrite !N_ascii_embedding by lia.
  destruct (Z.compare_spec p q) as [->|Hlt|Hgt].
  - apply N.compare_refl.
  - apply N.compare_lt_iff. lia.
  - apply N.compare_gt_iff. lia.
Qed.

Lemma year_string_length (y : Z) :
  1000 <= y <= 9999 -> String.length (Z_to_string y) = 4%nat.
Proof. intros Hy. by rewrite Z_to_string_4. Qed.

Lemma year_string_compare (y1 y2 : Z) :
  1000 <= y1 <= 9999 -> 1000 <= y2 <= 9999 ->
  (Z_to_string y1 ?= Z_to_string y2)%string = (y1 ?= y2).
Proof.
  intros H1 H2. rewrite !Z_to_string_4 by done. cbn [String.compare].
  rewrite !digit_char_compare by (Z.div_mod_to_equations; lia).
  assert (Hd1 : y1 = 1000 * (y1 / 1000) + 100 * (y1 / 100 mod 10) + 10 * (y1 / 10 mod 10)
                     + y1 mod 10) by (Z.div_mod_to_equations; lia).
  assert (Hd2 : y2 = 1000 * (y2 / 1000) + 100 * (y2 / 100 mod 10) + 10 * (y2 / 10 mod 10)
                     + y2 mod 10) by (Z.div_mod_to_equations; lia).
  assert (Hr1 : 0 <= y1 / 100 mod 10 <= 9 /\ 0 <= y1 / 10 mod 10 <= 9 /\ 0 <= y1 mod 10 <= 9)
    by (Z.div_mod_to_equations; lia).
  assert (Hr2 : 0 <= y2 / 100 mod 10 <= 9 /\ 0 <= y2 / 10 mod 10 <= 9 /\ 0 <= y2 mod 10 <= 9)
    by (Z.div_mod_to_equations; lia).
  revert Hd1 Hd2 Hr1 Hr2.
  generalize (y1 / 1000) (y1 / 100 mod 10) (y1 / 10 mod 10) (y1 mod 10)
             (y2 / 1000) (y2 / 100 mod 10) (y2 / 10 mod 10) (y2 mod 10).
  intros a1 b1 c1 d1 a2 b2 c2 d2 -> -> Hr1 Hr2.
  destruct (Z.compare_spec a1 a2), (Z.compare_spec b1 b2), (Z.compare_spec c1 c2),
    (Z.compare_spec d1 d2);
    symmetry; first [apply Z.compare_eq_iff|apply Z.compare_lt_iff|apply Z.compare_gt_iff]; lia.
Qed.

(** The part of a key after the year. *)
Definition month_part (mo : Z) : string := "-" +:+ padStart 2 "0" (Z_to_string (mo + 1)).

Definition same_comparison (c d : comparison) : bool :=
  match c, d with
  | Eq, Eq | Lt, Lt | Gt, Gt => true
  | _, _ => false
  end.

Lemma month_part_compare (m1 m2 : Z) :
  0 <= m1 <= 11 -> 0 <= m2 <= 11 ->
  (month_part m1 ?= month_part m2)%string = (m1 ?= m2).
Proof.
  intros H1 H2.
  pose (same := fun m1 m2 =>
          same_comparison (month_part m1 ?= month_part m2)%string (m1 ?= m2)).
  assert (Hall : all_between 0 12 (fun m1 => all_between 0 12 (same m1)) = true)
    by (vm_compute; reflexivity).
  pose proof (all_between_spec 0 12 (same m1) m2
                (all_between_spec 0 12 (fun m1 => all_between 0 12 (same m1)) m1 Hall
                   ltac:(clear Hall; lia)) ltac:(clear Hall; lia)) as Hs.
  unfold same in Hs.
  by destruct (month_part m1 ?= month_part m2)%string, (m1 ?= m2).
Qed.

Lemma format_month_parts (y mo : Z) : format_month y mo = Z_to_string y +:+ month_part mo.
Proof. reflexivity. Qed.

Lemma format_month_compare (y1 m1 y2 m2 : Z) :
  1000 <= y1 <= 9999 -> 1000 <= y2 <= 9999 -> 0 <= m1 <= 11 -> 0 <= m2 <= 11 ->
  (format_month y1 m1 ?= format_month y2 m2)%string = (12 * y1 + m1 ?= 12 * y2 + m2).
Proof.
  intros Hy1 Hy2 Hm1 Hm2. rewrite !format_month_parts.
  rewrite string_compare_append
    by (by rewrite !year_string_length).
  rewrite (year_string_compare y1 y2 Hy1 Hy2), (month_part_compare m1 m2 Hm1 Hm2).
  destruct (Z.compare_spec y1 y2), (Z.compare_spec m1 m2);
    symmetry; first [apply Z.compare_eq_iff|apply Z.compare_lt_iff|apply Z.compare_gt_iff]; lia.
Qed.

Section MonthKeys.
Context `{Host}.

(** Dates whose local year has four digits. *)
Definition four_digit_year (t : Z) : Prop := 1000 <= Time.getFullYear t <= 9999.

Lemma monthKey_index_compare (t1 t2 : Z) :
  four_digit_year t1 -> four_digit_year t2 ->
  (monthKey t1 ?= monthKey t2)%string
  = (month_index (Time.LocalTime t1) ?= month_index (Time.LocalTime t2)).
Proof.
  unfold four_digit_year, Time.getFullYear, month_index, Time.LocalTime.
  intros H1 H2. rewrite !monthKey_format.
  generalize dependent (Time.YearFromTime (t1 + LocalTZA t1)).
  generalize dependent (Time.YearFromTime (t2 + LocalTZA t2)).
  pose proof (MonthFromTime_range (t1 + LocalTZA t1)) as Hm1.
  pose proof (MonthFromTime_range (t2 + LocalTZA t2)) as Hm2.
  generalize dependent (Time.MonthFromTime (t1 + LocalTZA t1)).
  generalize dependent (Time.MonthFromTime (t2 + LocalTZA t2)).
  intros m2 Hm2 m1 Hm1 y2 Hy2 y1 Hy1. by apply format_month_compare.
Qed.

(** X15: for dates whose local years have four digits, comparing two month
    keys as strings is comparing the months they name: the keys are equal
    for the same year and month, and ordered as the calendar is. *)
Theorem monthKey_order (t1 t2 : Z) :
  four_digit_year t1 -> four_digit_year t2 ->
  (monthKey t1 ?= monthKey t2)%string
  = (month_index (Time.LocalTime t1) ?= month_index (Time.LocalTime t2)).
Proof.
  unfold four_digit_year, Time.getFullYear, month_index, Time.LocalTime.
  intros H1 H2. rewrite !monthKey_format.
  pose proof (MonthFromTime_range (t1 + LocalTZA t1)) as Hm1.
  pose proof (MonthFromTime_range (t2 + LocalTZA t2)) as Hm2.
  revert H1 H2 Hm1 Hm2.
  generalize (Time.YearFromTime (t1 + LocalTZA t1)) (Time.YearFromTime (t2 + LocalTZA t2))
             (Time.MonthFromTime (t1 + LocalTZA t1)) (Time.MonthFromTime (t2 + LocalTZA t2)).
  intros y1 y2 m1 m2 Hy1 Hy2 Hm1 Hm2.
  rewrite !format_month_parts, string_compare_append by (by rewrite !year_string_length).
  rewrite (year_string_compare y1 y2 Hy1 Hy2), (month_part_compare m1 m2 Hm1 Hm2).
  destruct (Z.compare_spec y1 y2), (Z.compare_spec m1 m2);
    symmetry; first [apply Z.compare_eq_iff|apply Z.compare_lt_iff|apply Z.compare_gt_iff]; lia.
Qed.

(** X16: for such dates, a date that is not later in local time does not
    get a later key: [localeCompare] of the two keys is not positive. *)
Theorem monthKey_chronological (t1 t2 : Z) :
  in_calendar (Time.LocalTime t1) -> in_calendar (Time.LocalTime t2) ->
  four_digit_year t1 -> four_digit_year t2 ->
  Time.LocalTime t1 <= Time.LocalTime t2 ->
  localeCompare (monthKey t1) (monthKey t2) <= 0.
Proof.
  intros Hc1 Hc2 H1 H2 Hle. unfold localeCompare.
  rewrite (monthKey_index_compare t1 t2 H1 H2).
  pose proof (month_index_mono _ _ Hc1 Hc2 Hle) as Hm.
  destruct (Z.compare_spec (month_index (Time.LocalTime t1))
                           (month_index (Time.LocalTime t2))); lia.
Qed.

Lemma StronglySorted_lookup_lt {A} (R : A -> A -> Prop) (l : list A) (i j : nat) (x y : A) :
  StronglySorted R l -> (i < j)%nat -> l !! i = Some x -> l !! j = Some y -> R x y.
Proof.
  intros Hs. revert i j. induction Hs as [|a l Hs IH Ha]; intros i j Hij Hi Hj; [done|].
  destruct j as [|j]; [lia|]. destruct i as [|i]; simpl in *.
  - injection Hi as <-. rewrite Forall_forall in Ha. apply Ha.
    by eapply list_elem_of_lookup_2.
  - apply (IH i j); [lia|done..].
Qed.

Lemma monthly_keys_increase (rs : list Row) (i j : nat) (a b : MonthlyRow) :
  withPctChange (monthlySorted rs) !! i = Some a ->
  withPctChange (monthlySorted rs) !! j = Some b -> (i < j)%nat ->
  ((key a ?= key b)%string = Lt).
Proof.
  intros Hi Hj Hij.
  pose proof (monthlySorted_strict rs) as Hs.
  destruct (withPctChange_fields (monthlySorted rs)) as (Hk & _).
  rewrite <- Hk in Hs.
  assert (Hlt : key_lt (key a) (key b)).
  { apply (StronglySorted_lookup_lt key_lt _ i j (key a) (key b) Hs Hij).
    - change (map key ?l) with (key <$> l). by rewrite list_lookup_fmap, Hi.
    - change (map key ?l) with (key <$> l). by rewrite list_lookup_fmap, Hj. }
  unfold key_lt, String.ltb in Hlt. by destruct (key a ?= key b)%string.
Qed.

(** X17: when the local years of the rows have four digits, the monthly
    output is in calendar order: the rows of an earlier bucket are of an
    earlier month than the rows of a later bucket. *)
Theorem monthly_calendar_order (data : list record) (i j : nat) (a b : MonthlyRow)
    (ra rb : Row) :
  four_digit_year (date ra) -> four_digit_year (date rb) ->
  monthly (aggregate data) !! i = Some a -> monthly (aggregate data) !! j = Some b ->
  monthKey (date ra) = key a -> monthKey (date rb) = key b -> (i < j)%nat ->
  month_index (Time.LocalTime (date ra)) < month_index (Time.LocalTime (date rb)).
Proof.
  intros Hya Hyb Hi Hj Hka Hkb Hij.
  pose proof (monthly_keys_increase _ i j a b Hi Hj Hij) as Hlt.
  pose proof (monthKey_index_compare _ _ Hya Hyb) as Hc.
  revert Hlt Hc. rewrite <- Hka, <- Hkb.
  generalize (monthKey (date ra)) (monthKey (date rb)). intros ka kb Hlt Hc.
  rewrite Hlt in Hc. symmetry in Hc. by apply Z.compare_lt_iff in Hc.
Qed.

End MonthKeys.

Lemma monthKey_order_witness :
  (@monthKey utc_host feb1 ?= @monthKey utc_host jan15)%string = Gt /\
  @monthKey utc_host feb1 = "2024-02".
Proof.
  split; [|vm_compute; reflexivity].
  rewrite (@monthKey_order utc_host feb1 jan15); by vm_compute.
Defined.

Lemma monthKey_chronological_witness :
  localeCompare (@monthKey utc_host jan1) (@monthKey utc_host jan15) <= 0 /\
  localeCompare (@monthKey utc_host jan15) (@monthKey utc_host feb1) <= 0.
Proof.
  split; apply (@monthKey_chronological utc_host); by vm_compute.
Defined.

Lemma monthly_calendar_order_witness :
  month_index (@Time.LocalTime utc_host jan15) < month_index (@Time.LocalTime utc_host feb1).
Proof.
  apply (@monthly_calendar_order utc_host sample_data 0 1
           {| key := "2024-01"; m_sales := 350; transactions := 2; pct_change := None |}
           {| key := "2024-02"; m_sales := 50; transactions := 1;
              pct_change := Some (-0x1.56db6db6db6dbp+6)%float |}
           {| date := jan15; product := VStr "B"; units := 1; unit_price := 250; sales := 250 |}
           {| date := feb1; product := VStr "A"; units := 5; unit_price := 10; sales := 50 |});
    by vm_compute.
Defined.

(** ** The component [App]: uploads and what is shown

    The state is the pair of [parsed] and [error]; an upload runs to its
    end before the next one starts. *)

Record AppState := {
  parsed : option (list record);
  error : string
}.

Definition initial_state : AppState := {| parsed := None; error := "" |}.

(** How [parseCSV] ends: with the records of the file, or with an error
    whose [message] is a string or is missing. *)
Inductive upload :=
| Resolved (data : list record)
| Rejected (message : option string).

(** [s || d] on strings. *)
Definition or_string (s d : string) : string := if String.eqb s "" then d else s.

(** [handleFile]: [setError("")], then [setParsed(data)], or [setError] of
    the message of what was thrown. *)
Definition handleFile (u : upload) (s : AppState) : AppState :=
  let s0 := {| parsed := parsed s; error := "" |} in
  let caught message :=
    {| parsed := parsed s0; error := or_string (default "" message) "Dosya okunamadı" |} in
  match u with
  | Resolved data =>
      if (length data =? 0)%nat then caught (Some "CSV boş veya okunamadı.")
      else {| parsed := Some data; error := error s0 |}
  | Rejected message => caught message
  end.

(** The uploads of a session, one after the other. *)
Definition run_uploads (us : list upload) : AppState :=
  fold_left (fun s u => handleFile u s) us initial_state.

Section View.
Context `{Host}.

(** [useMemo(() => (parsed ? aggregate(parsed) : null), [parsed])] *)
Definition stats (s : AppState) : option Output := aggregate <$> parsed s.

(** [Boolean(stats?.rows?.length)] *)
Definition hasData (s : AppState) : bool :=
  match stats s with
  | Some out => negb (length (rows out) =? 0)%nat
  | None => false
  end.

(** The three conditional parts of the page. *)
Record View := {
  dropZone : bool;
  errorBox : bool;
  dashboard : bool
}.

Definition truthy_string (s : string) : bool := negb (String.eqb s "").

Definition view (s : AppState) : View :=
  {| dropZone := negb (hasData s) && negb (truthy_string (error s));
     errorBox := truthy_string (error s);
     dashboard := hasData s && bool_decide (is_Some (stats s)) |}.

End View.

(** An upload that fails: no record, or a rejection. *)
Definition failed (u : upload) : bool :=
  match u with
  | Resolved data => (length data =? 0)%nat
  | Rejected _ => true
  end.

Lemma or_string_truthy (s d : string) :
  truthy_string d = true -> truthy_string (or_string s d) = true.
Proof. unfold or_string, truthy_string. by destruct (String.eqb s "") eqn:Hs; [|rewrite Hs]. Qed.

Lemma handleFile_failed (u : upload) (s : AppState) :
  failed u = true ->
  parsed (handleFile u s) = parsed s /\ truthy_string (error (handleFile u s)) = true.
Proof.
  destruct u as [data|message]; simpl.
  - intros ->. simpl. split; [done|]. by apply or_string_truthy.
  - intros _. split; [done|]. by apply or_string_truthy.
Qed.

Lemma handleFile_succeeded (u : upload) (s : AppState) :
  failed u = false ->
  exists data, u = Resolved data /\ data <> [] /\
               handleFile u s = {| parsed := Some data; error := "" |}.
Proof.
  destruct u as [data|message]; simpl; [|done].
  intros Hlen. exists data. rewrite Hlen. split; [done|]. split; [|done].
  by destruct data.
Qed.

(** X12: whatever the uploads of a session, [parsed] is never an empty
    array, so that [aggregate] only ever runs on records; and the error
    text is empty exactly when there was no upload yet or the last one gave
    records. *)
Theorem uploads_invariant (us : list upload) :
  parsed (run_uploads us) <> Some [] /\
  (error (run_uploads us) = "" <-> from_option failed false (last us) = false).
Proof.
  unfold run_uploads. induction us as [|u us IH] using rev_ind; [done|].
  rewrite fold_left_app, last_snoc. simpl.
  set (s := fold_left (fun s u => handleFile u s) us initial_state) in *.
  destruct (failed u) eqn:Hu.
  - destruct (handleFile_failed u s Hu) as [-> Herr]. split; [apply IH|].
    split; [|done]. intros Heq. by rewrite Heq in Herr.
  - destruct (handleFile_succeeded u s Hu) as (data & -> & Hne & ->). simpl.
    split; [congruence|done].
Qed.

Section Shown.
Context `{Host}.

(** X13: an upload that fails, with no record or a rejection, shows the
    error box and leaves [parsed] as it was: the dashboard of an earlier
    file stays on the page, and the drop zone does not come back. *)
Theorem failed_upload_view (u : upload) (s : AppState) :
  failed u = true ->
  parsed (handleFile u s) = parsed s /\
  errorBox (view (handleFile u s)) = true /\
  dropZone (view (handleFile u s)) = false /\
  dashboard (view (handleFile u s)) = dashboard (view s).
Proof.
  intros Hu. destruct (handleFile_failed u s Hu) as [Hp He].
  split; [exact Hp|].
  unfold view, hasData, stats. simpl. rewrite Hp, He.
  split; [done|]. split; [|done]. by rewrite andb_false_r.
Qed.

(** X14: an upload that gives records shows no error; it shows the
    dashboard when a record passes validation, and otherwise the drop zone
    again, with no message. *)
Theorem resolved_upload_view (data : list record) (s : AppState) :
  data <> [] ->
  errorBox (view (handleFile (Resolved data) s)) = false /\
  (dashboard (view (handleFile (Resolved data) s)) = true <->
   Exists (fun r => is_Some (toRow r)) data) /\
  dropZone (view (handleFile (Resolved data) s))
  = negb (dashboard (view (handleFile (Resolved data) s))).
Proof.
  intros Hne.
  destruct (handleFile_succeeded (Resolved data) s) as (data' & [= <-] & _ & ->).
  { by destruct data. }
  unfold view, hasData, stats. simpl. split; [done|]. split.
  - rewrite andb_true_r, negb_true_iff, Nat.eqb_neq.
    unfold sortRows, rowsUnsorted. rewrite sort_length, length_zero_iff_nil, omap_nil_iff.
    split.
    + intros Hsome. apply dec_stable. intros Hex. apply Hsome.
      apply Forall_forall. intros r Hr. destruct (toRow r) eqn:Hrow; [|done].
      destruct Hex. apply Exists_exists. exists r. split; [done|]. by rewrite Hrow.
    + intros Hex Hall. apply Exists_exists in Hex as (r & Hr & [row Hrow]).
      rewrite Forall_forall in Hall. by rewrite (Hall r Hr) in Hrow.
  - by destruct (length (sortRows (rowsUnsorted data)) =? 0)%nat.
Qed.

End Shown.

(** A session: a file with the sample records, then a rejected upload. *)
Definition loaded_state : AppState := handleFile (Resolved sample_data) initial_state.

Lemma failed_upload_view_witness :
  errorBox (@view utc_host (handleFile (Rejected None) loaded_state)) = true /\
  dashboard (@view utc_host (handleFile (Rejected None) loaded_state)) = true /\
  error (handleFile (Rejected None) loaded_state) = "Dosya okunamadı".
Proof.
  destruct (@failed_upload_view utc_host (Rejected None) loaded_state eq_refl)
    as (_ & He & _ & Hd).
  split; [exact He|]. split; [|reflexivity].
  rewrite Hd. vm_compute. reflexivity.
Defined.

(** A file whose only record has no column at all. *)
Lemma resolved_upload_view_witness :
  dropZone (@view utc_host (handleFile (Resolved [∅]) initial_state)) = true /\
  errorBox (@view utc_host (handleFile (Resolved [∅]) initial_state)) = false.
Proof.
  destruct (@resolved_upload_view utc_host [∅] initial_state) as (He & _ & Hz).
  { discriminate. }
  split; [|exact He]. rewrite Hz. vm_compute. reflexivity.
Defined.
